(** * PDF text compression: the extractive summarizer and the truncating path

    A shallow embedding of [compress_pdf_advanced.py] (class
    [AdvancedPDFCompressor]) and of [compress_pdf.py] (class [PDFCompressor]).
    What PyPDF2 reads from the file is a parameter: [extract_text] takes the
    texts of the pages, and [compress] the text that [extract_text] returns.
    The two [main] functions (command line, file names) are not modelled.

    Conventions of the embedding.
    - A Python [str] is a list of characters.  Characters are the 8-bit
      code points U+0000..U+00FF; the character classes of the [re] module
      and of [str] methods are Python's own on that range.
    - A Python [int] is a [Z]; [len] is [Z.of_nat (length _)].
    - A Python [float] is a primitive binary64 float, so [+], [*], [/]
      and [<] are CPython's own, bit for bit.  The ints that meet a float
      are lengths, counts and token estimates; the theorems that reason
      about rounding take them below 2^53, where [float(n)] is exact.
    - An exception is a value of [exn]; code that can raise lives in the
      [result] monad.
    - [print] and the optional write of the output file have no influence
      on the value returned and are left out, except for the two divisions
      that are evaluated inside the printed f-strings. *)

From Stdlib Require Import ZArith List Ascii Bool Lia Floats Sorted.
From Stdlib Require String.
From stdpp Require Import base option list gmap strings.

Local Open Scope Z_scope.

(** ** Characters and strings *)

Abbreviation char := ascii.
Abbreviation str := (list ascii).

(** An ASCII string literal as a [str]. *)
Definition lit (s : String.string) : str := String.list_ascii_of_string s.

Definition ord (c : char) : N := N_of_ascii c.

Definition in_range (lo hi n : N) : bool := ((lo <=? n) && (n <=? hi))%N.

(** [str.isspace], which is also the class [\s] of [re] on [str] patterns:
    TAB..CR, FS..US, SPACE, NEL and NO-BREAK SPACE. *)
Definition isspace (c : char) : bool :=
  let n := ord c in
  in_range 9 13 n || in_range 28 32 n || (n =? 133)%N || (n =? 160)%N.

(** The class [\d]: the decimal digits. *)
Definition isdecimal (c : char) : bool := in_range 48 57 (ord c).

(** The class [\w]: alphanumeric characters and the underscore. *)
Definition isword (c : char) : bool :=
  let n := ord c in
  in_range 48 57 n || in_range 65 90 n || in_range 97 122 n || (n =? 95)%N
  || (n =? 170)%N || (n =? 178)%N || (n =? 179)%N || (n =? 181)%N
  || (n =? 185)%N || (n =? 186)%N || in_range 188 190 n
  || in_range 192 214 n || in_range 216 246 n || in_range 248 255 n.

(** One character of [str.lower]. *)
Definition lower_char (c : char) : char :=
  let n := ord c in
  if in_range 65 90 n || in_range 192 214 n || in_range 216 222 n
  then ascii_of_N (n + 32) else c.

Definition lower (s : str) : str := map lower_char s.

(** [str.isupper]: no character is lowercase and at least one is
    uppercase.  On this range the lowercase characters are a-z, the two
    ordinal indicators, the micro sign and U+00DF..U+00FF without the
    division sign; the uppercase ones are A-Z and U+00C0..U+00DE without
    the multiplication sign. *)
Definition isupper_char (c : char) : bool :=
  let n := ord c in
  in_range 65 90 n || in_range 192 214 n || in_range 216 222 n.

Definition islower_char (c : char) : bool :=
  let n := ord c in
  in_range 97 122 n || (n =? 170)%N || (n =? 181)%N || (n =? 186)%N
  || in_range 223 246 n || in_range 248 255 n.

Definition isupper (s : str) : bool :=
  forallb (fun c => negb (islower_char c)) s && existsb isupper_char s.

Definition newline : char := "010"%char.
Definition space : char := " "%char.

Fixpoint drop_while {A} (f : A -> bool) (l : list A) : list A :=
  match l with
  | a :: l' => if f a then drop_while f l' else l
  | [] => []
  end.

(** [str.strip()] with no argument. *)
Definition lstrip (s : str) : str := drop_while isspace s.
Definition rstrip (s : str) : str := rev (drop_while isspace (rev s)).
Definition strip (s : str) : str := rstrip (lstrip s).

(** Truth value of a string: non-empty. *)
Definition nonempty (s : str) : bool :=
  match s with [] => false | _ :: _ => true end.

(** [sep.join(parts)]. *)
Fixpoint join (sep : str) (parts : list str) : str :=
  match parts with
  | [] => []
  | [p] => p
  | p :: ps => p ++ sep ++ join sep ps
  end.

(** [s[:k]] for a Python int [k]: a negative bound counts from the end. *)
Definition slice_to {A} (l : list A) (k : Z) : list A :=
  if 0 <=? k then take (Z.to_nat k) l
  else take (Z.to_nat (Z.of_nat (length l) + k)) l.

(** ** Exceptions *)

Inductive exn := ZeroDivisionError | OverflowError | ValueError | IndexError.

Inductive result (A : Type) :=
  | Ok (a : A)
  | Raise (e : exn).
Arguments Ok {A} a.
Arguments Raise {A} e.

#[global] Instance result_ret : MRet result := fun A a => Ok a.

#[global] Instance result_bind : MBind result := fun A B k r =>
  match r with
  | Ok a => k a
  | Raise e => Raise e
  end.

Fixpoint mapR {A B} (f : A -> result B) (l : list A) : result (list B) :=
  match l with
  | [] => Ok []
  | a :: l' => b ← f a; bs ← mapR f l'; Ok (b :: bs)
  end.

(** [l[i]] for an index that is not negative. *)
Definition index {A} (l : list A) (i : nat) : result A :=
  match l !! i with
  | Some a => Ok a
  | None => Raise IndexError
  end.

(** ** The [re] module

    A compiled pattern is modelled by its matcher: given the text before
    the current position (nearest character first) and the text from the
    position on, the length of the match that starts at this position, if
    there is one.  No pattern of this program matches the empty string. *)

Definition pattern := str -> str -> option nat.

(** What a left-to-right scan of the text finds: characters outside every
    match, and the matches. *)
Inductive piece :=
  | Lit (c : char)
  | Hit (m : str).

(** The scan shared by [re.sub], [re.split], [re.findall] and [re.search]:
    the matcher is tried at each position in turn, and after a match the
    scan resumes where the match ended.  [skip] counts the characters of
    the current match that are still to be passed over. *)
Fixpoint scan (p : pattern) (before rest : str) (skip : nat) : list piece :=
  match rest with
  | [] => []
  | c :: rest' =>
      match skip with
      | S k => scan p (c :: before) rest' k
      | O =>
          match p before rest with
          | Some (S k) => Hit (take (S k) rest) :: scan p (c :: before) rest' k
          | _ => Lit c :: scan p (c :: before) rest' O
          end
      end
  end.

Definition finditer (p : pattern) (text : str) : list piece := scan p [] text O.

(** [re.sub(p, repl, text)], the replacement given as a function of the
    matched text. *)
Definition sub_piece (repl : str -> str) (x : piece) : str :=
  match x with
  | Lit c => [c]
  | Hit m => repl m
  end.

Definition re_sub (p : pattern) (repl : str -> str) (text : str) : str :=
  concat (map (sub_piece repl) (finditer p text)).

(** [re.findall(p, text)] for a pattern without groups. *)
Fixpoint hits (ps : list piece) : list str :=
  match ps with
  | [] => []
  | Lit _ :: ps' => hits ps'
  | Hit m :: ps' => m :: hits ps'
  end.

Definition re_findall (p : pattern) (text : str) : list str :=
  hits (finditer p text).

(** [re.search(p, text)] used as a truth value. *)
Definition re_search (p : pattern) (text : str) : bool :=
  match hits (finditer p text) with
  | [] => false
  | _ :: _ => true
  end.

(** [re.split(p, text)] for a pattern without groups: the text between the
    matches, empty fields included. *)
Fixpoint fields (ps : list piece) : list str :=
  match ps with
  | [] => [[]]
  | Lit c :: ps' =>
      match fields ps' with
      | f :: fs => (c :: f) :: fs
      | [] => [[c]]
      end
  | Hit _ :: ps' => [] :: fields ps'
  end.

Definition re_split (p : pattern) (text : str) : list str :=
  fields (finditer p text).

(** Length of the longest prefix whose characters all satisfy [f]. *)
Fixpoint run (f : char -> bool) (s : str) : nat :=
  match s with
  | c :: s' => if f c then S (run f s') else O
  | [] => O
  end.

Definition some_positive (k : nat) : option nat :=
  match k with O => None | S _ => Some k end.

(** [\s+] *)
Definition pat_spaces : pattern := fun _ rest => some_positive (run isspace rest).

Definition is_terminal (c : char) : bool :=
  match c with
  | "."%char | "!"%char | "?"%char => true
  | _ => false
  end.

(** [(?<=[.!?])\s+] *)
Definition pat_sentence_gap : pattern := fun before rest =>
  match before with
  | c :: _ => if is_terminal c then some_positive (run isspace rest) else None
  | [] => None
  end.

Definition char_eqb (a b : char) : bool := Ascii.eqb a b.

(** [(.)\1{4,}]: a character other than the newline, then at least four
    more copies of it, as many as there are. *)
Definition pat_char_run : pattern := fun _ rest =>
  match rest with
  | c :: rest' =>
      if char_eqb c newline then None
      else let k := run (char_eqb c) rest' in
           if (4 <=? k)%nat then Some (S k) else None
  | [] => None
  end.

(** The template [\1\1] for [pat_char_run]. *)
Definition twice_first (m : str) : str :=
  match m with
  | c :: _ => [c; c]
  | [] => []
  end.

(** [\b\w+\b]: a maximal run of word characters. *)
Definition pat_word : pattern := fun before rest =>
  match before with
  | c :: _ => if isword c then None else some_positive (run isword rest)
  | [] => some_positive (run isword rest)
  end.

(** [\d] *)
Definition pat_digit : pattern := fun _ rest =>
  match rest with
  | c :: _ => if isdecimal c then Some 1%nat else None
  | [] => None
  end.

(** A literal substring, as [str.replace] and [str.split] look for it. *)
Fixpoint starts_with (old s : str) : bool :=
  match old, s with
  | [], _ => true
  | a :: old', b :: s' => char_eqb a b && starts_with old' s'
  | _ :: _, [] => false
  end.

Definition pat_literal (old : str) : pattern := fun _ rest =>
  if starts_with old rest then Some (length old) else None.

(** [text.replace(old, new)] and [text.split(sep)] for non-empty [old], [sep]. *)
Definition replace (old new text : str) : str := re_sub (pat_literal old) (fun _ => new) text.
Definition split (sep text : str) : list str := re_split (pat_literal sep) text.

(** Position of the last character of [s] that satisfies [f]. *)
Fixpoint last_index (f : char -> bool) (s : str) : option nat :=
  match s with
  | [] => None
  | c :: s' =>
      match last_index f s' with
      | Some j => Some (S j)
      | None => if f c then Some O else None
      end
  end.

(** [\n\s*\d+\s*\n]: a newline, white space, at least one digit, white
    space, a newline.  Both white-space runs and the digit run are taken
    whole (a shorter one leaves a character the next item refuses), and the
    second white-space run is then given back down to its last newline. *)
Definition pat_page_number : pattern := fun _ rest =>
  match rest with
  | c :: r1 =>
      if char_eqb c newline then
        let a := run isspace r1 in
        let r2 := drop a r1 in
        let d := run isdecimal r2 in
        let r3 := drop d r2 in
        match d, last_index (char_eqb newline) (take (run isspace r3) r3) with
        | S _, Some j => Some (1 + a + d + (j + 1))%nat
        | _, _ => None
        end
      else None
  | [] => None
  end.

(** [re.match(p, text)] used as a truth value: a match that starts at
    the first position of the text. *)
Definition re_match (p : pattern) (text : str) : bool :=
  match p [] text with
  | Some _ => true
  | None => false
  end.

(** [^\d+\.]: at the start of the text, decimal digits, as many as there
    are and at least one, then a full stop. *)
Definition pat_numbered : pattern := fun before rest =>
  match before with
  | [] =>
      let d := run isdecimal rest in
      match d, drop d rest with
      | S _, c :: _ => if char_eqb c "."%char then Some (S d) else None
      | _, _ => None
      end
  | _ :: _ => None
  end.

(** [^[A-Z][^.!?]*$]: the whole text, which starts with one of A-Z and
    has none of [.], [!], [?] after it.  (The class [[^.!?]] takes a
    newline too, so the end that [$] accepts in front of a last newline
    adds no text that the end of the string does not accept.) *)
Definition pat_capitalized : pattern := fun before rest =>
  match before, rest with
  | [], c :: rest' =>
      if in_range 65 90 (ord c) && forallb (fun d => negb (is_terminal d)) rest'
      then Some (length rest) else None
  | _, _ => None
  end.

(** ** Python numbers *)

(** [float(n)] for an int: the nearest binary64 number, ties to even
    (infinite from 2^1024 on, where CPython raises [OverflowError]; no
    length or count comes near). *)
Definition float_of_Z (z : Z) : float :=
  SF2Prim (binary_normalize prec emax z 0 false).

(** [a / b] on two ints.  CPython rounds the exact quotient; dividing the
    two converted operands is the same thing as long as both are below
    2^53 in absolute value, which every length and count is. *)
Definition truediv (a b : Z) : result float :=
  if b =? 0 then Raise ZeroDivisionError
  else Ok (float_of_Z a / float_of_Z b)%float.

(** [int(x)] on a float: truncation toward zero. *)
Definition int_of_float (x : float) : result Z :=
  match Prim2SF x with
  | S754_zero _ => Ok 0
  | S754_finite s m e =>
      let v := if 0 <=? e then Z.pos m * 2 ^ e else Z.pos m / 2 ^ (- e) in
      Ok (if s then - v else v)
  | S754_infinity _ => Raise OverflowError
  | S754_nan => Raise ValueError
  end.

(** The order [<] on floats, as [list.sort] and [sorted] use it. *)
Definition float_lt (x y : float) : bool := (x <? y)%float.

(** ** Sorting

    [sorted] and [list.sort] are stable: [insert_by lt x l] puts [x], which
    stood before every element of [l], after the elements that are
    strictly before it in the order and in front of all others. *)
Fixpoint insert_by {A} (lt : A -> A -> bool) (x : A) (l : list A) : list A :=
  match l with
  | [] => [x]
  | y :: l' => if lt y x then y :: insert_by lt x l' else x :: l
  end.

Definition stable_sort {A} (lt : A -> A -> bool) (l : list A) : list A :=
  foldr (insert_by lt) [] l.

(** [sorted(l, key=key)] and [sorted(l, key=key, reverse=True)] on float keys. *)
Definition sorted_by_key {A} (key : A -> float) (l : list A) : list A :=
  stable_sort (fun a b => float_lt (key a) (key b)) l.

Definition sorted_by_key_reverse {A} (key : A -> float) (l : list A) : list A :=
  stable_sort (fun a b => float_lt (key b) (key a)) l.

(** [l.sort()] on a list of indices. *)
Definition sort_indices (l : list nat) : list nat := stable_sort Nat.ltb l.

(** What a run of [compress] shows: the two token estimates it prints and
    the text it returns. *)
Record report := Report {
  original_tokens : Z;
  final_tokens : Z;
  compressed : str
}.

(** ** [compress_pdf_advanced.py] *)

Module AdvancedPDFCompressor.

Record t := {
max_tokens : Z;
compression_ratio : float;
max_chars : Z
}.

(** [__init__]; the defaults are [max_tokens = 100000] and
  [compression_ratio = 0.5]. *)
Definition init (max_tokens : Z) (compression_ratio : float) : t :=
{| max_tokens := max_tokens;
   compression_ratio := compression_ratio;
   max_chars := max_tokens * 4 |}.

(** [extract_text]: [pages] is what [page.extract_text()] returns for the
  pages of the reader, in their order. *)
Definition extract_text (pages : list str) : str :=
foldl (fun text page => text ++ (page ++ [newline])) [] pages.

Definition estimate_tokens (text : str) : Z := Z.of_nat (length text) / 4.

Definition sentence_tokenize (text : str) : list str :=
let sentences := re_split pat_sentence_gap text in
map strip (List.filter (fun s => nonempty (strip s)) sentences).

Definition stop_words : list str :=
map lit ["the"; "a"; "an"; "and"; "or"; "but"; "in"; "on"; "at";
         "to"; "for"; "of"; "with"; "by"; "from"; "is"; "was";
         "are"; "were"; "be"; "been"; "being"; "have"; "has"; "had"]%string.

(** [re.findall(r'\b\w+\b', sentence.lower())] *)
Definition words_of (sentence : str) : list str :=
re_findall pat_word (lower sentence).

(** The filter of line 59. *)
Definition keep_word (w : str) : bool :=
negb (bool_decide (w ∈ stop_words)) && (2 <? Z.of_nat (length w)).

(** [Counter(words)] *)
Definition Counter (words : list str) : gmap str Z :=
foldl (fun m w => <[w := default 0 (m !! w) + 1]> m) ∅ words.

(** [max] of a collection of ints; the empty collection is a [ValueError]. *)
Definition max_of (l : list Z) : result Z :=
match l with
| [] => Raise ValueError
| x :: l' => Ok (foldl Z.max x l')
end.

(** The loop of lines 66-67. *)
Definition normalize (max_freq : Z) (word_freq : gmap str Z) : result (gmap str float) :=
map_fold (fun w c acc => m ← acc; q ← truediv c max_freq; Ok (<[w := q]> m))
         (Ok ∅) word_freq.

(** Lines 50-67: the word-frequency table. *)
Definition word_frequencies (sentences : list str) : result (gmap str float) :=
let words := concat (map words_of sentences) in
let words := List.filter keep_word words in
let word_freq := Counter words in
max_freq ← (if bool_decide (word_freq = ∅) then Ok 1
            else max_of (map snd (map_to_list word_freq)));
normalize max_freq word_freq.

(** Lines 72-86: the score of the sentence at index [i] among [n].  The
  running score starts as the int 0, which adds, multiplies and
  compares as the float 0.0 does. *)
Definition sentence_score (word_freq : gmap str float) (n i : nat) (sentence : str) : float :=
let score :=
  foldl (fun score word =>
           match word_freq !! word with
           | Some f => (score + f)%float
           | None => score
           end) 0%float (words_of sentence) in
let score :=
  if (Z.of_nat i <? 3) || (Z.of_nat n - 3 <=? Z.of_nat i)
  then (score * 0x1.3333333333333p+0)%float (* 1.2 *) else score in
if re_search pat_digit sentence
then (score * 0x1.199999999999ap+0)%float (* 1.1 *) else score.

(** The dict [{i: score}] with keys 0, 1, ... in this order, as the list
  of its values. *)
Definition calculate_sentence_scores (sentences : list str) : result (list float) :=
word_freq ← word_frequencies sentences;
Ok (imap (sentence_score word_freq (length sentences)) sentences).

(** [scores.get] on a key of [scores]. *)
Definition get (scores : list float) (i : nat) : float := nth i scores 0%float.

(** Line 106. *)
Definition num_sentences (n : nat) (target_ratio : float) : result Z :=
k ← int_of_float (float_of_Z (Z.of_nat n) * target_ratio)%float;
Ok (Z.max 1 k).

(** Line 107, before the cut: the indices by score, best first. *)
Definition ranked (scores : list float) : list nat :=
sorted_by_key_reverse (get scores) (seq 0 (length scores)).

(** Lines 103-110: the indices of the sentences that are kept, in
  document order. *)
Definition top_indices (sentences : list str) (target_ratio : float) : result (list nat) :=
scores ← calculate_sentence_scores sentences;
num ← num_sentences (length sentences) target_ratio;
let top_indices := slice_to (ranked scores) num in
Ok (sort_indices top_indices).

Definition extractive_summarize (text : str) (target_ratio : float) : result str :=
let sentences := sentence_tokenize text in
match sentences with
| [] => Ok text
| _ :: _ =>
    top_indices ← top_indices sentences target_ratio;
    parts ← mapR (index sentences) top_indices;
    Ok (join [space] parts)
end.

(** Lines 124-125. *)
Definition clean (text : str) : str :=
let text := re_sub pat_spaces (fun _ => [space]) text in
re_sub pat_char_run twice_first text.

(** [compress], once [extract_text] has delivered [text]. *)
Definition compress (self : t) (text : str) : result report :=
let original_tokens := estimate_tokens text in
let text := clean text in
k ← int_of_float (float_of_Z original_tokens * compression_ratio self)%float;
let target_tokens := Z.min (max_tokens self) k in
compressed ←
  (if original_tokens <=? max_tokens self then Ok text
   else ratio ← truediv target_tokens original_tokens;
        extractive_summarize text ratio);
let final_tokens := estimate_tokens compressed in
_ ← truediv final_tokens original_tokens;
Ok (Report original_tokens final_tokens compressed).

End AdvancedPDFCompressor.

(** ** [compress_pdf.py] *)

Module PDFCompressor.

Record t := {
max_tokens : Z;
max_chars : Z
}.

(** [__init__]; the default is [max_tokens = 100000]. *)
Definition init (max_tokens : Z) : t :=
{| max_tokens := max_tokens;
   max_chars := max_tokens * 4 |}.

(** [extract_text]: [pages] is what [page.extract_text()] returns for the
  pages of the reader, in their order. *)
Definition extract_text (pages : list str) : str :=
foldl (fun text page => text ++ (page ++ [newline])) [] pages.

Definition estimate_tokens (text : str) : Z := Z.of_nat (length text) / 4.

Definition clean_text (text : str) : str :=
let text := re_sub pat_spaces (fun _ => [space]) text in
let text := re_sub pat_char_run twice_first text in
let text := re_sub pat_page_number (fun _ => [newline]) text in
strip text.

(** One turn of the loop of lines 54-62 on the state [(seen, unique_lines)]. *)
Definition keep_line (st : gset str * list str) (line : str) : gset str * list str :=
let '(seen, unique_lines) := st in
let line := strip line in
if nonempty line then
  let line_key := take 100 (lower line) in
  if bool_decide (line_key ∈ seen) then st
  else ({[ line_key ]} ∪ seen, unique_lines ++ [line])
else st.

Definition remove_redundancy (text : str) : str :=
let lines := split [newline] text in
let '(_, unique_lines) := foldl keep_line (∅, []) lines in
join [newline] unique_lines.

(** The dict of line 68, in the order its items are iterated. *)
Definition replacements : list (str * str) :=
map (fun '(old, new) => (lit old, lit new))
  [(" and ", " & "); (" with ", " w/ "); (" without ", " w/o ");
   (" through ", " thru "); (" between ", " btwn ");
   (" approximately ", " ~"); (" percent ", "%"); (" number ", "#");
   (" versus ", " vs ")]%string.

Definition compress_abbreviations (text : str) : str :=
foldl (fun text '(old, new) => replace old new text) text replacements.

(** The test of lines 95-98. *)
Definition is_header (line : str) : bool :=
(Z.of_nat (length line) <? 100) &&
(isupper line || re_match pat_numbered line || re_match pat_capitalized line).

(** One turn of the loop of lines 93-104 on the state
  [(sections, current_section, current_title)]. *)
Definition chunk_line (st : list (str * str) * str * str) (line : str)
  : list (str * str) * str * str :=
let '(sections, current_section, current_title) := st in
if is_header line then
  let sections :=
    if nonempty current_section
    then sections ++ [(current_title, strip current_section)]
    else sections in
  (sections, [], strip line)
else (sections, current_section ++ (line ++ [newline]), current_title).

Definition chunk_by_sections (text : str) : list (str * str) :=
let lines := split [newline] text in
let '(sections, current_section, current_title) :=
  foldl chunk_line ([], [], lit "Introduction") lines in
if nonempty current_section
then sections ++ [(current_title, strip current_section)]
else sections.

(** [compress], once [extract_text] has delivered [text]. *)
Definition compress (self : t) (text : str) : result report :=
let original_tokens := estimate_tokens text in
let text := clean_text text in
let text := remove_redundancy text in
let text := compress_abbreviations text in
let tokens := estimate_tokens text in
let '(text, tokens) :=
  if max_tokens self <? tokens
  then let text := slice_to text (max_chars self) in (text, estimate_tokens text)
  else (text, tokens) in
_ ← truediv tokens original_tokens;
Ok (Report original_tokens tokens text).

End PDFCompressor.

(** * The specification's wording, as definitions *)

(** ** Segmentation (spec 4.1)

    A split point is a position that immediately follows one of [.], [!],
    [?] and is followed by white space.  [cut_after_terminal prev text]
    cuts [text] at its split points; [prev] is the character that stands
    before [text], if there is one. *)

Definition cons_head (c : char) (fs : list str) : list str :=
  match fs with
  | f :: fs' => (c :: f) :: fs'
  | [] => [[c]]
  end.

Definition split_point (prev : option char) (c : char) : bool :=
  match prev with
  | Some p => is_terminal p && isspace c
  | None => false
  end.

Fixpoint cut_after_terminal (prev : option char) (text : str) : list str :=
  match text with
  | [] => [[]]
  | c :: rest =>
      let fs := cons_head c (cut_after_terminal (Some c) rest) in
      if split_point prev c then [] :: fs else fs
  end.

(** A fragment of the cut, against the field of [re.split] that it
    becomes: the fragment is the field with white space in front. *)
Definition padded (f g : str) : Prop :=
  exists w, forallb isspace w = true /\ g = w ++ f.

(** The fields of [re.split] against the cut: the same first field, and
    every later field is the cut fragment without the white space in
    front of it. *)
Definition fields_match (fs gs : list str) : Prop :=
  match fs, gs with
  | f :: fs', g :: gs' => f = g /\ Forall2 padded fs' gs'
  | _, _ => False
  end.

(** Each fragment trimmed, the empty ones dropped. *)
Definition segment_spec (text : str) : list str :=
  List.filter nonempty (map strip (cut_after_terminal None text)).

(** ** Tokens (spec 4.2, step 1)

    The word tokens of a text: its maximal runs of word characters
    (alphanumeric or underscore), left to right.  [cur] is the run being
    read, last character first. *)

Definition flush (cur : str) : list str :=
  match cur with
  | [] => []
  | _ :: _ => [rev cur]
  end.

Fixpoint runs_from (cur : str) (s : str) : list str :=
  match s with
  | [] => flush cur
  | c :: s' =>
      if isword c then runs_from (c :: cur) s'
      else flush cur ++ runs_from [] s'
  end.

Definition word_runs (s : str) : list str := runs_from [] s.

(** A scan that stands between [before] and [rest] is not in the middle
    of a word. *)
Definition at_boundary (before rest : str) : Prop :=
  match before, rest with
  | b :: _, c :: _ => isword b = true -> isword c = false
  | _, _ => True
  end.

(** ** The frequency table (spec 4.2) *)

(** The tokens that survive the filter: every word token of every
    sentence, lowercased, that is not a stop word and is longer than two
    characters. *)
Definition surviving (sentences : list str) : list str :=
  List.filter AdvancedPDFCompressor.keep_word
    (concat (map AdvancedPDFCompressor.words_of sentences)).

(** Number of occurrences of a word in a list of words. *)
Definition occurrences (w : str) (words : list str) : Z :=
  Z.of_nat (length (List.filter (fun x => bool_decide (x = w)) words)).

(** The maximum count: 1 when no token survives, else the largest number
    of occurrences of a surviving token. *)
Definition is_max_count (words : list str) (mx : Z) : Prop :=
  (words = [] /\ mx = 1) \/
  ((exists w, w ∈ words /\ occurrences w words = mx) /\
   forall w, occurrences w words <= mx).

(** The count of a token divided by the maximum count. *)
Definition frequency (max_freq : Z) (count : Z) : float :=
  (float_of_Z count / float_of_Z max_freq)%float.

(** The word tokens of the document (spec 4.2, step 1): the maximal runs
    of word characters of every sentence, lowercased, in the order of the
    text. *)
Definition document_tokens (sentences : list str) : list str :=
  concat (map (fun s => word_runs (lower s)) sentences).

(** A token is lowercase: none of its characters is an uppercase one. *)
Definition is_lowercase (w : str) : bool :=
  forallb (fun c => negb (isupper_char c)) w.

(** ** Ranking (spec 4.4)

    [a] stands before [b] in [l]; and, for an order [lt], [b] is not
    strictly before [a]. *)
Definition before {A} (a b : A) (l : list A) : Prop := [a; b] `sublist_of` l.

Definition not_after {A} (lt : A -> A -> bool) (a b : A) : Prop := lt b a = false.

(** ** The score of a sentence (spec 4.3)

    The sum, over the word tokens of the lowercased sentence, of the
    table's value for the token, 0 for a token that is absent; times 1.2
    for one of the first three or last three sentences; times 1.1 when the
    sentence contains a decimal digit. *)

Definition base_score (table : gmap str float) (sentence : str) : float :=
  foldl (fun acc w => (acc + default 0 (table !! w))%float) 0%float
        (word_runs (lower sentence)).

Definition has_digit (sentence : str) : bool := existsb isdecimal sentence.

Definition score_spec (table : gmap str float) (n i : nat) (sentence : str) : float :=
  let base := base_score table sentence in
  let boosted :=
    if (Z.of_nat i <? 3) || (Z.of_nat n - 3 <=? Z.of_nat i)
    then (base * 0x1.3333333333333p+0)%float (* 1.2 *) else base in
  if has_digit sentence
  then (boosted * 0x1.199999999999ap+0)%float (* 1.1 *) else boosted.

(** ** Rounding to nearest, ties to even

    [rne num den] is the integer nearest to the fraction [num / den]
    ([den > 0]), the even one when two are equally near. *)
Definition rne (num den : Z) : Z :=
  let q := num / den in
  match 2 * (num mod den) ?= den with
  | Lt => q
  | Gt => q + 1
  | Eq => if Z.even q then q else q + 1
  end.

(** The position of the fraction [num / den] between the integers below
    and above it, as [SpecFloat] records it. *)
Definition loc_of_frac (num den : Z) : location :=
  if num mod den =? 0 then loc_Exact
  else loc_Inexact (2 * (num mod den) ?= den).

(** The value of a finite float that is not negative, in units of
    2^-1074, the smallest positive binary64 number; infinity is placed
    above every finite value. *)
Definition sval (f : spec_float) : Z :=
  match f with
  | S754_zero _ => 0
  | S754_finite _ m e => Z.pos m * 2 ^ (e + 1074)
  | S754_infinity _ => 2 ^ 2100
  | S754_nan => 0
  end.

(** A float that is neither NaN nor negative (the zero of either sign
    counts as not negative only with the sign bit clear). *)
Definition sf_good (f : spec_float) : Prop :=
  match f with
  | S754_zero s | S754_infinity s | S754_finite s _ _ => s = false
  | S754_nan => False
  end.

Definition good (x : float) : Prop := sf_good (Prim2SF x).

(** What [binary_round_aux] computes from a mantissa [mx], an exponent
    [ex] and the fraction [num / den] of which [mx] is the integer part:
    the fraction is rounded at the exponent the format prescribes, and a
    mantissa that reaches 2^53 is renormalised. *)
Definition round_spec (s : bool) (num den mx ex : Z) : spec_float :=
  let c := fexp prec emax (Zdigits2 mx + ex) in
  let k := Z.max 0 (c - ex) in
  let m2 := rne num (den * 2 ^ k) in
  let e2 := ex + k in
  let '(m3, e3) := if m2 =? 2 ^ 53 then (2 ^ 52, e2 + 1) else (m2, e2) in
  match m3 with
  | Z0 => S754_zero s
  | Zpos p => if e3 <=? 971 then S754_finite s p e3 else S754_infinity s
  | Zneg _ => S754_nan
  end.

(** The binary64 number nearest to the real [N * 2^-2148], in units of
    2^-1074. *)
Definition round_val (N : Z) : Z :=
  let k := Z.max (Z.log2 N + 1 - 53) 1074 in
  rne N (2 ^ k) * 2 ^ (k - 1074).

(** ** The number of sentences to keep (spec 4.4, step 1)

    A ratio [r] that is finite and not negative is the rational number
    [sval (Prim2SF r) / 2^1074].  [exact_floor n r] is the floor of the
    real product [n * r], the number the specification names;
    [rounded_floor n r] is the floor of the binary64 number nearest to
    that product. *)
Definition exact_floor (n : Z) (r : float) : Z :=
  n * sval (Prim2SF r) / 2 ^ 1074.

Definition rounded_floor (n : Z) (r : float) : Z :=
  round_val (n * 2 ^ 1074 * sval (Prim2SF r)) / 2 ^ 1074.

(** A shift record stands for the fraction [num / den]: its mantissa is
    the integer part, its two bits tell where the fraction lies. *)
Definition represents (mrs : shr_record) (num den : Z) : Prop :=
  shr_m mrs = num / den /\ loc_of_shr_record mrs = loc_of_frac num den.

(** ** Shapes of a text

    White space stands only as single spaces: every white-space character
    is the space, and the character after it, if there is one, is not
    white space. *)
Fixpoint single_spaced (s : str) : bool :=
  match s with
  | [] => true
  | c :: s' =>
      (if isspace c
       then char_eqb c space
            && match s' with d :: _ => negb (isspace d) | [] => true end
       else true)
      && single_spaced s'
  end.

(** Some character other than the newline stands five times or more in
    a row. *)
Fixpoint long_run (s : str) : bool :=
  match s with
  | [] => false
  | c :: s' =>
      (negb (char_eqb c newline) && (4 <=? run (char_eqb c) s')%nat)
      || long_run s'
  end.

(** Somewhere in the text one of [.], [!], [?] is followed by white
    space. *)
Fixpoint has_gap (s : str) : bool :=
  match s with
  | a :: s' =>
      match s' with
      | b :: _ => (is_terminal a && isspace b) || has_gap s'
      | [] => false
      end
  | [] => false
  end.

(** The key under which [remove_redundancy] remembers a line. *)
Definition line_key (line : str) : str := take 100 (lower line).

(** The last character of a text is one of [.], [!], [?]. *)
Definition ends_sentence (s : str) : bool :=
  match last s with
  | Some c => is_terminal c
  | None => false
  end.

(** * Verification *)

(** ** Token estimates, slices *)

Lemma estimate_le_of_length (s : str) (k : Z) :
  0 <= k -> Z.of_nat (length s) <= 4 * k -> Z.of_nat (length s) / 4 <= k.
Proof.
  intros Hk Hlen.
  apply Z.div_le_upper_bound; lia.
Qed.

Lemma slice_to_nonneg {A} (l : list A) (k : Z) :
  0 <= k -> slice_to l k = take (Z.to_nat k) l.
Proof.
  intros Hk. unfold slice_to.
  destruct (0 <=? k) eqn:E; [reflexivity | lia].
Qed.

Lemma truediv_nonzero (a b : Z) :
  b <> 0 -> truediv a b = Ok (float_of_Z a / float_of_Z b)%float.
Proof.
  intros Hb. unfold truediv.
  destruct (b =? 0) eqn:E; [lia | reflexivity].
Qed.

Lemma truediv_zero (a : Z) : truediv a 0 = Raise ZeroDivisionError.
Proof. reflexivity. Qed.

(** ** The truncating path *)

Lemma simple_compress_unfold (mt : Z) (text : str) :
  let abbreviated := PDFCompressor.compress_abbreviations
                       (PDFCompressor.remove_redundancy (PDFCompressor.clean_text text)) in
  let out := if mt <? PDFCompressor.estimate_tokens abbreviated
             then slice_to abbreviated (mt * 4) else abbreviated in
  PDFCompressor.compress (PDFCompressor.init mt) text =
    (_ ← truediv (PDFCompressor.estimate_tokens out) (PDFCompressor.estimate_tokens text);
     Ok (Report (PDFCompressor.estimate_tokens text) (PDFCompressor.estimate_tokens out) out)).
Proof.
  intros abbreviated out. unfold PDFCompressor.compress.
  cbn [PDFCompressor.max_tokens PDFCompressor.max_chars PDFCompressor.init].
  fold abbreviated. subst out.
  destruct (mt <? PDFCompressor.estimate_tokens abbreviated); reflexivity.
Qed.

(** C10. On the truncating path, with a budget [max_tokens >= 0]: a text
    whose estimate after the abbreviations exceeds [max_tokens] is cut to
    its first [max_tokens * 4] characters, every text that [compress]
    returns has an estimate of at most [max_tokens], and [compress] does
    return when the original estimate is not zero.  The summarizing path
    gives no such ceiling: with [max_tokens = 1] it returns a text of three
    tokens. *)
Theorem simple_compress_ceiling (mt : Z) (text : str) :
  0 <= mt ->
  let abbreviated := PDFCompressor.compress_abbreviations
                       (PDFCompressor.remove_redundancy (PDFCompressor.clean_text text)) in
  (forall r, PDFCompressor.compress (PDFCompressor.init mt) text = Ok r ->
     PDFCompressor.estimate_tokens (compressed r) <= mt /\
     final_tokens r = PDFCompressor.estimate_tokens (compressed r) /\
     (mt < PDFCompressor.estimate_tokens abbreviated ->
        compressed r = take (Z.to_nat (mt * 4)) abbreviated /\
        Z.of_nat (length (compressed r)) = mt * 4)) /\
  (0 < PDFCompressor.estimate_tokens text ->
     exists r, PDFCompressor.compress (PDFCompressor.init mt) text = Ok r) /\
  (exists text' r',
     AdvancedPDFCompressor.compress (AdvancedPDFCompressor.init 1 0.5) text' = Ok r' /\
     1 < AdvancedPDFCompressor.estimate_tokens (compressed r')).
Proof.
  intros Hmt abbreviated.
  pose proof (simple_compress_unfold mt text) as Hc. cbv zeta in Hc.
  fold abbreviated in Hc.
  set (out := if mt <? PDFCompressor.estimate_tokens abbreviated
              then slice_to abbreviated (mt * 4) else abbreviated) in Hc.
  assert (Hcut : mt < PDFCompressor.estimate_tokens abbreviated ->
                 out = take (Z.to_nat (mt * 4)) abbreviated /\
                 Z.of_nat (length out) = mt * 4).
  { intros Hlt. subst out.
    destruct (mt <? PDFCompressor.estimate_tokens abbreviated) eqn:E; [|lia].
    rewrite slice_to_nonneg by lia. split; [reflexivity|].
    unfold PDFCompressor.estimate_tokens in Hlt.
    assert (4 * (mt + 1) <= Z.of_nat (length abbreviated)).
    { pose proof (Z.mul_div_le (Z.of_nat (length abbreviated)) 4). lia. }
    rewrite length_take. lia. }
  assert (Hle : PDFCompressor.estimate_tokens out <= mt).
  { destruct (Z.ltb_spec mt (PDFCompressor.estimate_tokens abbreviated)) as [Hlt|Hge].
    - destruct (Hcut Hlt) as [_ Hlen]. unfold PDFCompressor.estimate_tokens.
      apply estimate_le_of_length; lia.
    - subst out.
      destruct (mt <? PDFCompressor.estimate_tokens abbreviated) eqn:E; lia. }
  split; [|split].
  - intros r Hr. rewrite Hc in Hr.
    destruct (truediv _ _) as [q|e]; [|discriminate].
    cbn in Hr. injection Hr as <-. cbn [compressed final_tokens].
    auto.
  - intros Hpos. rewrite Hc, truediv_nonzero by lia. cbn. eauto.
  - exists (lit "abcdefghijkl"), (Report 3 3 (lit "abcdefghijkl")).
    split; [vm_compute; reflexivity | vm_compute; reflexivity].
Qed.

Lemma simple_compress_ceiling_witness :
  0 <= 2 /\
  exists r, PDFCompressor.compress (PDFCompressor.init 2)
              (lit "  Cats and dogs with  fleas =======   and 5 percent number x  ") = Ok r /\
            PDFCompressor.estimate_tokens (compressed r) <= 2.
Proof.
  assert (H : 0 <= 2) by lia.
  split; [exact H|].
  destruct (simple_compress_ceiling 2
              (lit "  Cats and dogs with  fleas =======   and 5 percent number x  ") H)
    as (Hall & Hret & _).
  destruct Hret as [r Hr]; [vm_compute; reflexivity|].
  exists r. split; [exact Hr|]. exact (proj1 (Hall r Hr)).
Defined.

(** ** The empty document *)

Lemma int_of_zero_half : int_of_float (float_of_Z 0 * 0.5)%float = Ok 0.
Proof. vm_compute. reflexivity. Qed.

(** C1 (the code fails it). On the empty text [compress] does compute
    [original_tokens = 0], but for every [max_tokens] (and the default
    ratio 0.5) the run ends in [ZeroDivisionError]: the percentage of line
    140 divides by [original_tokens]. *)
Theorem advanced_compress_empty_raises (mt : Z) :
  AdvancedPDFCompressor.estimate_tokens [] = 0 /\
  AdvancedPDFCompressor.compress (AdvancedPDFCompressor.init mt 0.5) []
    = Raise ZeroDivisionError.
Proof.
  split; [reflexivity|].
  unfold AdvancedPDFCompressor.compress.
  change (AdvancedPDFCompressor.estimate_tokens []) with 0.
  change (AdvancedPDFCompressor.clean []) with (@nil ascii).
  cbn [AdvancedPDFCompressor.compression_ratio AdvancedPDFCompressor.max_tokens
       AdvancedPDFCompressor.init].
  rewrite int_of_zero_half. cbn [mbind result_bind].
  destruct (0 <=? mt); reflexivity.
Qed.

(** ** The scan of the [re] module *)

Lemma scan_skip (p : pattern) (w : str) : forall before rest,
  scan p before (w ++ rest) (length w) = scan p (rev w ++ before) rest O.
Proof.
  induction w as [|c w IH]; intros before rest; [reflexivity|].
  cbn [app length scan]. rewrite IH. cbn [rev]. rewrite <- app_assoc. reflexivity.
Qed.

Lemma run_split (f : char -> bool) (s : str) :
  s = take (run f s) s ++ drop (run f s) s.
Proof. symmetry. apply take_drop. Qed.

Lemma run_take_all (f : char -> bool) (s : str) :
  forallb f (take (run f s) s) = true.
Proof.
  induction s as [|c s IH]; [reflexivity|].
  cbn [run]. destruct (f c) eqn:E; [|reflexivity].
  cbn [take forallb]. rewrite E, IH. reflexivity.
Qed.

Lemma run_length_take (f : char -> bool) (s : str) :
  length (take (run f s) s) = run f s.
Proof.
  induction s as [|c s IH]; [reflexivity|].
  cbn [run]. destruct (f c); [|reflexivity].
  cbn [take length]. rewrite IH. reflexivity.
Qed.

Lemma fields_lits (s : str) : fields (map Lit s) = [s].
Proof.
  induction s as [|c s IH]; [reflexivity|].
  cbn [map fields]. rewrite IH. reflexivity.
Qed.

Lemma fields_cons_lit (c : char) (ps : list piece) :
  fields (Lit c :: ps) = cons_head c (fields ps).
Proof. reflexivity. Qed.

(** ** Trimming *)

Lemma drop_while_suffix {A} (f : A -> bool) (l : list A) :
  exists pre, l = pre ++ drop_while f l /\ forallb f pre = true.
Proof.
  induction l as [|a l [pre [IH1 IH2]]]; [exists []; auto|].
  cbn [drop_while]. destruct (f a) eqn:E.
  - exists (a :: pre). cbn [app forallb]. rewrite E, IH2. split; [congruence | reflexivity].
  - exists []. auto.
Qed.

Lemma drop_while_head {A} (f : A -> bool) (l : list A) (a : A) :
  head (drop_while f l) = Some a -> f a = false.
Proof.
  induction l as [|b l IH]; [discriminate|].
  cbn [drop_while]. destruct (f b) eqn:E; [exact IH|].
  cbn. intros [= <-]. exact E.
Qed.

Lemma drop_while_all {A} (f : A -> bool) (w l : list A) :
  forallb f w = true -> drop_while f (w ++ l) = drop_while f l.
Proof.
  induction w as [|a w IH]; [reflexivity|].
  cbn [forallb app drop_while]. intros [Ha Hw]%andb_prop.
  rewrite Ha. auto.
Qed.

Lemma lstrip_spaces (w s : str) :
  forallb isspace w = true -> lstrip (w ++ s) = lstrip s.
Proof. apply drop_while_all. Qed.

Lemma strip_spaces (w s : str) :
  forallb isspace w = true -> strip (w ++ s) = strip s.
Proof. intros Hw. unfold strip. rewrite lstrip_spaces by exact Hw. reflexivity. Qed.

Lemma strip_no_leading (s : str) (c : char) :
  head (strip s) = Some c -> isspace c = false.
Proof.
  unfold strip, rstrip. set (g := lstrip s).
  destruct (drop_while_suffix isspace (rev g)) as [pre [Hpre _]].
  intros Hh.
  assert (Hg : g = rev (drop_while isspace (rev g)) ++ rev pre).
  { rewrite <- rev_app_distr, <- Hpre, rev_involutive. reflexivity. }
  assert (Hhead : head g = Some c).
  { rewrite Hg. destruct (rev (drop_while isspace (rev g))); [discriminate | exact Hh]. }
  subst g. unfold lstrip in Hhead. eapply drop_while_head; eauto.
Qed.

Lemma last_rev {A} (l : list A) : last (rev l) = head l.
Proof.
  destruct l as [|a l]; [reflexivity|].
  cbn [rev]. apply last_snoc.
Qed.

Lemma strip_no_trailing (s : str) (c : char) :
  last (strip s) = Some c -> isspace c = false.
Proof.
  unfold strip, rstrip. rewrite last_rev.
  apply drop_while_head.
Qed.

(** ** Segmentation *)

Lemma terminal_not_space (c : char) : is_terminal c = true -> isspace c = false.
Proof.
  destruct c as [[] [] [] [] [] [] [] []]; cbn; intros H;
    first [discriminate H | reflexivity].
Qed.

Lemma cut_nonempty (prev : option char) (text : str) :
  exists g gs, cut_after_terminal prev text = g :: gs.
Proof.
  destruct text as [|c rest]; [cbn; eauto|].
  cbn [cut_after_terminal].
  destruct (cut_after_terminal (Some c) rest) as [|g gs];
    destruct (split_point prev c); cbn [cons_head]; eauto.
Qed.

Lemma cut_concat (text : str) : forall prev,
  concat (cut_after_terminal prev text) = text.
Proof.
  induction text as [|c rest IH]; intros prev; [reflexivity|].
  cbn [cut_after_terminal]. specialize (IH (Some c)).
  destruct (cut_after_terminal (Some c) rest) as [|g gs];
    destruct (split_point prev c); cbn [cons_head concat app] in *; congruence.
Qed.

(** Inside white space there is no split point. *)
Lemma cut_spaces (w : str) : forall (c : char) (r : str),
  isspace c = true -> forallb isspace w = true ->
  exists g gs,
    cut_after_terminal (Some (default c (last w))) r = g :: gs /\
    cut_after_terminal (Some c) (w ++ r) = (w ++ g) :: gs.
Proof.
  induction w as [|a w IH]; intros c r Hc Hw.
  - destruct (cut_nonempty (Some c) r) as (g & gs & E). exists g, gs. auto.
  - cbn [forallb] in Hw. apply andb_prop in Hw as [Ha Hw].
    destruct (IH a r Ha Hw) as (g & gs & E1 & E2).
    exists g, gs. split.
    + rewrite last_cons. destruct (last w); exact E1.
    + cbn [app cut_after_terminal split_point]. rewrite E2.
      destruct (is_terminal c) eqn:Et.
      * apply terminal_not_space in Et. congruence.
      * reflexivity.
Qed.

Lemma head_rev_app (w : str) (c : char) (before : str) :
  head (rev w ++ c :: before) = Some (default c (last w)).
Proof.
  destruct (last w) as [x|] eqn:E.
  - apply last_Some in E as [w' ->].
    rewrite rev_app_distr. reflexivity.
  - apply last_None in E as ->. reflexivity.
Qed.

Lemma gap_no_match (before : str) (c : char) (rest : str) :
  split_point (head before) c = false ->
  match pat_sentence_gap before (c :: rest) with
  | Some (S _) => False
  | _ => True
  end.
Proof.
  unfold pat_sentence_gap, split_point. destruct before as [|b before]; [trivial|].
  cbn [head]. destruct (is_terminal b); [|trivial].
  cbn [andb run]. intros ->. exact I.
Qed.

Lemma gap_match (before : str) (c : char) (rest : str) :
  split_point (head before) c = true ->
  pat_sentence_gap before (c :: rest) = Some (S (run isspace rest)) /\ isspace c = true.
Proof.
  unfold pat_sentence_gap, split_point. destruct before as [|b before]; [discriminate|].
  cbn [head]. destruct (is_terminal b); [|discriminate].
  cbn [andb run]. intros ->. auto.
Qed.

Lemma split_cut (n : nat) : forall rest before,
  (length rest <= n)%nat ->
  fields_match (fields (scan pat_sentence_gap before rest O))
               (cut_after_terminal (head before) rest).
Proof.
  induction n as [|n IH]; intros rest before Hlen.
  - destruct rest; [|cbn in Hlen; lia]. cbn. auto.
  - destruct rest as [|c rest]; [cbn; auto|].
    cbn [length] in Hlen.
    cbn [scan cut_after_terminal].
    destruct (split_point (head before) c) eqn:Esp.
    + destruct (gap_match before c rest Esp) as [-> Hc].
      pose proof (run_split isspace rest) as Hrest.
      pose proof (run_take_all isspace rest) as Hw.
      pose proof (run_length_take isspace rest) as Hrun.
      assert (Hr : (length (drop (run isspace rest) rest) <= n)%nat).
      { rewrite length_drop. lia. }
      rewrite <- Hrun.
      set (w := take (run isspace rest) rest) in *.
      set (r := drop (run isspace rest) rest) in *.
      clearbody w r. subst rest.
      rewrite scan_skip.
      destruct (cut_spaces w c r Hc Hw) as (g & gs & E1 & E2).
      rewrite E2.
      specialize (IH r (rev w ++ c :: before) Hr).
      rewrite head_rev_app, E1 in IH.
      cbn [fields cons_head].
      destruct (fields (scan pat_sentence_gap (rev w ++ c :: before) r 0)) as [|f fs];
        [destruct IH|].
      destruct IH as [-> HF].
      split; [reflexivity|].
      constructor; [|exact HF].
      exists (c :: w). cbn [forallb]. rewrite Hc, Hw. auto.
    + pose proof (gap_no_match before c rest Esp) as Hno.
      specialize (IH rest (c :: before) ltac:(lia)). cbn [head] in IH.
      assert (E : scan pat_sentence_gap before (c :: rest) 0
                  = Lit c :: scan pat_sentence_gap (c :: before) rest 0).
      { cbn [scan]. destruct (pat_sentence_gap before (c :: rest)) as [[|k]|];
          [reflexivity | destruct Hno | reflexivity]. }
      cbn [scan] in E. rewrite E. rewrite fields_cons_lit.
      destruct (fields (scan pat_sentence_gap (c :: before) rest 0)) as [|f fs];
        [destruct IH|].
      destruct (cut_after_terminal (Some c) rest) as [|g gs]; [destruct IH|].
      destruct IH as [-> HF]. cbn [cons_head]. split; auto.
Qed.

Lemma padded_strip (f g : str) : padded f g -> strip f = strip g.
Proof. intros (w & Hw & ->). symmetry. apply strip_spaces, Hw. Qed.

Lemma split_cut_strip (text : str) :
  map strip (re_split pat_sentence_gap text) = map strip (cut_after_terminal None text).
Proof.
  pose proof (split_cut (length text) text [] (le_n _)) as H.
  unfold re_split, finditer. cbn [head] in H.
  destruct (fields (scan pat_sentence_gap [] text 0)) as [|f fs]; [destruct H|].
  destruct (cut_after_terminal None text) as [|g gs]; [destruct H|].
  destruct H as [-> HF]. cbn [map]. f_equal.
  induction HF as [|f' g' fs' gs' Hp _ IH]; [reflexivity|].
  cbn [map]. rewrite (padded_strip _ _ Hp), IH. reflexivity.
Qed.

Lemma map_filter_comm {A B} (f : A -> B) (p : B -> bool) (l : list A) :
  map f (List.filter (fun a => p (f a)) l) = List.filter p (map f l).
Proof.
  induction l as [|a l IH]; [reflexivity|].
  cbn [List.filter map]. destruct (p (f a)); cbn [map]; rewrite IH; reflexivity.
Qed.

Lemma sentence_tokenize_spec (text : str) :
  AdvancedPDFCompressor.sentence_tokenize text = segment_spec text.
Proof.
  unfold AdvancedPDFCompressor.sentence_tokenize, segment_spec.
  rewrite (map_filter_comm strip nonempty), split_cut_strip. reflexivity.
Qed.

Lemma cut_no_terminal (text : str) : forall prev,
  split_point prev space = false ->
  Forall (fun c => is_terminal c = false) text ->
  cut_after_terminal prev text = [text].
Proof.
  induction text as [|c rest IH]; intros prev Hprev Hall; [reflexivity|].
  inversion Hall as [|? ? Hc Hrest]; subst.
  cbn [cut_after_terminal].
  rewrite (IH (Some c)); [| cbn; rewrite Hc; reflexivity | exact Hrest].
  cbn [cons_head].
  destruct prev as [p|]; [|reflexivity].
  cbn in Hprev |- *. destruct (is_terminal p); [discriminate | reflexivity].
Qed.

Lemma segment_spec_trimmed (text : str) (s : str) :
  In s (segment_spec text) ->
  s <> [] /\
  (forall c, head s = Some c -> isspace c = false) /\
  (forall c, last s = Some c -> isspace c = false).
Proof.
  unfold segment_spec. intros Hin.
  apply filter_In in Hin as [Hin Hne].
  apply in_map_iff in Hin as (f & <- & _).
  split; [|split].
  - intros E. rewrite E in Hne. discriminate.
  - apply strip_no_leading.
  - apply strip_no_trailing.
Qed.

(** C8 (amended). [sentence_tokenize] cuts the text at every position
    that immediately follows [.], [!] or [?] and is followed by white
    space, trims each fragment and drops the empty ones, in the order of
    the text; every sentence is non-empty and has no white space at either
    end.  A text without terminal punctuation yields the single sentence
    [strip text] when it has a character that is not white space, and no
    sentence when it is empty or all white space. *)
Theorem sentence_tokenize_segments (text : str) :
  AdvancedPDFCompressor.sentence_tokenize text
    = List.filter nonempty (map strip (cut_after_terminal None text)) /\
  concat (cut_after_terminal None text) = text /\
  (forall s, In s (AdvancedPDFCompressor.sentence_tokenize text) ->
     s <> [] /\
     (forall c, head s = Some c -> isspace c = false) /\
     (forall c, last s = Some c -> isspace c = false)) /\
  (Forall (fun c => is_terminal c = false) text ->
     AdvancedPDFCompressor.sentence_tokenize text
       = if nonempty (strip text) then [strip text] else []) /\
  AdvancedPDFCompressor.sentence_tokenize [] = [].
Proof.
  split; [apply sentence_tokenize_spec|].
  split; [apply cut_concat|].
  split; [intros s; rewrite sentence_tokenize_spec; apply segment_spec_trimmed|].
  split; [|reflexivity].
  intros Hall. rewrite sentence_tokenize_spec. unfold segment_spec.
  rewrite (cut_no_terminal text None eq_refl Hall). cbn [map List.filter].
  reflexivity.
Qed.

(** C8 as stated fails on a text of white space only: it has no terminal
    punctuation, and yields no sentence at all. *)
Lemma sentence_tokenize_blank_counterexample :
  Forall (fun c => is_terminal c = false) (lit " ") /\
  AdvancedPDFCompressor.sentence_tokenize (lit " ") = [] /\
  AdvancedPDFCompressor.sentence_tokenize (lit " ") <> [strip (lit " ")].
Proof.
  split; [repeat constructor|].
  split; [reflexivity | discriminate].
Qed.

(** ** Stable sorting *)

Section StableSort.
Context {A : Type} (lt : A -> A -> bool).

Lemma insert_by_split (x : A) (l : list A) :
  exists l1 l2, l = l1 ++ l2 /\ insert_by lt x l = l1 ++ x :: l2.
Proof.
  induction l as [|y l (l1 & l2 & E1 & E2)]; [exists [], []; auto|].
  cbn [insert_by]. destruct (lt y x).
  - exists (y :: l1), l2. cbn [app]. rewrite E2. split; congruence.
  - exists [], (y :: l). auto.
Qed.

Lemma insert_by_perm (x : A) (l : list A) : insert_by lt x l ≡ₚ x :: l.
Proof.
  destruct (insert_by_split x l) as (l1 & l2 & -> & ->).
  symmetry. apply Permutation_middle.
Qed.

Lemma stable_sort_perm (l : list A) : stable_sort lt l ≡ₚ l.
Proof.
  induction l as [|x l IH]; [reflexivity|].
  cbn [stable_sort foldr]. rewrite insert_by_perm. now constructor.
Qed.

Lemma stable_sort_length (l : list A) : length (stable_sort lt l) = length l.
Proof. apply Permutation_length, stable_sort_perm. Qed.

Lemma insert_keeps_before (a b x : A) (l : list A) :
  before a b l -> before a b (insert_by lt x l).
Proof.
  unfold before. intros H.
  destruct (insert_by_split x l) as (l1 & l2 & -> & ->).
  etransitivity; [exact H|].
  apply sublist_app; [reflexivity | apply sublist_cons; reflexivity].
Qed.

Lemma singleton_sublist (b : A) (l : list A) : b ∈ l -> [b] `sublist_of` l.
Proof.
  intros (l1 & l2 & ->)%list_elem_of_split.
  apply sublist_inserts_l. apply sublist_skip, sublist_nil_l.
Qed.

Lemma insert_before_member (a b : A) (l : list A) :
  b ∈ l -> lt b a = false -> before a b (insert_by lt a l).
Proof.
  unfold before. intros Hin Hlt.
  induction l as [|y l IH]; [inversion Hin|].
  cbn [insert_by]. destruct (lt y a) eqn:E.
  - apply sublist_cons. apply IH.
    apply elem_of_cons in Hin as [->|Hin]; [congruence | exact Hin].
  - apply sublist_skip, singleton_sublist, Hin.
Qed.

(** Stability: an element stays in front of every later element that is
    not strictly before it in the order. *)
Lemma stable_sort_before (a b : A) (l : list A) :
  before a b l -> lt b a = false -> before a b (stable_sort lt l).
Proof.
  unfold before. intros H Hlt.
  induction l as [|x l IH]; [inversion H|].
  cbn [stable_sort foldr]. fold (stable_sort lt l).
  apply sublist_cons_r in H as [H | (l' & [= <- <-] & H)].
  - apply insert_keeps_before, IH, H.
  - apply insert_before_member; [|exact Hlt].
    rewrite stable_sort_perm. eapply elem_of_sublist; [|exact H].
    apply list_elem_of_singleton. reflexivity.
Qed.

(** Sortedness, for an order that is asymmetric and negatively
    transitive on the elements that satisfy [dom]. *)
Variable dom : A -> Prop.
Hypothesis lt_asym : forall a b, dom a -> dom b -> lt a b = true -> lt b a = false.
Hypothesis lt_negtrans : forall a b c, dom a -> dom b -> dom c ->
  lt a b = false -> lt b c = false -> lt a c = false.

Lemma insert_by_sorted (x : A) (l : list A) :
  dom x -> Forall dom l ->
  StronglySorted (not_after lt) l -> StronglySorted (not_after lt) (insert_by lt x l).
Proof.
  intros Hx Hdom Hs. induction Hs as [|y l Hs IH Hy]; cbn [insert_by].
  - repeat constructor.
  - inversion Hdom as [|? ? Hdy Hdl]; subst.
    destruct (lt y x) eqn:E.
    + constructor; [apply IH, Hdl|].
      rewrite insert_by_perm. constructor; [|exact Hy].
      unfold not_after. apply lt_asym; assumption.
    + constructor; [constructor; assumption|].
      constructor; [exact E|].
      rewrite Forall_forall in Hy, Hdl |- *. intros z Hz.
      unfold not_after in *.
      apply (lt_negtrans z y x); auto.
Qed.

Lemma stable_sort_sorted (l : list A) :
  Forall dom l -> StronglySorted (not_after lt) (stable_sort lt l).
Proof.
  induction 1 as [|x l Hx Hl IH]; [constructor|].
  cbn [stable_sort foldr]. fold (stable_sort lt l).
  apply insert_by_sorted; [exact Hx | | exact IH].
  rewrite stable_sort_perm. exact Hl.
Qed.
End StableSort.

Lemma insert_by_ext {A} (lt1 lt2 : A -> A -> bool) (x : A) (s : list A) :
  (forall y, y ∈ s -> lt1 y x = lt2 y x) ->
  insert_by lt1 x s = insert_by lt2 x s.
Proof.
  induction s as [|y s IH]; intros H; [reflexivity|].
  cbn [insert_by]. rewrite <- (H y) by left.
  rewrite IH by (intros z Hz; apply H; right; exact Hz). reflexivity.
Qed.

Lemma stable_sort_ext {A} (lt1 lt2 : A -> A -> bool) (l : list A) :
  (forall a b, a ∈ l -> b ∈ l -> lt1 a b = lt2 a b) ->
  stable_sort lt1 l = stable_sort lt2 l.
Proof.
  induction l as [|x l IH]; intros H; [reflexivity|].
  cbn [stable_sort foldr]. fold (stable_sort lt1 l) (stable_sort lt2 l).
  rewrite <- IH by (intros a b Ha Hb; apply H; right; assumption).
  apply insert_by_ext. intros y Hy.
  apply H; [right | left].
  rewrite stable_sort_perm in Hy. exact Hy.
Qed.

(** ** The word-frequency table never raises *)

Lemma mapR_ok {A B} (f : A -> result B) (g : A -> B) (l : list A) :
  Forall (fun a => f a = Ok (g a)) l -> mapR f l = Ok (map g l).
Proof.
  induction 1 as [|a l Ha _ IH]; [reflexivity|].
  cbn [mapR map]. rewrite Ha, IH. reflexivity.
Qed.

Lemma normalize_ok (max_freq : Z) (word_freq : gmap str Z) :
  max_freq <> 0 ->
  AdvancedPDFCompressor.normalize max_freq word_freq
    = Ok (frequency max_freq <$> word_freq).
Proof.
  intros Hmax. unfold AdvancedPDFCompressor.normalize.
  apply (map_fold_weak_ind (fun r m => r = Ok (frequency max_freq <$> m))).
  - rewrite fmap_empty. reflexivity.
  - intros w c m r _ ->. cbn [mbind result_bind].
    rewrite truediv_nonzero by exact Hmax. cbn.
    rewrite fmap_insert. reflexivity.
Qed.

Lemma foldl_max_ge (l : list Z) : forall x,
  x <= foldl Z.max x l /\ Forall (fun y => y <= foldl Z.max x l) l /\
  (foldl Z.max x l = x \/ foldl Z.max x l ∈ l).
Proof.
  induction l as [|y l IH]; intros x; cbn [foldl].
  - split; [lia|]. split; [constructor | left; reflexivity].
  - destruct (IH (Z.max x y)) as (H1 & H2 & H3).
    split; [lia|]. split.
    + constructor; [lia | exact H2].
    + destruct H3 as [H3|H3]; [|right; right; exact H3].
      rewrite H3. destruct (Z.max_spec x y) as [[_ ->]|[_ ->]];
        [right; left | left; reflexivity].
Qed.

Lemma max_of_spec (l : list Z) :
  l <> [] ->
  exists mx, AdvancedPDFCompressor.max_of l = Ok mx /\ mx ∈ l /\
             Forall (fun y => y <= mx) l.
Proof.
  destruct l as [|x l]; [congruence|]. intros _.
  cbn [AdvancedPDFCompressor.max_of].
  destruct (foldl_max_ge l x) as (H1 & H2 & H3).
  eexists. split; [reflexivity|]. split.
  - destruct H3 as [->|H3]; [left | right; exact H3].
  - constructor; assumption.
Qed.

Lemma occurrences_nonneg (w : str) (words : list str) : 0 <= occurrences w words.
Proof. unfold occurrences. lia. Qed.

Lemma occurrences_pos (w : str) (words : list str) :
  0 < occurrences w words <-> w ∈ words.
Proof.
  unfold occurrences. induction words as [|x words IH]; cbn [List.filter].
  - cbn [length]. split; [intros H; exfalso; lia | inversion 1].
  - rewrite elem_of_cons. destruct (bool_decide_reflect (x = w)) as [->|Hne].
    + cbn [length]. split; [auto | intros _; lia].
    + rewrite IH. split; [auto | intros [E|H]; [congruence | exact H]].
Qed.

Lemma Counter_aux (words : list str) (w : str) : forall m : gmap str Z,
  let m' := foldl (fun m w => <[w := default 0 (m !! w) + 1]> m) m words in
  default 0 (m' !! w) = default 0 (m !! w) + occurrences w words /\
  (m' !! w = None <-> m !! w = None /\ w ∉ words).
Proof.
  unfold occurrences.
  induction words as [|x words IH]; intros m; cbn [foldl List.filter].
  - cbn. split; [lia|]. split; [intros H; split; [exact H | inversion 1] | tauto].
  - specialize (IH (<[x := default 0 (m !! x) + 1]> m)). cbv zeta in IH.
    destruct IH as [IH1 IH2]. rewrite IH1, IH2, not_elem_of_cons.
    destruct (bool_decide_reflect (x = w)) as [->|Hne].
    + rewrite lookup_insert_eq. cbn -[Z.add Z.of_nat]. split; [lia|].
      split; [intros [H _]; discriminate | intros [_ [H _]]; congruence].
    + rewrite lookup_insert_ne by exact Hne. split; [lia|].
      split; [intros [H1 H2]; auto | intros (H1 & _ & H2); auto].
Qed.

(** [Counter(words)] maps exactly the words of the list, each to its
    number of occurrences. *)
Lemma Counter_lookup (words : list str) (w : str) :
  AdvancedPDFCompressor.Counter words !! w =
    if bool_decide (w ∈ words) then Some (occurrences w words) else None.
Proof.
  destruct (Counter_aux words w ∅) as [H1 H2]. cbv zeta in H1, H2.
  fold (AdvancedPDFCompressor.Counter words) in H1, H2.
  rewrite lookup_empty in H1, H2. cbn -[Z.add Z.of_nat occurrences] in H1.
  destruct (bool_decide_reflect (w ∈ words)) as [Hin|Hnin].
  - destruct (AdvancedPDFCompressor.Counter words !! w) as [c|] eqn:E.
    + cbn in H1. f_equal. lia.
    + destruct (proj1 H2 eq_refl) as [_ Hn]. contradiction.
  - apply H2. auto.
Qed.

Lemma Counter_empty (words : list str) :
  AdvancedPDFCompressor.Counter words = ∅ <-> words = [].
Proof.
  split; [|intros ->; reflexivity].
  intros E. destruct words as [|w words]; [reflexivity|].
  pose proof (Counter_lookup (w :: words) w) as H.
  rewrite E, lookup_empty in H.
  rewrite bool_decide_eq_true_2 in H by left. discriminate.
Qed.

Lemma is_max_count_pos (words : list str) (mx : Z) : is_max_count words mx -> 1 <= mx.
Proof.
  intros [[_ ->]|[(w & Hw & <-) _]]; [lia|].
  apply occurrences_pos in Hw. lia.
Qed.

Lemma word_frequencies_ok (sentences : list str) :
  exists mx,
    is_max_count (surviving sentences) mx /\
    AdvancedPDFCompressor.word_frequencies sentences
      = Ok (frequency mx <$> AdvancedPDFCompressor.Counter (surviving sentences)).
Proof.
  unfold AdvancedPDFCompressor.word_frequencies. fold (surviving sentences).
  set (words := surviving sentences).
  destruct (bool_decide_reflect (AdvancedPDFCompressor.Counter words = ∅)) as [E|E].
  - exists 1. split.
    + left. split; [apply Counter_empty, E | reflexivity].
    + cbn [mbind result_bind]. apply normalize_ok. lia.
  - set (vals := map snd (map_to_list (AdvancedPDFCompressor.Counter words))).
    assert (Hne : vals <> []).
    { subst vals. intros Hv. apply map_eq_nil in Hv.
      apply map_to_list_empty_iff in Hv. contradiction. }
    destruct (max_of_spec vals Hne) as (mx & -> & Hin & Hall).
    assert (Hval : forall c, c ∈ vals <-> exists w, w ∈ words /\ occurrences w words = c).
    { intros c. subst vals. rewrite list_elem_of_fmap. split.
      - intros ([w c'] & -> & Hwc). apply elem_of_map_to_list in Hwc.
        rewrite Counter_lookup in Hwc.
        destruct (bool_decide_reflect (w ∈ words)); [|discriminate].
        injection Hwc as <-. eauto.
      - intros (w & Hw & <-). exists (w, occurrences w words). split; [reflexivity|].
        apply elem_of_map_to_list. rewrite Counter_lookup.
        rewrite bool_decide_eq_true_2 by exact Hw. reflexivity. }
    assert (Hmax : is_max_count words mx).
    { right. split; [apply Hval, Hin|].
      intros w. destruct (decide (w ∈ words)) as [Hw|Hw].
      - rewrite Forall_forall in Hall. apply Hall, Hval. eauto.
      - assert (occurrences w words <= 0).
        { pose proof (occurrences_pos w words). pose proof (occurrences_nonneg w words).
          destruct (Z.eq_dec (occurrences w words) 0); [lia|].
          exfalso. apply Hw. tauto || (apply H; lia). }
        destruct (proj1 (Hval mx) Hin) as (w' & Hw' & <-).
        apply occurrences_pos in Hw'. lia. }
    exists mx. split; [exact Hmax|].
    cbn [mbind result_bind]. apply normalize_ok.
    apply is_max_count_pos in Hmax. lia.
Qed.

Lemma calculate_sentence_scores_ok (sentences : list str) :
  exists scores,
    AdvancedPDFCompressor.calculate_sentence_scores sentences = Ok scores /\
    length scores = length sentences.
Proof.
  unfold AdvancedPDFCompressor.calculate_sentence_scores.
  destruct (word_frequencies_ok sentences) as (mx & _ & ->).
  cbn [mbind result_bind]. eexists. split; [reflexivity|].
  apply length_imap.
Qed.

(** ** Selection *)

Lemma ranked_perm (scores : list float) :
  AdvancedPDFCompressor.ranked scores ≡ₚ seq 0 (length scores).
Proof. apply stable_sort_perm. Qed.

Lemma ranked_NoDup (scores : list float) : NoDup (AdvancedPDFCompressor.ranked scores).
Proof. rewrite ranked_perm. apply NoDup_seq. Qed.

Lemma sort_indices_perm (l : list nat) : sort_indices l ≡ₚ l.
Proof. apply stable_sort_perm. Qed.

Lemma StronglySorted_weaken {A} (R S : A -> A -> Prop) (l : list A) :
  (forall a b, R a b -> S a b) -> StronglySorted R l -> StronglySorted S l.
Proof.
  intros HRS. induction 1 as [|x l _ IH Hx]; constructor; [exact IH|].
  eapply Forall_impl; [exact Hx | auto].
Qed.

Lemma sort_indices_sorted (l : list nat) : StronglySorted le (sort_indices l).
Proof.
  pose proof (stable_sort_sorted Nat.ltb (fun _ => True)) as H.
  eapply StronglySorted_weaken; [|apply H].
  - unfold not_after. intros a b Hab. apply Nat.ltb_ge in Hab. exact Hab.
  - intros a b _ _ Hab. apply Nat.ltb_lt in Hab. apply Nat.ltb_ge. lia.
  - intros a b c _ _ _ Hab Hbc. apply Nat.ltb_ge in Hab, Hbc. apply Nat.ltb_ge. lia.
  - apply Forall_forall. trivial.
Qed.

Lemma sorted_NoDup_strict (l : list nat) :
  StronglySorted le l -> NoDup l -> StronglySorted lt l.
Proof.
  induction 1 as [|x l Hs IH Hx]; intros Hnd; [constructor|].
  apply NoDup_cons in Hnd as [Hx' Hnd].
  constructor; [apply IH, Hnd|].
  rewrite Forall_forall in Hx |- *. intros y Hy.
  specialize (Hx y Hy).
  assert (x <> y) by (intros ->; contradiction). lia.
Qed.

(** The sentences at strictly increasing positions form a subsequence. *)
Lemma increasing_positions_sublist {A} (d : A) (l : list A) (idx : list nat) :
  StronglySorted lt idx -> forall k,
  Forall (fun i => k <= i < length l)%nat idx ->
  map (fun i => nth i l d) idx `sublist_of` drop k l.
Proof.
  induction 1 as [|i idx Hs IH Hi]; intros k Hk; [apply sublist_nil_l|].
  inversion Hk as [|? ? [Hki Hil] Hk']; subst.
  cbn [map].
  assert (Hdrop : drop k l = take (i - k) (drop k l) ++ nth i l d :: drop (S i) l).
  { rewrite <- (take_drop (i - k) (drop k l)) at 1. f_equal.
    rewrite drop_drop. replace (k + (i - k))%nat with i by lia.
    destruct (lookup_lt_is_Some_2 l i Hil) as [a Ha].
    rewrite (nth_lookup_Some _ _ d _ Ha).
    apply drop_S. exact Ha. }
  rewrite Hdrop. apply sublist_inserts_l, sublist_skip.
  apply IH. rewrite Forall_forall in Hi, Hk' |- *.
  intros j Hj.
  specialize (Hi j Hj). specialize (Hk' j Hj). lia.
Qed.

Lemma index_ok {A} (d : A) (l : list A) (i : nat) :
  (i < length l)%nat -> index l i = Ok (nth i l d).
Proof.
  intros Hi. unfold index.
  destruct (lookup_lt_is_Some_2 l i Hi) as [a Ha].
  rewrite Ha, (nth_lookup_Some _ _ d _ Ha). reflexivity.
Qed.

(** What [top_indices] returns when [int] accepts the product of line 106,
    and why it raises when it does. *)
Lemma top_indices_unfold (sentences : list str) (ratio : float) :
  exists scores,
    AdvancedPDFCompressor.calculate_sentence_scores sentences = Ok scores /\
    length scores = length sentences /\
    AdvancedPDFCompressor.top_indices sentences ratio =
      match int_of_float (float_of_Z (Z.of_nat (length sentences)) * ratio)%float with
      | Ok k => Ok (sort_indices (take (Z.to_nat (Z.max 1 k))
                                       (AdvancedPDFCompressor.ranked scores)))
      | Raise e => Raise e
      end.
Proof.
  destruct (calculate_sentence_scores_ok sentences) as (scores & Hs & Hlen).
  exists scores. split; [exact Hs|]. split; [exact Hlen|].
  unfold AdvancedPDFCompressor.top_indices, AdvancedPDFCompressor.num_sentences.
  rewrite Hs. cbn [mbind result_bind].
  destruct (int_of_float _) as [k|e]; [|reflexivity].
  cbn [mbind result_bind]. rewrite slice_to_nonneg by lia. reflexivity.
Qed.

Lemma selection_props (scores : list float) (num : nat) :
  let sel := sort_indices (take num (AdvancedPDFCompressor.ranked scores)) in
  StronglySorted lt sel /\
  Forall (fun i => i < length scores)%nat sel /\
  length sel = Nat.min num (length scores) /\
  sel ≡ₚ take num (AdvancedPDFCompressor.ranked scores).
Proof.
  intros sel.
  assert (Hperm : sel ≡ₚ take num (AdvancedPDFCompressor.ranked scores))
    by apply sort_indices_perm.
  assert (Hsub : take num (AdvancedPDFCompressor.ranked scores)
                   `sublist_of` AdvancedPDFCompressor.ranked scores)
    by apply sublist_take.
  split; [|split; [|split]].
  - apply sorted_NoDup_strict; [apply sort_indices_sorted|].
    rewrite Hperm. apply (sublist_NoDup _ _ (ranked_NoDup scores) Hsub).
  - apply Forall_forall. intros i Hi.
    rewrite Hperm in Hi. eapply elem_of_sublist in Hi; [|exact Hsub].
    rewrite ranked_perm in Hi. apply elem_of_seq in Hi. lia.
  - rewrite Hperm, length_take.
    unfold AdvancedPDFCompressor.ranked, sorted_by_key_reverse.
    rewrite stable_sort_length, length_seq. reflexivity.
  - exact Hperm.
Qed.

(** C7. [extractive_summarize] either raises, which happens only when
    [int] refuses the product of line 106 (a ratio that is NaN or makes the
    product infinite), or returns: the text itself when it has no
    sentence, and otherwise the sentences at the selected indices, which
    are strictly increasing, joined by one space, so a subsequence of the
    segmented sentences in document order. *)
Theorem summary_preserves_order (text : str) (ratio : float) :
  let sentences := AdvancedPDFCompressor.sentence_tokenize text in
  match AdvancedPDFCompressor.extractive_summarize text ratio with
  | Ok out =>
      (sentences = [] /\ out = text) \/
      (sentences <> [] /\
       exists idx,
         AdvancedPDFCompressor.top_indices sentences ratio = Ok idx /\
         StronglySorted lt idx /\
         Forall (fun i => i < length sentences)%nat idx /\
         map (fun i => nth i sentences []) idx `sublist_of` sentences /\
         out = join [space] (map (fun i => nth i sentences []) idx))
  | Raise e =>
      sentences <> [] /\
      int_of_float (float_of_Z (Z.of_nat (length sentences)) * ratio)%float = Raise e
  end.
Proof.
  intros sentences. unfold AdvancedPDFCompressor.extractive_summarize.
  fold sentences.
  destruct sentences as [|s0 ss] eqn:Es; [left; auto|].
  rewrite <- Es.
  assert (Hne : sentences <> []) by (rewrite Es; discriminate).
  destruct (top_indices_unfold sentences ratio) as (scores & _ & Hlen & ->).
  destruct (int_of_float _) as [k|e]; [|cbn; auto].
  cbn [mbind result_bind].
  destruct (selection_props scores (Z.to_nat (Z.max 1 k))) as (Hs & Hlt & _ & _).
  cbv zeta in Hs, Hlt. rewrite Hlen in Hlt.
  set (idx := sort_indices _) in *.
  rewrite (mapR_ok _ (fun i => nth i sentences [])).
  - cbn. right. split; [exact Hne|]. exists idx.
    split; [reflexivity|]. split; [exact Hs|]. split; [exact Hlt|].
    split; [|reflexivity].
    change sentences with (drop 0 sentences) at 2.
    apply increasing_positions_sublist; [exact Hs|].
    eapply Forall_impl; [exact Hlt|]. cbn. intros; lia.
  - eapply Forall_impl; [exact Hlt|]. cbn. intros i Hi. apply index_ok, Hi.
Qed.

(** ** Rounding to nearest on fractions *)

Lemma rne_bounds (num den : Z) :
  0 < den -> num / den <= rne num den <= num / den + 1.
Proof.
  intros Hden. unfold rne.
  destruct (2 * (num mod den) ?= den); [destruct (Z.even _)| |]; lia.
Qed.

Lemma rne_exact (q den : Z) : 0 < den -> rne (q * den) den = q.
Proof.
  intros Hden. unfold rne.
  rewrite Z.mod_mul, Z.div_mul by lia.
  destruct (Z.compare_spec (2 * 0) den); lia.
Qed.

Lemma rne_mono (n1 d1 n2 d2 : Z) :
  0 < d1 -> 0 < d2 -> n1 * d2 <= n2 * d1 -> rne n1 d1 <= rne n2 d2.
Proof.
  intros H1 H2 Hle.
  pose proof (Z.div_mod n1 d1 ltac:(lia)) as E1.
  pose proof (Z.div_mod n2 d2 ltac:(lia)) as E2.
  pose proof (Z.mod_pos_bound n1 d1 H1) as B1.
  pose proof (Z.mod_pos_bound n2 d2 H2) as B2.
  pose proof (rne_bounds n1 d1 H1) as R1.
  pose proof (rne_bounds n2 d2 H2) as R2.
  set (q1 := n1 / d1) in *. set (r1 := n1 mod d1) in *.
  set (q2 := n2 / d2) in *. set (r2 := n2 mod d2) in *.
  destruct (Z.lt_trichotomy q1 q2) as [Hq|[Hq|Hq]].
  - lia.
  - assert (Hr : r1 * d2 <= r2 * d1) by nia.
    unfold rne. fold q1 q2 r1 r2. rewrite Hq.
    destruct (Z.compare_spec (2 * r1) d1) as [Ea|Ea|Ea];
      destruct (Z.compare_spec (2 * r2) d2) as [Eb|Eb|Eb];
      try destruct (Z.even q2); try lia; nia.
  - exfalso.
    assert (G1 : d1 * d2 * (q2 + 1) <= d1 * d2 * q1).
    { apply Z.mul_le_mono_nonneg_l; nia. }
    assert (G2 : r2 * d1 < d2 * d1) by (apply Z.mul_lt_mono_pos_r; lia).
    assert (G3 : 0 <= r1 * d2) by nia.
    rewrite E1, E2 in Hle. nia.
Qed.

Lemma rne_le (num den j : Z) : 0 < den -> num <= j * den -> rne num den <= j.
Proof.
  intros Hden Hle. rewrite <- (rne_exact j den Hden).
  apply rne_mono; try lia. nia.
Qed.

Lemma rne_ge (num den j : Z) : 0 < den -> j * den <= num -> j <= rne num den.
Proof.
  intros Hden Hle. rewrite <- (rne_exact j den Hden) at 1.
  apply rne_mono; try lia. nia.
Qed.

Lemma rne_scale (num den t : Z) :
  0 < den -> 0 < t -> rne (num * t) (den * t) = rne num den.
Proof.
  intros Hden Ht. apply Z.le_antisymm; apply rne_mono; nia.
Qed.

Lemma rne_nonneg (num den : Z) : 0 < den -> 0 <= num -> 0 <= rne num den.
Proof. intros Hden Hnum. apply rne_ge; lia. Qed.

(** ** The bit level of [SpecFloat] *)

Lemma digits2_pos_bounds (p : positive) :
  2 ^ (Z.pos (digits2_pos p) - 1) <= Z.pos p < 2 ^ Z.pos (digits2_pos p).
Proof.
  induction p as [p IH|p IH|]; cbn [digits2_pos].
  - rewrite Pos2Z.inj_succ, (Pos2Z.inj_xI p).
    replace (Z.succ (Z.pos (digits2_pos p)) - 1) with (Z.succ (Z.pos (digits2_pos p) - 1)) by lia.
    rewrite !Z.pow_succ_r by lia. lia.
  - rewrite Pos2Z.inj_succ, (Pos2Z.inj_xO p).
    replace (Z.succ (Z.pos (digits2_pos p)) - 1) with (Z.succ (Z.pos (digits2_pos p) - 1)) by lia.
    rewrite !Z.pow_succ_r by lia. lia.
  - cbn. lia.
Qed.

Lemma Zdigits2_log2 (m : Z) : 0 < m -> Zdigits2 m = Z.log2 m + 1.
Proof.
  destruct m as [|p|p]; try lia. intros _. cbn [Zdigits2].
  pose proof (digits2_pos_bounds p) as H.
  rewrite (Z.log2_unique (Z.pos p) (Z.pos (digits2_pos p) - 1)); [lia | lia |].
  replace (Z.succ (Z.pos (digits2_pos p) - 1)) with (Z.pos (digits2_pos p)) by lia.
  exact H.
Qed.

Lemma Zdigits2_bounds (m : Z) :
  0 < m -> 2 ^ (Zdigits2 m - 1) <= m < 2 ^ Zdigits2 m.
Proof.
  destruct m as [|p|p]; try lia. intros _. apply digits2_pos_bounds.
Qed.

Lemma Zdigits2_nonneg (m : Z) : 0 <= Zdigits2 m.
Proof. destruct m; cbn; lia. Qed.

(** A number of [d] binary digits: the digits are determined by the
    bounds. *)
Lemma Zdigits2_unique (m d : Z) :
  2 ^ (d - 1) <= m < 2 ^ d -> 0 < m -> Zdigits2 m = d.
Proof.
  intros H Hm. rewrite Zdigits2_log2 by exact Hm.
  assert (0 < d).
  { destruct (Z.le_gt_cases d 0) as [Hd|Hd]; [|exact Hd].
    assert (2 ^ d <= 2 ^ 0) by (apply Z.pow_le_mono_r; lia).
    change (2 ^ 0) with 1 in *. lia. }
  rewrite (Z.log2_unique m (d - 1)); [lia | lia |].
  replace (Z.succ (d - 1)) with d by lia. exact H.
Qed.

Lemma loc_of_frac_exact (num den : Z) :
  loc_of_frac num den = loc_Exact <-> num mod den = 0.
Proof.
  unfold loc_of_frac. destruct (Z.eqb_spec (num mod den) 0); split; intros H;
    auto; try discriminate; contradiction.
Qed.

Lemma shr_1_arith (m : Z) (r s : bool) :
  0 <= m ->
  shr_1 {| shr_m := m; shr_r := r; shr_s := s |}
    = {| shr_m := m / 2; shr_r := Z.odd m; shr_s := r || s |}.
Proof.
  intros Hm. rewrite <- Z.div2_div.
  destruct m as [|[p|p|]|p]; try lia; reflexivity.
Qed.

Lemma shr_1_represents (mrs : shr_record) (num den : Z) :
  0 <= num -> 0 < den ->
  represents mrs num den -> represents (shr_1 mrs) num (den * 2).
Proof.
  intros Hnum Hden [Hm Hloc]. destruct mrs as [m r s]. cbn [shr_m] in Hm.
  assert (Hq : 0 <= num / den) by (apply Z.div_pos; lia).
  pose proof (Z.mod_pos_bound num den Hden) as Hrho.
  assert (Hmod : num mod (den * 2) = num mod den + den * ((num / den) mod 2))
    by (apply Z.rem_mul_r; lia).
  assert (Hs : orb r s = negb (num mod den =? 0)).
  { unfold loc_of_frac in Hloc. cbn [loc_of_shr_record] in Hloc.
    destruct (num mod den =? 0); destruct r, s; cbn; congruence. }
  rewrite shr_1_arith by lia. unfold represents. cbn [shr_m]. split.
  - rewrite Hm, Z.div_div by lia. reflexivity.
  - unfold loc_of_frac. rewrite Hmod, Hs, Hm, Zmod_odd. cbn [loc_of_shr_record].
    destruct (Z.odd (num / den));
      destruct (Z.eqb_spec (num mod den) 0) as [E0|E0]; cbn [negb];
      match goal with
      | |- _ = (if ?b then _ else _) => destruct (Z.eqb_spec (num mod den + den * 1) 0);
                                        destruct (Z.eqb_spec (num mod den + den * 0) 0)
      end; try lia;
      try reflexivity;
      match goal with
      | |- _ = loc_Inexact (?a ?= ?b) =>
          destruct (Z.compare_spec a b); try lia; reflexivity
      end.
Qed.

Lemma iter_shr_represents (num : Z) (p : positive) : forall mrs den,
  0 <= num -> 0 < den -> represents mrs num den ->
  represents (SpecFloat.iter_pos shr_1 p mrs) num (den * 2 ^ Z.pos p).
Proof.
  induction p as [p IH|p IH|]; intros mrs den Hnum Hden H; cbn [SpecFloat.iter_pos].
  - replace (den * 2 ^ Z.pos p~1) with (den * 2 * 2 ^ Z.pos p * 2 ^ Z.pos p).
    + apply IH; [lia | | apply IH; [lia | lia | apply shr_1_represents; assumption]].
      assert (0 < 2 ^ Z.pos p) by (apply Z.pow_pos_nonneg; lia). nia.
    + rewrite (Pos2Z.inj_xI p).
      replace (2 * Z.pos p + 1) with (1 + Z.pos p + Z.pos p) by lia.
      rewrite !Z.pow_add_r by lia. change (2 ^ 1) with 2. ring.
  - replace (den * 2 ^ Z.pos p~0) with (den * 2 ^ Z.pos p * 2 ^ Z.pos p).
    + apply IH; [lia | | apply IH; assumption].
      assert (0 < 2 ^ Z.pos p) by (apply Z.pow_pos_nonneg; lia). nia.
    + rewrite (Pos2Z.inj_xO p).
      replace (2 * Z.pos p) with (Z.pos p + Z.pos p) by lia.
      rewrite !Z.pow_add_r by lia. ring.
  - change (2 ^ 1) with 2. apply shr_1_represents; assumption.
Qed.

Lemma shr_represents (mrs : shr_record) (num den e n : Z) :
  0 <= num -> 0 < den -> represents mrs num den ->
  represents (fst (shr mrs e n)) num (den * 2 ^ Z.max 0 n) /\
  snd (shr mrs e n) = e + Z.max 0 n.
Proof.
  intros Hnum Hden H. unfold shr. destruct n as [|p|p]; cbn [fst snd].
  - change (Z.max 0 0) with 0. rewrite Z.mul_1_r, Z.add_0_r. auto.
  - replace (Z.max 0 (Z.pos p)) with (Z.pos p) by lia.
    split; [apply iter_shr_represents; assumption | reflexivity].
  - replace (Z.max 0 (Z.neg p)) with 0 by lia.
    change (2 ^ 0) with 1. rewrite Z.mul_1_r, Z.add_0_r. auto.
Qed.

Lemma loc_of_shr_record_of_loc (m : Z) (l : location) :
  loc_of_shr_record (shr_record_of_loc m l) = l /\
  shr_m (shr_record_of_loc m l) = m.
Proof. destruct l as [|[]]; auto. Qed.

Lemma rne_represents (mrs : shr_record) (num den : Z) :
  0 < den -> represents mrs num den ->
  round_nearest_even (shr_m mrs) (loc_of_shr_record mrs) = rne num den.
Proof.
  intros Hden [-> ->]. unfold loc_of_frac, rne, round_nearest_even.
  destruct (Z.eqb_spec (num mod den) 0) as [E|E].
  - rewrite E. destruct (Z.compare_spec (2 * 0) den); lia.
  - destruct (2 * (num mod den) ?= den); reflexivity.
Qed.

(** The second alignment of [binary_round_aux] only renormalises a
    mantissa that the rounding has carried up to 2^53. *)
Lemma shr_fexp_after_rounding (m2 e2 : Z) :
  0 <= m2 <= 2 ^ 53 -> -1074 <= e2 ->
  shr_fexp prec emax m2 e2 loc_Exact =
    if m2 =? 2 ^ 53
    then ({| shr_m := 2 ^ 52; shr_r := false; shr_s := false |}, e2 + 1)
    else ({| shr_m := m2; shr_r := false; shr_s := false |}, e2).
Proof.
  intros Hm He. unfold shr_fexp. cbn [shr_record_of_loc].
  destruct (Z.eqb_spec m2 (2 ^ 53)) as [->|Hne].
  - change (Zdigits2 (2 ^ 53)) with 54.
    replace (fexp prec emax (54 + e2) - e2) with 1
      by (unfold fexp, SpecFloat.emin, prec, emax; lia).
    reflexivity.
  - assert (Hd : Zdigits2 m2 <= 53).
    { destruct (Z.eq_dec m2 0) as [->|H0]; [cbn; lia|].
      pose proof (Zdigits2_bounds m2 ltac:(lia)) as [Hlo _].
      destruct (Z.le_gt_cases (Zdigits2 m2) 53) as [H|H]; [exact H|].
      assert (2 ^ 53 <= 2 ^ (Zdigits2 m2 - 1)) by (apply Z.pow_le_mono_r; lia).
      lia. }
    assert (Hn : fexp prec emax (Zdigits2 m2 + e2) - e2 <= 0)
      by (unfold fexp, SpecFloat.emin, prec, emax; lia).
    unfold shr. destruct (fexp prec emax (Zdigits2 m2 + e2) - e2); try lia; reflexivity.
Qed.

Lemma bra_spec (s : bool) (num den mx ex : Z) (lx : location) :
  0 < den -> 0 <= num -> mx = num / den -> lx = loc_of_frac num den ->
  binary_round_aux prec emax s mx ex lx = round_spec s num den mx ex.
Proof.
  intros Hden Hnum Hmx Hlx.
  unfold binary_round_aux, round_spec, shr_fexp at 1.
  set (c := fexp prec emax (Zdigits2 mx + ex)).
  set (k := Z.max 0 (c - ex)).
  assert (Hrep : represents (shr_record_of_loc mx lx) num den).
  { destruct (loc_of_shr_record_of_loc mx lx) as [H1 H2].
    split; congruence. }
  destruct (shr_represents _ num den ex (c - ex) Hnum Hden Hrep) as [Hr He].
  fold k in Hr, He.
  destruct (shr (shr_record_of_loc mx lx) ex (c - ex)) as [mrs' e'].
  cbn [fst snd] in Hr, He. subst e'.
  assert (Hk : 0 <= k) by (unfold k; lia).
  assert (Hpow : 0 < 2 ^ k) by (apply Z.pow_pos_nonneg; lia).
  assert (Hden' : 0 < den * 2 ^ k) by nia.
  rewrite (rne_represents mrs' num (den * 2 ^ k) Hden' Hr).
  set (m2 := rne num (den * 2 ^ k)).
  assert (Hm2 : 0 <= m2 <= 2 ^ 53).
  { split; [apply rne_nonneg; lia|].
    pose proof (rne_bounds num (den * 2 ^ k) Hden') as [_ Hup]. fold m2 in Hup.
    assert (Hq : num / (den * 2 ^ k) < 2 ^ 53); [|lia].
    rewrite <- Z.div_div, <- Hmx by lia.
    apply Z.div_lt_upper_bound; [lia|].
    assert (Hmx0 : 0 <= mx) by (rewrite Hmx; apply Z.div_pos; lia).
    destruct (Z.eq_dec mx 0) as [->|H0]; [lia|].
    pose proof (Zdigits2_bounds mx ltac:(lia)) as [_ Hhi].
    assert (Hdk : Zdigits2 mx <= k + 53).
    { unfold k, c, fexp, SpecFloat.emin, prec, emax. lia. }
    assert (2 ^ Zdigits2 mx <= 2 ^ (k + 53)) by (apply Z.pow_le_mono_r; lia).
    rewrite Z.pow_add_r in * by lia. lia. }
  assert (He2 : -1074 <= ex + k).
  { unfold k, c, fexp, SpecFloat.emin, prec, emax. lia. }
  rewrite (shr_fexp_after_rounding m2 (ex + k) Hm2 He2).
  destruct (m2 =? 2 ^ 53); cbn [shr_m]; reflexivity.
Qed.

(** ** Valid binary64 numbers and their values *)

Lemma pow2_pos (e : Z) : 0 <= e -> 0 < 2 ^ e.
Proof. intros. apply Z.pow_pos_nonneg; lia. Qed.

Lemma valid_finite (s : bool) (m : positive) (e : Z) :
  valid_binary (S754_finite s m e) = true ->
  -1074 <= e <= 971 /\ Z.pos (digits2_pos m) <= 53 /\
  (Z.pos (digits2_pos m) = 53 \/ e = -1074).
Proof.
  cbn [valid_binary]. unfold bounded, canonical_mantissa.
  intros [Hc He]%andb_prop. apply Z.eqb_eq in Hc. apply Z.leb_le in He.
  unfold fexp, SpecFloat.emin, prec, emax in *. lia.
Qed.

Lemma finite_valid (s : bool) (m : positive) (e : Z) :
  -1074 <= e <= 971 -> Z.pos (digits2_pos m) = 53 ->
  valid_binary (S754_finite s m e) = true.
Proof.
  intros He Hd. cbn [valid_binary]. unfold bounded, canonical_mantissa.
  apply andb_true_intro. split; [apply Z.eqb_eq | apply Z.leb_le].
  - unfold fexp, SpecFloat.emin, prec, emax. lia.
  - unfold prec, emax. lia.
Qed.

Lemma sval_finite_bounds (s : bool) (m : positive) (e : Z) :
  valid_binary (S754_finite s m e) = true ->
  0 < sval (S754_finite s m e) < 2 ^ 2098.
Proof.
  intros Hv. apply valid_finite in Hv as (He & Hd & _). cbn [sval].
  pose proof (digits2_pos_bounds m) as [_ Hm].
  assert (Hp : 0 < 2 ^ (e + 1074)) by (apply pow2_pos; lia).
  split; [nia|].
  assert (2 ^ Z.pos (digits2_pos m) <= 2 ^ 53) by (apply Z.pow_le_mono_r; lia).
  assert (2 ^ (e + 1074) <= 2 ^ 2045) by (apply Z.pow_le_mono_r; lia).
  replace (2 ^ 2098) with (2 ^ 53 * 2 ^ 2045) by (rewrite <- Z.pow_add_r by lia; reflexivity).
  nia.
Qed.

(** On valid finite floats that are not negative, the order of the
    format is the order of the values. *)
Lemma finite_compare (m1 m2 : positive) (e1 e2 : Z) :
  valid_binary (S754_finite false m1 e1) = true ->
  valid_binary (S754_finite false m2 e2) = true ->
  SFcompare (S754_finite false m1 e1) (S754_finite false m2 e2)
    = Some (sval (S754_finite false m1 e1) ?= sval (S754_finite false m2 e2)).
Proof.
  intros H1 H2.
  apply valid_finite in H1 as (He1 & Hd1 & Hc1).
  apply valid_finite in H2 as (He2 & Hd2 & Hc2).
  pose proof (digits2_pos_bounds m1) as [Hl1 Hu1].
  pose proof (digits2_pos_bounds m2) as [Hl2 Hu2].
  cbn [SFcompare sval]. f_equal.
  change (PosDef.Pos.compare_cont Eq m1 m2) with (Z.pos m1 ?= Z.pos m2).
  assert (Hlt : forall ma mb ea eb da db,
             -1074 <= ea -> ea < eb -> 2 ^ (db - 1) <= mb -> ma < 2 ^ da ->
             da <= 53 -> db = 53 -> 0 < ma ->
             ma * 2 ^ (ea + 1074) < mb * 2 ^ (eb + 1074)).
  { intros ma mb ea eb da db Hea Hab Hmb Hma Hda -> Hpos.
    replace (eb + 1074) with ((eb - ea) + (ea + 1074)) by lia.
    rewrite (Z.pow_add_r 2 (eb - ea) (ea + 1074)) by lia.
    assert (0 < 2 ^ (ea + 1074)) by (apply pow2_pos; lia).
    assert (2 ^ 1 <= 2 ^ (eb - ea)) by (apply Z.pow_le_mono_r; lia).
    assert (2 ^ da <= 2 ^ 53) by (apply Z.pow_le_mono_r; lia).
    change (2 ^ 1) with 2 in *. change (2 ^ (53 - 1)) with (2 ^ 52) in *.
    assert (E53 : 2 ^ 53 = 2 * 2 ^ 52) by reflexivity.
    assert (Hab' : ma < mb * 2 ^ (eb - ea)) by nia.
    rewrite Z.mul_assoc. apply Z.mul_lt_mono_pos_r; assumption. }
  destruct (Z.compare_spec e1 e2) as [->|He|He].
  - assert (0 < 2 ^ (e2 + 1074)) by (apply pow2_pos; lia).
    destruct (Z.compare_spec (Z.pos m1) (Z.pos m2)) as [E|E|E]; symmetry.
    + rewrite E. apply Z.compare_refl.
    + apply Z.compare_lt_iff. nia.
    + apply Z.compare_gt_iff. nia.
  - symmetry. apply Z.compare_lt_iff.
    apply (Hlt _ _ _ _ (Z.pos (digits2_pos m1)) (Z.pos (digits2_pos m2))); try lia.
  - symmetry. apply Z.compare_gt_iff.
    apply (Hlt _ _ _ _ (Z.pos (digits2_pos m2)) (Z.pos (digits2_pos m1))); try lia.
Qed.

Lemma good_compare (x y : spec_float) :
  valid_binary x = true -> valid_binary y = true ->
  sf_good x -> sf_good y ->
  SFcompare x y = Some (sval x ?= sval y).
Proof.
  intros Hx Hy Gx Gy.
  destruct x as [sx|sx| |sx mx ex]; cbn [sf_good] in Gx; try contradiction; subst sx;
  destruct y as [sy|sy| |sy my ey]; cbn [sf_good] in Gy; try contradiction; subst sy;
  try (apply finite_compare; assumption);
  try pose proof (sval_finite_bounds _ _ _ Hx) as Bx;
  try pose proof (sval_finite_bounds _ _ _ Hy) as By;
  cbn [SFcompare]; f_equal; symmetry;
  first [ apply Z.compare_refl
        | apply Z.compare_lt_iff; cbn [sval] in *;
          try (assert (2 ^ 2098 < 2 ^ 2100) by (apply Z.pow_lt_mono_r; lia));
          try (assert (0 < 2 ^ 2100) by (apply pow2_pos; lia)); lia
        | apply Z.compare_gt_iff; cbn [sval] in *;
          try (assert (2 ^ 2098 < 2 ^ 2100) by (apply Z.pow_lt_mono_r; lia));
          try (assert (0 < 2 ^ 2100) by (apply pow2_pos; lia)); lia ].
Qed.

Lemma good_ltb (x y : float) :
  good x -> good y ->
  (x <? y)%float = (sval (Prim2SF x) <? sval (Prim2SF y)).
Proof.
  intros Gx Gy. rewrite FloatAxioms.ltb_spec. unfold SFltb.
  rewrite (good_compare _ _ (Prim2SF_valid x) (Prim2SF_valid y) Gx Gy).
  unfold Z.ltb. reflexivity.
Qed.

Lemma good_leb (x y : float) :
  good x -> good y ->
  (x <=? y)%float = (sval (Prim2SF x) <=? sval (Prim2SF y)).
Proof.
  intros Gx Gy. rewrite FloatAxioms.leb_spec. unfold SFleb.
  rewrite (good_compare _ _ (Prim2SF_valid x) (Prim2SF_valid y) Gx Gy).
  unfold Z.leb. destruct (_ ?= _); reflexivity.
Qed.

Lemma loc_of_frac_den_1 (num : Z) : loc_Exact = loc_of_frac num 1.
Proof. unfold loc_of_frac. rewrite Z.mod_1_r. reflexivity. Qed.

(** Rounding leaves a normal mantissa at its own exponent alone. *)
Lemma bra_canonical (s : bool) (m : positive) (e : Z) :
  Z.pos (digits2_pos m) = 53 -> -1074 <= e <= 971 ->
  binary_round_aux prec emax s (Z.pos m) e loc_Exact = S754_finite s m e.
Proof.
  intros Hd He.
  rewrite (bra_spec s (Z.pos m) 1 (Z.pos m) e loc_Exact);
    [| lia | lia | rewrite Z.div_1_r; reflexivity | apply loc_of_frac_den_1].
  unfold round_spec. cbn [Zdigits2]. rewrite Hd.
  replace (fexp prec emax (53 + e)) with e
    by (unfold fexp, SpecFloat.emin, prec, emax; lia).
  replace (Z.max 0 (e - e)) with 0 by lia.
  change (2 ^ 0) with 1. rewrite Z.mul_1_r, Z.add_0_r.
  replace (rne (Z.pos m) 1) with (Z.pos m)
    by (rewrite <- (Z.mul_1_r (Z.pos m)) at 2; rewrite rne_exact; lia).
  pose proof (digits2_pos_bounds m) as [_ Hm]. rewrite Hd in Hm.
  destruct (Z.eqb_spec (Z.pos m) (2 ^ 53)); [lia|].
  destruct (Z.leb_spec e 971); [reflexivity | lia].
Qed.

Lemma pos_iter_xO (p q : positive) :
  Z.pos (Pos.iter xO p q) = Z.pos p * 2 ^ Z.pos q.
Proof.
  induction q as [|q IH] using Pos.peano_ind.
  - cbn [Pos.iter]. rewrite (Pos2Z.inj_xO p). change (2 ^ 1) with 2. ring.
  - rewrite Pos.iter_succ, Pos2Z.inj_succ, Z.pow_succ_r by lia.
    rewrite (Pos2Z.inj_xO (Pos.iter xO p q)), IH. ring.
Qed.

(** [float(n)] is exact below 2^53. *)
Lemma float_of_Z_exact (n : Z) :
  0 < n < 2 ^ 53 ->
  exists m e,
    Prim2SF (float_of_Z n) = S754_finite false m e /\
    Z.pos (digits2_pos m) = 53 /\ -52 <= e <= 0 /\
    Z.pos m = n * 2 ^ (- e).
Proof.
  intros [Hpos Hlt]. destruct n as [|p|p]; try lia.
  pose proof (digits2_pos_bounds p) as [Hlo Hhi].
  set (d := Z.pos (digits2_pos p)) in *.
  assert (Hd : 1 <= d <= 53).
  { split; [subst d; lia|].
    destruct (Z.le_gt_cases d 53) as [H|H]; [exact H|].
    assert (2 ^ 53 <= 2 ^ (d - 1)) by (apply Z.pow_le_mono_r; lia). lia. }
  assert (Hnorm : exists m e,
             binary_normalize prec emax (Z.pos p) 0 false = S754_finite false m e /\
             Z.pos (digits2_pos m) = 53 /\ -52 <= e <= 0 /\
             Z.pos m = Z.pos p * 2 ^ (- e)).
  { cbn [binary_normalize]. unfold binary_round. fold d.
    replace (fexp prec emax (d + 0)) with (d - 53)
      by (unfold fexp, SpecFloat.emin, prec, emax; lia).
    unfold shl_align. destruct (d - 53 - 0) as [|q|q] eqn:Eq; try lia.
    - assert (d = 53) by lia.
      exists p, 0. rewrite bra_canonical by (fold d; lia).
      repeat split; fold d; lia.
    - assert (Hq : Z.pos q = 53 - d) by lia.
      pose proof (pos_iter_xO p q) as Hit.
      assert (Hdig : Z.pos (digits2_pos (Pos.iter xO p q)) = 53).
      { change (Z.pos (digits2_pos (Pos.iter xO p q)))
          with (Zdigits2 (Z.pos (Pos.iter xO p q))).
        apply Zdigits2_unique; [|lia].
        rewrite Hit, Hq.
        assert (0 < 2 ^ (53 - d)) by (apply pow2_pos; lia).
        replace (2 ^ (53 - 1)) with (2 ^ (d - 1) * 2 ^ (53 - d))
          by (rewrite <- Z.pow_add_r by lia; f_equal; lia).
        replace (2 ^ 53) with (2 ^ d * 2 ^ (53 - d))
          by (rewrite <- Z.pow_add_r by lia; f_equal; lia).
        nia. }
      exists (Pos.iter xO p q), (d - 53).
      rewrite bra_canonical by (try exact Hdig; lia).
      repeat split; try lia.
      rewrite Hit, Hq. f_equal. f_equal. lia. }
  destruct Hnorm as (m & e & Hn & Hdig & He & Hm).
  exists m, e. split; [|auto].
  unfold float_of_Z. rewrite Hn.
  apply Prim2SF_SF2Prim. apply finite_valid; [lia | exact Hdig].
Qed.

Lemma float_of_Z_sval (n : Z) :
  0 < n < 2 ^ 53 ->
  good (float_of_Z n) /\ sval (Prim2SF (float_of_Z n)) = n * 2 ^ 1074.
Proof.
  intros Hn. destruct (float_of_Z_exact n Hn) as (m & e & Hp & _ & He & Hm).
  unfold good. rewrite Hp. cbn [sf_good sval]. split; [reflexivity|].
  rewrite Hm, <- Z.mul_assoc, <- Z.pow_add_r by lia. f_equal. f_equal. lia.
Qed.

(** [int(x)] on a valid float that is finite and not negative. *)
Lemma int_of_float_sval (x : float) :
  good x -> sval (Prim2SF x) < 2 ^ 2100 ->
  int_of_float x = Ok (sval (Prim2SF x) / 2 ^ 1074).
Proof.
  unfold good, int_of_float. pose proof (Prim2SF_valid x) as Hv.
  destruct (Prim2SF x) as [s|s| |s m e]; cbn [sf_good sval]; try contradiction.
  - intros _ _. reflexivity.
  - intros _ H. lia.
  - intros -> _. apply valid_finite in Hv as (He & _). f_equal.
    destruct (Z.leb_spec 0 e) as [H0|H0].
    + rewrite Z.pow_add_r, Z.mul_assoc, Z.div_mul by lia. reflexivity.
    + replace (2 ^ 1074) with (2 ^ (e + 1074) * 2 ^ (- e))
        by (rewrite <- Z.pow_add_r by lia; f_equal; lia).
      rewrite Z.mul_comm, Z.div_mul_cancel_l; [reflexivity | |];
        apply Z.pow_nonzero; lia.
Qed.

Lemma Prim2SF_zero : Prim2SF 0 = S754_zero false.
Proof. reflexivity. Qed.

Lemma Prim2SF_one : Prim2SF 1 = S754_finite false 4503599627370496 (-52).
Proof. reflexivity. Qed.

Lemma Zdigits2_mul_pow2 (M t : Z) :
  0 < M -> 0 <= t -> Zdigits2 (M * 2 ^ t) = Zdigits2 M + t.
Proof.
  intros HM Ht. pose proof (Zdigits2_bounds M HM) as [Hlo Hhi].
  pose proof (Zdigits2_nonneg M) as Hd.
  assert (Hd1 : 1 <= Zdigits2 M).
  { destruct (Z.le_gt_cases 1 (Zdigits2 M)); [assumption|].
    assert (Zdigits2 M = 0) by lia. rewrite H0 in Hhi. change (2 ^ 0) with 1 in Hhi. lia. }
  assert (Hp : 0 < 2 ^ t) by (apply pow2_pos; lia).
  apply Zdigits2_unique; [|nia].
  replace (Zdigits2 M + t - 1) with ((Zdigits2 M - 1) + t) by lia.
  rewrite !Z.pow_add_r by lia. nia.
Qed.

(** ** The value of a rounded product *)

Lemma round_val_zero : round_val 0 = 0.
Proof. reflexivity. Qed.

Lemma round_val_nonneg (N : Z) : 0 <= N -> 0 <= round_val N.
Proof.
  intros HN. unfold round_val.
  set (k := Z.max (Z.log2 N + 1 - 53) 1074).
  assert (0 < 2 ^ k) by (apply pow2_pos; lia).
  assert (0 < 2 ^ (k - 1074)) by (apply pow2_pos; lia).
  pose proof (rne_nonneg N (2 ^ k) ltac:(lia) HN). nia.
Qed.

Lemma round_val_mono (N1 N2 : Z) :
  0 <= N1 -> N1 <= N2 -> round_val N1 <= round_val N2.
Proof.
  intros H1 H12.
  destruct (Z.eq_dec N1 0) as [->|Hpos].
  { rewrite round_val_zero. apply round_val_nonneg. lia. }
  unfold round_val.
  pose proof (Z.log2_le_mono N1 N2 H12) as Hlog.
  pose proof (Z.log2_spec N1 ltac:(lia)) as [Hl1 Hu1].
  pose proof (Z.log2_spec N2 ltac:(lia)) as [Hl2 Hu2].
  pose proof (Z.log2_nonneg N1) as Hn1.
  set (L1 := Z.log2 N1) in *. set (L2 := Z.log2 N2) in *.
  set (k1 := Z.max (L1 + 1 - 53) 1074). set (k2 := Z.max (L2 + 1 - 53) 1074).
  assert (Hk : k1 <= k2) by (unfold k1, k2; lia).
  assert (Hp1 : 0 < 2 ^ k1) by (apply pow2_pos; unfold k1; lia).
  assert (Hp2 : 0 < 2 ^ k2) by (apply pow2_pos; unfold k2; lia).
  destruct (Z.eq_dec k1 k2) as [E|E].
  - rewrite <- E. apply Z.mul_le_mono_nonneg_r.
    + apply Z.lt_le_incl, pow2_pos. unfold k1. lia.
    + apply rne_mono; nia.
  - assert (Hk2 : k2 = L2 + 1 - 53) by (unfold k1, k2 in *; lia).
    assert (HL : L1 < L2) by (unfold k1, k2 in *; lia).
    set (t := Z.max (L1 + 1) k1).
    assert (Ht : t <= L2) by (unfold t; lia).
    (* the smaller one stays below 2^t, the larger one above 2^L2 *)
    assert (Hup : rne N1 (2 ^ k1) <= 2 ^ (t - k1)).
    { apply rne_le; [exact Hp1|].
      rewrite <- Z.pow_add_r by (unfold t; lia).
      replace (t - k1 + k1) with t by lia.
      assert (2 ^ Z.succ L1 <= 2 ^ t) by (apply Z.pow_le_mono_r; unfold t; lia).
      lia. }
    assert (Hlow : 2 ^ 52 <= rne N2 (2 ^ k2)).
    { apply rne_ge; [exact Hp2|].
      rewrite <- Z.pow_add_r by lia.
      replace (52 + k2) with L2 by lia. exact Hl2. }
    assert (Ha : rne N1 (2 ^ k1) * 2 ^ (k1 - 1074) <= 2 ^ (t - 1074)).
    { replace (t - 1074) with ((t - k1) + (k1 - 1074)) by lia.
      rewrite Z.pow_add_r by (unfold t, k1; lia).
      apply Z.mul_le_mono_nonneg_r; [|exact Hup].
      apply Z.lt_le_incl, pow2_pos. unfold k1. lia. }
    assert (Hb : 2 ^ (L2 - 1074) <= rne N2 (2 ^ k2) * 2 ^ (k2 - 1074)).
    { replace (L2 - 1074) with (52 + (k2 - 1074)) by lia.
      rewrite Z.pow_add_r by (unfold k2; lia).
      apply Z.mul_le_mono_nonneg_r; [|exact Hlow].
      apply Z.lt_le_incl, pow2_pos. unfold k2. lia. }
    assert (2 ^ (t - 1074) <= 2 ^ (L2 - 1074))
      by (apply Z.pow_le_mono_r; unfold t, k1; lia).
    lia.
Qed.

(** A value that the format holds is its own rounding. *)
Lemma round_val_exact (n : Z) :
  0 < n < 2 ^ 53 -> round_val (n * 2 ^ 2148) = n * 2 ^ 1074.
Proof.
  intros Hn. unfold round_val.
  assert (Hd : Z.log2 (n * 2 ^ 2148) + 1 = Zdigits2 n + 2148).
  { rewrite <- Zdigits2_log2 by (assert (0 < 2 ^ 2148) by (apply pow2_pos; lia); nia).
    apply Zdigits2_mul_pow2; lia. }
  rewrite Hd.
  assert (Hdn : 1 <= Zdigits2 n <= 53).
  { pose proof (Zdigits2_bounds n ltac:(lia)) as [Hlo Hhi].
    pose proof (Zdigits2_nonneg n).
    split.
    - destruct (Z.le_gt_cases 1 (Zdigits2 n)); [assumption|].
      assert (Zdigits2 n = 0) by lia. rewrite H1 in Hhi. change (2 ^ 0) with 1 in Hhi. lia.
    - destruct (Z.le_gt_cases (Zdigits2 n) 53); [assumption|].
      assert (2 ^ 53 <= 2 ^ (Zdigits2 n - 1)) by (apply Z.pow_le_mono_r; lia). lia. }
  set (k := Z.max (Zdigits2 n + 2148 - 53) 1074).
  assert (Hk : 1074 <= k <= 2148) by (unfold k; lia).
  replace (n * 2 ^ 2148) with (n * 2 ^ (2148 - k) * 2 ^ k)
    by (rewrite <- Z.mul_assoc, <- Z.pow_add_r by lia; do 2 f_equal; lia).
  rewrite rne_exact by (apply pow2_pos; lia).
  rewrite <- Z.mul_assoc, <- Z.pow_add_r by lia. do 2 f_equal. lia.
Qed.

(** The float that [binary_round_aux] builds from an exact product of at
    least 53 digits has the value [round_val] of the product, as long as
    that value is in range. *)
Lemma round_spec_val (M E : Z) :
  0 < M -> -2148 <= E -> 53 <= Zdigits2 M ->
  round_val (M * 2 ^ (E + 2148)) < 2 ^ 2098 ->
  sf_good (round_spec false M 1 M E) /\
  sval (round_spec false M 1 M E) = round_val (M * 2 ^ (E + 2148)).
Proof.
  intros HM HE Hd Hrange.
  pose proof (Zdigits2_bounds M HM) as [HMlo HMhi].
  set (d := Zdigits2 M) in *.
  set (c := fexp prec emax (d + E)).
  assert (Hc : c = Z.max (d + E - 53) (-1074))
    by (unfold c, fexp, SpecFloat.emin, prec, emax; lia).
  set (k := c - E).
  assert (Hk : 0 <= k) by (unfold k; lia).
  assert (Hpk : 0 < 2 ^ k) by (apply pow2_pos; lia).
  assert (HpE : 0 < 2 ^ (E + 2148)) by (apply pow2_pos; lia).
  (* the value, computed *)
  assert (Hval : round_val (M * 2 ^ (E + 2148)) = rne M (2 ^ k) * 2 ^ (c + 1074)).
  { unfold round_val.
    assert (Hlog : Z.log2 (M * 2 ^ (E + 2148)) + 1 = d + (E + 2148)).
    { rewrite <- Zdigits2_log2 by nia. apply Zdigits2_mul_pow2; lia. }
    rewrite Hlog.
    replace (Z.max (d + (E + 2148) - 53) 1074) with (k + (E + 2148)) by (unfold k; lia).
    rewrite (Z.pow_add_r 2 k (E + 2148)) by lia.
    rewrite (rne_scale M (2 ^ k) (2 ^ (E + 2148))) by lia.
    do 2 f_equal. unfold k. lia. }
  rewrite Hval in *.
  assert (Hm2 : 0 <= rne M (2 ^ k)) by (apply rne_nonneg; lia).
  assert (Hnorm : -1074 < c -> 2 ^ 52 <= rne M (2 ^ k)).
  { intros Hcn. apply rne_ge; [exact Hpk|].
    rewrite <- Z.pow_add_r by lia.
    replace (52 + k) with (d - 1) by (unfold k; lia). exact HMlo. }
  assert (Hpc : 0 < 2 ^ (c + 1074)) by (apply pow2_pos; lia).
  assert (Hover : forall m e', 2 ^ 52 <= m -> 972 <= e' ->
                    m * 2 ^ (e' + 1074) < 2 ^ 2098 -> False).
  { intros m e' Hm He' Hlt.
    assert (2 ^ 2046 <= 2 ^ (e' + 1074)) by (apply Z.pow_le_mono_r; lia).
    replace (2 ^ 2098) with (2 ^ 52 * 2 ^ 2046) in Hlt
      by (rewrite <- Z.pow_add_r by lia; reflexivity).
    assert (0 < 2 ^ 2046) by (apply pow2_pos; lia). nia. }
  unfold round_spec. fold d c.
  replace (Z.max 0 (c - E)) with k by (unfold k; lia).
  rewrite Z.mul_1_l. replace (E + k) with c by (unfold k; lia).
  destruct (Z.eqb_spec (rne M (2 ^ k)) (2 ^ 53)) as [E53|E53].
  - rewrite E53 in *.
    change (2 ^ 52) with 4503599627370496.
    destruct (Z.leb_spec (c + 1) 971) as [Hle|Hgt].
    + cbn [sf_good sval]. split; [reflexivity|].
      replace (c + 1 + 1074) with (1 + (c + 1074)) by lia.
      rewrite (Z.pow_add_r 2 1 (c + 1074)) by lia.
      change (2 ^ 1) with 2. change (2 ^ 53) with 9007199254740992. lia.
    + exfalso. apply (Hover (2 ^ 52) (c + 1)); [lia | lia |].
      replace (c + 1 + 1074) with (1 + (c + 1074)) by lia.
      rewrite (Z.pow_add_r 2 1 (c + 1074)) by lia.
      change (2 ^ 1) with 2. change (2 ^ 53) with (2 ^ 52 * 2) in Hrange. lia.
  - destruct (rne M (2 ^ k)) as [|p|p] eqn:Em2; try lia.
    + cbn [sf_good sval]. split; [reflexivity | lia].
    + destruct (Z.leb_spec c 971) as [Hle|Hgt].
      * cbn [sf_good sval]. auto.
      * exfalso. apply (Hover (Z.pos p) c); [apply Hnorm; lia | lia | exact Hrange].
Qed.

(** The product of line 106 (and of line 128) for a ratio in (0, 1]:
    it is a valid float that is not negative, its value is the rounding
    of the exact product, and it does not exceed [n]. *)
Lemma ratio_float (r : float) :
  (0 <? r)%float = true -> (r <=? 1)%float = true ->
  exists m e, Prim2SF r = S754_finite false m e /\
              sval (Prim2SF r) <= 2 ^ 1074.
Proof.
  intros Hpos Hle.
  rewrite FloatAxioms.ltb_spec in Hpos. rewrite FloatAxioms.leb_spec in Hle.
  rewrite Prim2SF_zero in Hpos. rewrite Prim2SF_one in Hle.
  pose proof (Prim2SF_valid r) as Hv.
  destruct (Prim2SF r) as [s|s| |s m e] eqn:Er.
  - destruct s; discriminate Hpos.
  - destruct s; [discriminate Hpos | discriminate Hle].
  - discriminate Hpos.
  - destruct s; [discriminate Hpos|].
    exists m, e. split; [reflexivity|].
    unfold SFleb in Hle.
    rewrite (good_compare (S754_finite false m e)
               (S754_finite false 4503599627370496 (-52))) in Hle;
      [| exact Hv | reflexivity | reflexivity | reflexivity].
    change (sval (S754_finite false 4503599627370496 (-52))) with (2 ^ 1074) in Hle.
    destruct (Z.compare_spec (sval (S754_finite false m e)) (2 ^ 1074));
      try discriminate; lia.
Qed.

Lemma mul_ratio (n : Z) (r : float) :
  0 < n < 2 ^ 53 ->
  (0 <? r)%float = true -> (r <=? 1)%float = true ->
  let p := (float_of_Z n * r)%float in
  good p /\
  sval (Prim2SF p) = round_val (n * 2 ^ 1074 * sval (Prim2SF r)) /\
  sval (Prim2SF p) <= n * 2 ^ 1074.
Proof.
  intros Hn Hpos Hle p.
  destruct (ratio_float r Hpos Hle) as (mr & er & Er & Hr1).
  destruct (float_of_Z_exact n Hn) as (mx & ex & Ex & Hdx & Hex & Hmx).
  pose proof (Prim2SF_valid r) as Hvr. rewrite Er in Hvr.
  apply valid_finite in Hvr as (Her & Hdr & _).
  assert (Hp : Prim2SF p
               = round_spec false (Z.pos (mx * mr)) 1 (Z.pos (mx * mr)) (ex + er)).
  { unfold p. rewrite FloatAxioms.mul_spec, Ex, Er. unfold SF64mul. cbn [SFmul xorb].
    apply bra_spec; [lia | lia | rewrite Z.div_1_r; reflexivity | apply loc_of_frac_den_1]. }
  assert (HN : Z.pos (mx * mr) * 2 ^ (ex + er + 2148)
               = n * 2 ^ 1074 * sval (Prim2SF r)).
  { rewrite Er. cbn [sval]. rewrite Pos2Z.inj_mul, Hmx.
    assert (H1 : 2 ^ (ex + er + 2148) = 2 ^ (ex + 1074) * 2 ^ (er + 1074))
      by (rewrite <- Z.pow_add_r by lia; f_equal; lia).
    assert (H2 : 2 ^ 1074 = 2 ^ (- ex) * 2 ^ (ex + 1074))
      by (rewrite <- Z.pow_add_r by lia; f_equal; lia).
    rewrite H1, H2. ring. }
  assert (Hdig : 53 <= Zdigits2 (Z.pos (mx * mr))).
  { pose proof (digits2_pos_bounds mx) as [Hlo _]. rewrite Hdx in Hlo.
    pose proof (Zdigits2_bounds (Z.pos (mx * mr)) ltac:(lia)) as [_ Hhi].
    destruct (Z.le_gt_cases 53 (Zdigits2 (Z.pos (mx * mr)))) as [H|H]; [exact H|].
    assert (2 ^ Zdigits2 (Z.pos (mx * mr)) <= 2 ^ 52) by (apply Z.pow_le_mono_r; lia).
    change (2 ^ (53 - 1)) with (2 ^ 52) in Hlo.
    set (D := Zdigits2 (Z.pos (mx * mr))) in *.
    rewrite Pos2Z.inj_mul in Hhi.
    assert (Z.pos mx * 1 <= Z.pos mx * Z.pos mr) by (apply Z.mul_le_mono_nonneg_l; lia).
    lia. }
  assert (Hbound : round_val (n * 2 ^ 1074 * sval (Prim2SF r)) <= n * 2 ^ 1074).
  { rewrite <- (round_val_exact n Hn) at 2. apply round_val_mono.
    - rewrite Er. cbn [sval].
      assert (0 < 2 ^ (er + 1074)) by (apply pow2_pos; lia).
      assert (0 < 2 ^ 1074) by (apply pow2_pos; lia).
      apply Z.mul_nonneg_nonneg; apply Z.mul_nonneg_nonneg; lia.
    - replace (2 ^ 2148) with (2 ^ 1074 * 2 ^ 1074)
        by (rewrite <- Z.pow_add_r by lia; reflexivity).
      assert (0 < 2 ^ 1074) by (apply pow2_pos; lia).
      rewrite Z.mul_assoc. apply Z.mul_le_mono_nonneg_l; [nia | exact Hr1]. }
  assert (Hrange : round_val (Z.pos (mx * mr) * 2 ^ (ex + er + 2148)) < 2 ^ 2098).
  { rewrite HN.
    assert (n * 2 ^ 1074 < 2 ^ 2098); [|lia].
    replace (2 ^ 2098) with (2 ^ 1024 * 2 ^ 1074)
      by (rewrite <- Z.pow_add_r by lia; reflexivity).
    assert (0 < 2 ^ 1074) by (apply pow2_pos; lia).
    assert (2 ^ 53 < 2 ^ 1024) by (apply Z.pow_lt_mono_r; lia). nia. }
  destruct (round_spec_val (Z.pos (mx * mr)) (ex + er) ltac:(lia) ltac:(lia) Hdig Hrange)
    as [Hg Hs].
  unfold good. rewrite Hp, Hs, HN. auto.
Qed.

(** What [int] makes of that product. *)
Lemma int_of_product (n : Z) (r : float) :
  0 < n < 2 ^ 53 ->
  (0 <? r)%float = true -> (r <=? 1)%float = true ->
  int_of_float (float_of_Z n * r)
    = Ok (round_val (n * 2 ^ 1074 * sval (Prim2SF r)) / 2 ^ 1074) /\
  0 <= round_val (n * 2 ^ 1074 * sval (Prim2SF r)) / 2 ^ 1074 <= n.
Proof.
  intros Hn Hpos Hle.
  destruct (mul_ratio n r Hn Hpos Hle) as (Hg & Hs & Hb). cbv zeta in *.
  assert (Hp : 0 < 2 ^ 1074) by (apply pow2_pos; lia).
  assert (H0 : 0 <= round_val (n * 2 ^ 1074 * sval (Prim2SF r))).
  { apply round_val_nonneg.
    destruct (ratio_float r Hpos Hle) as (m & e & Er & _).
    pose proof (sval_finite_bounds false m e) as Hb'.
    pose proof (Prim2SF_valid r) as Hv. rewrite Er in Hv |- *.
    specialize (Hb' Hv). nia. }
  split.
  - rewrite int_of_float_sval, Hs; [reflexivity | exact Hg |].
    assert (n * 2 ^ 1074 < 2 ^ 2100); [|lia].
    replace (2 ^ 2100) with (2 ^ 1026 * 2 ^ 1074)
      by (rewrite <- Z.pow_add_r by lia; reflexivity).
    assert (2 ^ 53 < 2 ^ 1026) by (apply Z.pow_lt_mono_r; lia). nia.
  - split; [apply Z.div_pos; lia|].
    rewrite <- Hs. apply Z.div_le_upper_bound; lia.
Qed.

(** ** How many sentences are kept *)

Lemma positive_good (r : float) : (0 <? r)%float = true -> good r.
Proof.
  rewrite FloatAxioms.ltb_spec, Prim2SF_zero. unfold good.
  destruct (Prim2SF r) as [s|s| |s m e]; cbn; try discriminate;
    destruct s; try discriminate; reflexivity.
Qed.

Lemma positive_sval (r : float) : (0 <? r)%float = true <-> good r /\ 0 < sval (Prim2SF r).
Proof.
  split.
  - intros H. pose proof (positive_good r H) as Hg. split; [exact Hg|].
    rewrite good_ltb in H by (try exact Hg; reflexivity).
    rewrite Prim2SF_zero in H. cbn [sval] in H. lia.
  - intros [Hg Hs]. rewrite good_ltb by (try exact Hg; reflexivity).
    rewrite Prim2SF_zero. cbn [sval]. lia.
Qed.

(** From [0 < r1 <= r2] on floats: [r2] is positive as well, and the
    values are ordered. *)
Lemma leb_positive (r1 r2 : float) :
  (0 <? r1)%float = true -> (r1 <=? r2)%float = true ->
  (0 <? r2)%float = true /\ sval (Prim2SF r1) <= sval (Prim2SF r2).
Proof.
  intros H1 H12. apply positive_sval in H1 as [G1 S1].
  assert (G2 : good r2).
  { rewrite FloatAxioms.leb_spec in H12. unfold good in *.
    destruct (Prim2SF r1) as [s1|s1| |s1 m1 e1]; cbn [sf_good] in G1;
      try contradiction; subst s1;
    destruct (Prim2SF r2) as [s2|s2| |s2 m2 e2]; cbn [sf_good];
      try discriminate H12; destruct s2; try discriminate H12; try reflexivity.
    cbn [sval] in S1. lia. }
  rewrite good_leb in H12 by assumption.
  split; [apply positive_sval; split; [exact G2|] |]; lia.
Qed.

Lemma leb_one_trans (r1 r2 : float) :
  (0 <? r1)%float = true -> (r1 <=? r2)%float = true -> (r2 <=? 1)%float = true ->
  (r1 <=? 1)%float = true.
Proof.
  intros H1 H12 H2.
  destruct (leb_positive r1 r2 H1 H12) as [Hp2 Hs].
  pose proof (positive_good r1 H1) as G1. pose proof (positive_good r2 Hp2) as G2.
  rewrite good_leb in H2 |- * by (try assumption; reflexivity). lia.
Qed.

Lemma top_indices_ratio (sentences : list str) (r : float) :
  sentences <> [] -> Z.of_nat (length sentences) < 2 ^ 53 ->
  (0 <? r)%float = true -> (r <=? 1)%float = true ->
  let n := Z.of_nat (length sentences) in
  let k := round_val (n * 2 ^ 1074 * sval (Prim2SF r)) / 2 ^ 1074 in
  int_of_float (float_of_Z n * r) = Ok k /\ 0 <= k <= n /\
  exists idx,
    AdvancedPDFCompressor.top_indices sentences r = Ok idx /\
    Z.of_nat (length idx) = Z.max 1 k.
Proof.
  intros Hne Hlen Hpos Hle n k.
  assert (Hn : 0 < n < 2 ^ 53).
  { unfold n. destruct sentences; [contradiction|]. cbn [length] in *. lia. }
  destruct (int_of_product n r Hn Hpos Hle) as [Hint Hk]. fold k in Hint, Hk.
  split; [exact Hint|]. split; [exact Hk|].
  destruct (top_indices_unfold sentences r) as (scores & _ & Hl & ->).
  fold n. rewrite Hint. eexists. split; [reflexivity|].
  destruct (selection_props scores (Z.to_nat (Z.max 1 k))) as (_ & _ & Hsel & _).
  cbv zeta in Hsel. rewrite Hsel, Hl. unfold n in *. lia.
Qed.

(** ** The floor of the product, exact and rounded *)

Lemma floor_sandwich (n : Z) (r : float) :
  0 < n < 2 ^ 53 ->
  (0 <? r)%float = true -> (r <=? 1)%float = true ->
  exact_floor n r <= rounded_floor n r <= exact_floor n r + 1 /\
  0 <= exact_floor n r <= n /\
  rounded_floor n r <= n /\
  (rounded_floor n r = exact_floor n r + 1 ->
   round_val (n * 2 ^ 1074 * sval (Prim2SF r)) = (exact_floor n r + 1) * 2 ^ 1074).
Proof.
  intros Hn Hpos Hle.
  destruct (int_of_product n r Hn Hpos Hle) as [_ Hk].
  destruct (ratio_float r Hpos Hle) as (m & e & Er & Hr1).
  pose proof (proj1 (positive_sval r) Hpos) as [_ Hr0].
  unfold exact_floor, rounded_floor in *.
  set (S := sval (Prim2SF r)) in *.
  set (N := n * 2 ^ 1074 * S) in *.
  set (F := n * S / 2 ^ 1074).
  assert (Hp : 0 < 2 ^ 1074) by (apply pow2_pos; lia).
  assert (H2148 : 2 ^ 2148 = 2 ^ 1074 * 2 ^ 1074)
    by (rewrite <- Z.pow_add_r by lia; reflexivity).
  assert (HF : F * 2 ^ 1074 <= n * S < (F + 1) * 2 ^ 1074).
  { unfold F. pose proof (Z.mul_div_le (n * S) (2 ^ 1074) Hp).
    pose proof (Z.mul_succ_div_gt (n * S) (2 ^ 1074) Hp). lia. }
  assert (HF0 : 0 <= F) by (apply Z.div_pos; nia).
  assert (HFn : F <= n).
  { apply Z.div_le_upper_bound; [lia|]. nia. }
  assert (HN : F * 2 ^ 2148 <= N < (F + 1) * 2 ^ 2148).
  { unfold N. rewrite H2148. nia. }
  assert (Hlow : F <= round_val N / 2 ^ 1074).
  { destruct (Z.eq_dec F 0) as [E|E]; [lia|].
    apply Z.div_le_lower_bound; [lia|].
    rewrite Z.mul_comm, <- (round_val_exact F) by lia.
    apply round_val_mono; [nia | lia]. }
  assert (Hup : F + 1 <= n -> round_val N <= (F + 1) * 2 ^ 1074).
  { intros H. rewrite <- (round_val_exact (F + 1)) by lia.
    apply round_val_mono; [nia | lia]. }
  assert (Hhigh : round_val N / 2 ^ 1074 <= F + 1).
  { destruct (Z.eq_dec F n) as [E|E]; [lia|].
    apply Z.div_le_upper_bound; [lia|]. specialize (Hup ltac:(lia)). lia. }
  split; [lia|]. split; [lia|]. split; [lia|].
  intros E. destruct (Z.eq_dec F n) as [E'|E']; [lia|].
  specialize (Hup ltac:(lia)).
  pose proof (Z.mul_div_le (round_val N) (2 ^ 1074) Hp) as H. rewrite E in H. lia.
Qed.

(** C5 (amended). For a non-empty sequence of [n] sentences, [n] below
    2^53, and a ratio [r] in (0, 1], the selector keeps exactly
    [max(1, k)] sentences, where [k = int(n * r)] is the floor of the
    binary64 number nearest to the real product [n * r]: at least one
    sentence and at most [n].  This [k] is the floor of the real product
    or one more, and one more only when the product rounds up to that
    integer. *)
Theorem selector_keeps_max_1_floor (sentences : list str) (r : float) :
  sentences <> [] -> Z.of_nat (length sentences) < 2 ^ 53 ->
  (0 <? r)%float = true -> (r <=? 1)%float = true ->
  let n := Z.of_nat (length sentences) in
  exists idx,
    int_of_float (float_of_Z n * r) = Ok (rounded_floor n r) /\
    AdvancedPDFCompressor.top_indices sentences r = Ok idx /\
    Z.of_nat (length idx) = Z.max 1 (rounded_floor n r) /\
    (1 <= length idx <= length sentences)%nat /\
    exact_floor n r <= rounded_floor n r <= exact_floor n r + 1 /\
    (rounded_floor n r = exact_floor n r + 1 ->
     round_val (n * 2 ^ 1074 * sval (Prim2SF r)) = (exact_floor n r + 1) * 2 ^ 1074).
Proof.
  intros Hne Hlen Hpos Hle n.
  destruct (top_indices_ratio sentences r Hne Hlen Hpos Hle)
    as (Hint & Hk & idx & Hidx & Hl).
  cbv zeta in Hint, Hk, Hl. fold n in Hint, Hk, Hl.
  assert (Hn : 0 < n < 2 ^ 53).
  { assert (length sentences <> 0)%nat
      by (destruct sentences; [congruence | discriminate]).
    unfold n. lia. }
  destruct (floor_sandwich n r Hn Hpos Hle) as (H1 & _ & _ & H4).
  exists idx. split; [exact Hint|]. split; [exact Hidx|]. split; [exact Hl|].
  split; [|split; [exact H1 | exact H4]].
  change (round_val (n * 2 ^ 1074 * sval (Prim2SF r)) / 2 ^ 1074)
    with (rounded_floor n r) in Hk, Hl.
  set (K := rounded_floor n r) in *. clearbody K. unfold n in *. lia.
Qed.

Lemma selector_keeps_max_1_floor_witness :
  exists idx,
    AdvancedPDFCompressor.top_indices
      (AdvancedPDFCompressor.sentence_tokenize
         (lit "The cat sat. 2024 was a good year. The cat sat.")) 0.5 = Ok idx /\
    Z.of_nat (length idx) = 1.
Proof.
  destruct (selector_keeps_max_1_floor
              (AdvancedPDFCompressor.sentence_tokenize
                 (lit "The cat sat. 2024 was a good year. The cat sat.")) 0.5)
    as (idx & _ & H1 & H2 & _).
  - vm_compute. discriminate.
  - vm_compute. reflexivity.
  - reflexivity.
  - reflexivity.
  - exists idx. split; [exact H1|]. rewrite H2. vm_compute. reflexivity.
Defined.

(** C5 as stated fails: with ten sentences and the ratio 0.3 (the float
    0x1.3333333333333p-2, just below three tenths) the real product is
    below 3 and its floor is 2, but the binary64 product is 3.0 and the
    selector keeps three sentences. *)
Lemma selector_floor_counterexample :
  (0 <? 0x1.3333333333333p-2)%float = true /\
  (0x1.3333333333333p-2 <=? 1)%float = true /\
  AdvancedPDFCompressor.top_indices (repeat (lit "Cats purr.") 10) 0x1.3333333333333p-2
    = Ok [0; 1; 2]%nat /\
  Z.max 1 (exact_floor 10 0x1.3333333333333p-2) = 2.
Proof.
  split; [reflexivity|]. split; [reflexivity|].
  split; vm_compute; reflexivity.
Qed.

(** C9. For a fixed non-empty sequence of sentences, the number of
    sentences kept does not decrease when the ratio grows within (0, 1]. *)
Theorem retention_monotone (sentences : list str) (r1 r2 : float) :
  sentences <> [] -> Z.of_nat (length sentences) < 2 ^ 53 ->
  (0 <? r1)%float = true -> (r1 <=? r2)%float = true -> (r2 <=? 1)%float = true ->
  exists idx1 idx2,
    AdvancedPDFCompressor.top_indices sentences r1 = Ok idx1 /\
    AdvancedPDFCompressor.top_indices sentences r2 = Ok idx2 /\
    (length idx1 <= length idx2)%nat.
Proof.
  intros Hne Hlen H1 H12 H2.
  destruct (leb_positive r1 r2 H1 H12) as [Hp2 Hs].
  pose proof (leb_one_trans r1 r2 H1 H12 H2) as Hle1.
  destruct (top_indices_ratio sentences r1 Hne Hlen H1 Hle1) as (_ & Hk1 & idx1 & Hi1 & Hl1).
  destruct (top_indices_ratio sentences r2 Hne Hlen Hp2 H2) as (_ & Hk2 & idx2 & Hi2 & Hl2).
  exists idx1, idx2. split; [exact Hi1|]. split; [exact Hi2|].
  cbv zeta in *.
  set (n := Z.of_nat (length sentences)) in *.
  assert (Hmono : round_val (n * 2 ^ 1074 * sval (Prim2SF r1)) / 2 ^ 1074
                  <= round_val (n * 2 ^ 1074 * sval (Prim2SF r2)) / 2 ^ 1074).
  { assert (Hp : 0 < 2 ^ 1074) by (apply pow2_pos; lia).
    apply positive_sval in H1 as [_ S1].
    assert (Hn : 0 <= n) by (unfold n; lia).
    apply Z.div_le_mono; [lia|]. apply round_val_mono.
    - apply Z.mul_nonneg_nonneg; [apply Z.mul_nonneg_nonneg|]; lia.
    - apply Z.mul_le_mono_nonneg_l; [apply Z.mul_nonneg_nonneg; lia | exact Hs]. }
  lia.
Qed.

Lemma retention_monotone_witness :
  exists idx1 idx2,
    AdvancedPDFCompressor.top_indices
      (map lit ["The cat sat."; "2024 was a good year."; "The cat sat."]%string)
      0.25 = Ok idx1 /\
    AdvancedPDFCompressor.top_indices
      (map lit ["The cat sat."; "2024 was a good year."; "The cat sat."]%string)
      0.75 = Ok idx2 /\
    (length idx1 <= length idx2)%nat.
Proof.
  apply (retention_monotone
           (map lit ["The cat sat."; "2024 was a good year."; "The cat sat."]%string)
           0.25 0.75).
  - discriminate.
  - vm_compute. reflexivity.
  - reflexivity.
  - reflexivity.
  - reflexivity.
Defined.

(** ** Normalisation never lengthens a text *)

Lemma run_le_length (f : char -> bool) (s : str) : (run f s <= length s)%nat.
Proof.
  induction s as [|c s IH]; cbn [run length]; [lia|].
  destruct (f c); lia.
Qed.

Lemma scan_sub_length (p : pattern) (repl : str -> str) :
  (forall before rest k, p before rest = Some (S k) ->
     (length (repl (take (S k) rest)) <= length (take (S k) rest))%nat) ->
  forall rest before skip,
    (length (concat (map (sub_piece repl) (scan p before rest skip)))
       + Nat.min skip (length rest) <= length rest)%nat.
Proof.
  intros Hrepl. induction rest as [|c rest IH]; intros before skip.
  - cbn. lia.
  - cbn [scan]. destruct skip as [|k].
    + destruct (p before (c :: rest)) as [[|k]|] eqn:Ep.
      * cbn [map concat sub_piece]. rewrite length_app. cbn [length].
        specialize (IH (c :: before) 0%nat). lia.
      * cbn [map concat sub_piece]. rewrite length_app.
        specialize (Hrepl _ _ _ Ep). specialize (IH (c :: before) k).
        rewrite length_take in Hrepl. cbn [length] in *. lia.
      * cbn [map concat sub_piece]. rewrite length_app. cbn [length].
        specialize (IH (c :: before) 0%nat). lia.
    + specialize (IH (c :: before) k). cbn [length]. lia.
Qed.

Lemma re_sub_length (p : pattern) (repl : str -> str) (text : str) :
  (forall before rest k, p before rest = Some (S k) ->
     (length (repl (take (S k) rest)) <= length (take (S k) rest))%nat) ->
  (length (re_sub p repl text) <= length text)%nat.
Proof.
  intros Hrepl. unfold re_sub, finditer.
  pose proof (scan_sub_length p repl Hrepl text [] 0%nat). lia.
Qed.

Lemma some_positive_inv (n k : nat) : some_positive n = Some k -> n = k /\ (0 < k)%nat.
Proof. destruct n; cbn; [discriminate|]. intros [= <-]. lia. Qed.

Lemma clean_length (text : str) :
  (length (AdvancedPDFCompressor.clean text) <= length text)%nat.
Proof.
  unfold AdvancedPDFCompressor.clean.
  etransitivity; [apply re_sub_length | apply re_sub_length].
  - intros before rest k Hp. unfold pat_char_run in Hp.
    destruct rest as [|c rest]; [discriminate|].
    destruct (char_eqb c newline); [discriminate|].
    destruct (Nat.leb_spec 4 (run (char_eqb c) rest)) as [H4|H4]; [|discriminate].
    injection Hp as <-.
    pose proof (run_le_length (char_eqb c) rest).
    rewrite length_take. cbn [take twice_first length]. lia.
  - intros before rest k Hp. unfold pat_spaces in Hp.
    apply some_positive_inv in Hp as [Hrun _].
    pose proof (run_le_length isspace rest).
    rewrite length_take. cbn [length]. lia.
Qed.

(** ** Below the threshold *)

(** C2 (amended). For a text whose estimate [n] satisfies
    [1 <= n <= max_tokens] (and a compression ratio in (0, 1]),
    [compress] returns the normalised text without summarising;
    [original_tokens] is the estimate of the raw text and [final_tokens]
    the estimate of the normalised text, which is at most
    [original_tokens]. *)
Theorem compress_below_threshold (mt : Z) (cr : float) (text : str) :
  let n := AdvancedPDFCompressor.estimate_tokens text in
  0 < n <= mt -> n < 2 ^ 53 ->
  (0 <? cr)%float = true -> (cr <=? 1)%float = true ->
  AdvancedPDFCompressor.compress (AdvancedPDFCompressor.init mt cr) text
    = Ok (Report n
            (AdvancedPDFCompressor.estimate_tokens (AdvancedPDFCompressor.clean text))
            (AdvancedPDFCompressor.clean text)) /\
  AdvancedPDFCompressor.estimate_tokens (AdvancedPDFCompressor.clean text) <= n.
Proof.
  intros n Hn Hlt Hpos Hle. split.
  - unfold AdvancedPDFCompressor.compress.
    cbn [AdvancedPDFCompressor.compression_ratio AdvancedPDFCompressor.max_tokens
         AdvancedPDFCompressor.init].
    fold n.
    destruct (int_of_product n cr ltac:(lia) Hpos Hle) as [-> _].
    cbn [mbind result_bind].
    destruct (Z.leb_spec n mt) as [_|H]; [|lia].
    cbn [mbind result_bind]. rewrite truediv_nonzero by lia. reflexivity.
  - unfold n, AdvancedPDFCompressor.estimate_tokens.
    apply Z.div_le_mono; [lia|].
    pose proof (clean_length text). lia.
Qed.

Lemma compress_below_threshold_witness :
  AdvancedPDFCompressor.compress (AdvancedPDFCompressor.init 100 0.5)
    (lit "aaaaaaaa   bbbb.  c") = Ok (Report 4 2 (lit "aa bbbb. c")).
Proof.
  assert (Hn : 0 < AdvancedPDFCompressor.estimate_tokens (lit "aaaaaaaa   bbbb.  c") <= 100)
    by (vm_compute; split; [reflexivity | discriminate]).
  assert (Hlt : AdvancedPDFCompressor.estimate_tokens (lit "aaaaaaaa   bbbb.  c") < 2 ^ 53)
    by (vm_compute; reflexivity).
  exact (proj1 (compress_below_threshold 100 0.5 (lit "aaaaaaaa   bbbb.  c")
                  Hn Hlt eq_refl eq_refl)).
Defined.

(** C2 as stated fails: below the threshold the final estimate is that
    of the normalised text, here 0 against an original estimate of 2. *)
Lemma final_tokens_differ_counterexample :
  AdvancedPDFCompressor.estimate_tokens (lit "aaaaaaaa") <= 100 /\
  exists r,
    AdvancedPDFCompressor.compress (AdvancedPDFCompressor.init 100 0.5) (lit "aaaaaaaa")
      = Ok r /\
    compressed r = AdvancedPDFCompressor.clean (lit "aaaaaaaa") /\
    final_tokens r <> original_tokens r.
Proof.
  split; [vm_compute; discriminate|].
  exists (Report 2 0 (lit "aa")).
  split; [vm_compute; reflexivity|].
  split; [vm_compute; reflexivity | discriminate].
Qed.

(** ** Floats that are not negative stay so *)

Lemma round_spec_good (num den mx ex : Z) :
  0 < den -> 0 <= num -> sf_good (round_spec false num den mx ex).
Proof.
  intros Hden Hnum. unfold round_spec.
  set (k := Z.max 0 (fexp prec emax (Zdigits2 mx + ex) - ex)).
  assert (0 < den * 2 ^ k).
  { assert (0 < 2 ^ k) by (apply pow2_pos; unfold k; lia). nia. }
  pose proof (rne_nonneg num (den * 2 ^ k) ltac:(lia) Hnum) as Hm2.
  destruct (rne num (den * 2 ^ k) =? 2 ^ 53).
  - change (2 ^ 52) with 4503599627370496. destruct (_ <=? _); reflexivity.
  - destruct (rne num (den * 2 ^ k)) as [|p|p]; try lia; [reflexivity|].
    destruct (_ <=? _); reflexivity.
Qed.

Lemma bra_exact_good (m : positive) (e : Z) :
  sf_good (binary_round_aux prec emax false (Z.pos m) e loc_Exact).
Proof.
  rewrite (bra_spec false (Z.pos m) 1 (Z.pos m) e loc_Exact);
    [| lia | lia | rewrite Z.div_1_r; reflexivity | apply loc_of_frac_den_1].
  apply round_spec_good; lia.
Qed.

Lemma good_add (x y : float) : good x -> good y -> good (x + y).
Proof.
  unfold good. rewrite FloatAxioms.add_spec. unfold SF64add.
  destruct (Prim2SF x) as [sx|sx| |sx mx ex]; cbn [sf_good]; try contradiction;
    intros ->;
    destruct (Prim2SF y) as [sy|sy| |sy my ey]; cbn [sf_good]; try contradiction;
    intros ->; cbn [SFadd sf_good]; try reflexivity.
  cbn [cond_Zopp].
  set (a := fst (shl_align mx ex (Z.min ex ey))).
  set (b := fst (shl_align my ey (Z.min ex ey))).
  change (Z.pos a + Z.pos b) with (Z.pos (a + b)).
  cbn [binary_normalize]. unfold binary_round.
  destruct (shl_align (a + b) _ _) as [mz ez]. apply bra_exact_good.
Qed.

Lemma good_mul_finite (x c : float) (mc : positive) (ec : Z) :
  Prim2SF c = S754_finite false mc ec -> good x -> good (x * c).
Proof.
  intros Hc. unfold good. rewrite FloatAxioms.mul_spec, Hc. unfold SF64mul.
  destruct (Prim2SF x) as [sx|sx| |sx mx ex]; cbn [sf_good]; try contradiction;
    intros ->; cbn [SFmul xorb sf_good]; try reflexivity.
  apply bra_exact_good.
Qed.

(** Adding zero to a float that is not negative changes nothing. *)
Lemma add_zero_r (x : float) : good x -> (x + 0)%float = x.
Proof.
  unfold good. intros Hx. apply Prim2SF_inj.
  rewrite FloatAxioms.add_spec, Prim2SF_zero. unfold SF64add.
  destruct (Prim2SF x) as [sx|sx| |sx mx ex]; cbn [sf_good] in Hx; try contradiction;
    subst sx; reflexivity.
Qed.

Lemma good_zero : good 0.
Proof. reflexivity. Qed.

(** ** Division of two counts *)

Lemma new_location_frac (num den : Z) :
  0 < den -> new_location den (num mod den) = loc_of_frac num den.
Proof.
  intros Hden. pose proof (Z.mod_pos_bound num den Hden) as Hk.
  unfold new_location, new_location_even, new_location_odd, loc_of_frac.
  pose proof (Zmod_even den) as Hev. pose proof (Z.div_mod den 2 ltac:(lia)) as Hdm.
  destruct (Z.even den); destruct (num mod den =? 0); try reflexivity.
  f_equal.
  destruct (Z.compare_spec (2 * (num mod den) + 1) den);
    destruct (Z.compare_spec (2 * (num mod den)) den); try reflexivity; lia.
Qed.

Lemma div_core_normal (mc mm : positive) (ec em : Z) :
  Z.pos (digits2_pos mc) = 53 -> Z.pos (digits2_pos mm) = 53 ->
  -52 <= ec <= 0 -> -52 <= em <= 0 ->
  SFdiv_core_binary prec emax (Z.pos mc) ec (Z.pos mm) em
    = (Z.pos mc * 2 ^ 53 / Z.pos mm, ec - em - 53,
       loc_of_frac (Z.pos mc * 2 ^ 53) (Z.pos mm)).
Proof.
  intros Hdc Hdm Hec Hem. unfold SFdiv_core_binary. cbn [Zdigits2].
  rewrite Hdc, Hdm.
  replace (Z.min (fexp prec emax (53 + ec - (53 + em))) (ec - em)) with (ec - em - 53)
    by (unfold fexp, SpecFloat.emin, prec, emax; lia).
  replace (ec - em - (ec - em - 53)) with 53 by lia.
  cbv iota. rewrite Z.shiftl_mul_pow2 by lia.
  rewrite <- (new_location_frac (Z.pos mc * 2 ^ 53) (Z.pos mm)) by lia.
  unfold Z.div, Z.modulo.
  destruct (Z.div_eucl (Z.pos mc * 2 ^ 53) (Z.pos mm)) as [q r]. reflexivity.
Qed.

Lemma Zdigits2_range (q lo hi : Z) :
  0 < q -> 2 ^ lo <= q < 2 ^ hi -> 0 <= lo -> lo < Zdigits2 q <= hi.
Proof.
  intros Hq [Hlo Hhi] H0. pose proof (Zdigits2_bounds q Hq) as [Hl Hu].
  pose proof (Zdigits2_nonneg q). split.
  - destruct (Z.lt_ge_cases lo (Zdigits2 q)) as [H1|H1]; [exact H1|].
    assert (2 ^ Zdigits2 q <= 2 ^ lo) by (apply Z.pow_le_mono_r; lia). lia.
  - destruct (Z.le_gt_cases (Zdigits2 q) hi) as [H1|H1]; [exact H1|].
    assert (2 ^ hi <= 2 ^ (Zdigits2 q - 1)) by (apply Z.pow_le_mono_r; lia). lia.
Qed.

(** The quotient of two normal mantissas, rounded: a finite float with
    the value of the rounded fraction. *)
Lemma round_spec_quotient (num den e' : Z) :
  0 < den -> 2 ^ 52 <= num / den < 2 ^ 54 -> -200 <= e' <= 0 ->
  let k := Zdigits2 (num / den) - 53 in
  let m2 := rne num (den * 2 ^ k) in
  0 <= k <= 1 /\ 2 ^ 52 <= m2 /\
  exists m3 e3,
    round_spec false num den (num / den) e' = S754_finite false m3 e3 /\
    Z.pos m3 * 2 ^ (e3 + 1074) = m2 * 2 ^ (e' + k + 1074).
Proof.
  intros Hden HQ He' k m2.
  set (Q := num / den) in *.
  assert (HQ0 : 0 < Q) by (assert (0 < 2 ^ 52) by (apply pow2_pos; lia); lia).
  pose proof (Zdigits2_range Q 52 54 HQ0 HQ ltac:(lia)) as Hd.
  pose proof (Zdigits2_bounds Q HQ0) as [HQlo HQhi].
  assert (Hk : 0 <= k <= 1) by (unfold k; lia).
  assert (Hpk : 0 < 2 ^ k) by (apply pow2_pos; lia).
  assert (Hnum : 0 <= num).
  { destruct (Z.le_gt_cases 0 num) as [H|H]; [exact H|].
    assert (Q < 0) by (apply Z.div_lt_upper_bound; lia). lia. }
  assert (Hdm : Q * den <= num).
  { pose proof (Z.mul_div_le num den Hden). unfold Q. lia. }
  assert (Hm2 : 2 ^ 52 <= m2).
  { unfold m2. apply rne_ge; [nia|].
    rewrite Z.mul_assoc, (Z.mul_comm (2 ^ 52)), <- Z.mul_assoc, <- Z.pow_add_r by lia.
    replace (52 + k) with (Zdigits2 Q - 1) by (unfold k; lia).
    rewrite Z.mul_comm. nia. }
  assert (Hm2u : m2 <= 2 ^ 53).
  { unfold m2. apply rne_le; [nia|].
    assert (Hlt : num < (Q + 1) * den).
    { pose proof (Z.mod_pos_bound num den Hden). pose proof (Z.div_mod num den ltac:(lia)).
      fold Q in H0. nia. }
    assert (Q + 1 <= 2 ^ Zdigits2 Q) by lia.
    replace (Zdigits2 Q) with (53 + k) in H by (unfold k; lia).
    rewrite Z.pow_add_r in H by lia. nia. }
  split; [exact Hk|]. split; [exact Hm2|].
  unfold round_spec. fold Q.
  replace (fexp prec emax (Zdigits2 Q + e')) with (Zdigits2 Q + e' - 53)
    by (unfold fexp, SpecFloat.emin, prec, emax; lia).
  replace (Z.max 0 (Zdigits2 Q + e' - 53 - e')) with k by (unfold k; lia).
  fold m2.
  destruct (Z.eqb_spec m2 (2 ^ 53)) as [E|E].
  - change (2 ^ 52) with 4503599627370496.
    destruct (Z.leb_spec (e' + k + 1) 971); [|lia].
    eexists _, _. split; [reflexivity|]. rewrite E.
    replace (e' + k + 1 + 1074) with (1 + (e' + k + 1074)) by lia.
    rewrite (Z.pow_add_r 2 1) by lia. change (2 ^ 1) with 2.
    change (2 ^ 53) with 9007199254740992. lia.
  - assert (0 < 2 ^ 52) by (apply pow2_pos; lia).
    destruct m2 as [|p|p] eqn:Em; try lia.
    destruct (Z.leb_spec (e' + k) 971); [|lia].
    eexists _, _. split; reflexivity.
Qed.

(** A count divided by a count that is no smaller: a frequency in (0, 1],
    and exactly 1 when the two are equal. *)
Lemma frequency_props (mx c : Z) :
  0 < c <= mx -> mx < 2 ^ 53 ->
  good (frequency mx c) /\
  0 < sval (Prim2SF (frequency mx c)) <= 2 ^ 1074 /\
  (c = mx -> frequency mx c = 1%float).
Proof.
  intros Hc Hmx.
  destruct (float_of_Z_exact c ltac:(lia)) as (mc & ec & Ec & Hdc & Hec & Hmc).
  destruct (float_of_Z_exact mx ltac:(lia)) as (mm & em & Em & Hdm & Hem & Hmm).
  pose proof (digits2_pos_bounds mc) as [Hclo Hchi]. rewrite Hdc in Hclo, Hchi.
  pose proof (digits2_pos_bounds mm) as [Hmlo Hmhi]. rewrite Hdm in Hmlo, Hmhi.
  change (2 ^ (53 - 1)) with (2 ^ 52) in *.
  assert (P52 : 0 < 2 ^ 52) by (apply pow2_pos; lia).
  assert (E53 : 2 ^ 53 = 2 * 2 ^ 52) by reflexivity.
  assert (E54 : 2 ^ 54 = 4 * 2 ^ 52) by reflexivity.
  (* the smaller count is shifted at least as far *)
  assert (Hexp : ec <= em).
  { destruct (Z.le_gt_cases ec em) as [H|H]; [exact H|]. exfalso.
    assert (Hs : 2 ^ (- em) = 2 ^ (ec - em) * 2 ^ (- ec))
      by (rewrite <- Z.pow_add_r by lia; f_equal; lia).
    assert (2 ^ 1 <= 2 ^ (ec - em)) by (apply Z.pow_le_mono_r; lia).
    change (2 ^ 1) with 2 in *.
    assert (0 < 2 ^ (- ec)) by (apply pow2_pos; lia).
    rewrite Hs in Hmm. nia. }
  set (num := Z.pos mc * 2 ^ 53). set (den := Z.pos mm).
  assert (Hden : 0 < den) by (unfold den; lia).
  assert (HQ : 2 ^ 52 <= num / den < 2 ^ 54).
  { unfold num, den. split.
    - apply Z.div_le_lower_bound; [lia|]. nia.
    - apply Z.div_lt_upper_bound; [lia|]. nia. }
  destruct (round_spec_quotient num den (ec - em - 53) Hden HQ ltac:(lia))
    as (Hk & Hm2 & m3 & e3 & Hr & Hv).
  set (k := Zdigits2 (num / den) - 53) in *.
  set (m2 := rne num (den * 2 ^ k)) in *.
  assert (Hq : Prim2SF (frequency mx c) = S754_finite false m3 e3).
  { unfold frequency. rewrite FloatAxioms.div_spec, Ec, Em. unfold SF64div.
    cbn [SFdiv xorb]. rewrite div_core_normal by assumption.
    fold num den. rewrite <- Hr.
    apply bra_spec; [exact Hden | unfold num; lia | reflexivity | reflexivity]. }
  (* the rounded mantissa does not exceed 2^(53 + em - ec - k), that is 1.0 *)
  assert (Hpk : 0 < 2 ^ k) by (apply pow2_pos; lia).
  assert (Hle : num <= 2 ^ (53 + em - ec - k) * (den * 2 ^ k)).
  { rewrite (Z.mul_comm den), Z.mul_assoc, <- Z.pow_add_r by lia.
    replace (53 + em - ec - k + k) with (53 + (em - ec)) by lia.
    rewrite Z.pow_add_r by lia. unfold num, den.
    assert (Hs : 2 ^ (- ec) = 2 ^ (em - ec) * 2 ^ (- em))
      by (rewrite <- Z.pow_add_r by lia; f_equal; lia).
    assert (Z.pos mc <= 2 ^ (em - ec) * Z.pos mm).
    { rewrite Hmc, Hmm, Hs.
      assert (0 < 2 ^ (em - ec)) by (apply pow2_pos; lia).
      assert (0 < 2 ^ (- em)) by (apply pow2_pos; lia). nia. }
    nia. }
  assert (Hm2u : m2 <= 2 ^ (53 + em - ec - k)) by (apply rne_le; [nia | exact Hle]).
  assert (Hval : Z.pos m3 * 2 ^ (e3 + 1074) <= 2 ^ 1074).
  { rewrite Hv.
    replace (2 ^ 1074) with (2 ^ (53 + em - ec - k) * 2 ^ (ec - em - 53 + k + 1074))
      by (rewrite <- Z.pow_add_r by lia; f_equal; lia).
    apply Z.mul_le_mono_nonneg_r; [apply Z.lt_le_incl, pow2_pos; lia | exact Hm2u]. }
  unfold good. rewrite Hq. cbn [sf_good sval].
  split; [reflexivity|]. split.
  - split; [|exact Hval].
    pose proof (Prim2SF_valid (frequency mx c)) as Hvb. rewrite Hq in Hvb.
    apply (sval_finite_bounds false m3 e3 Hvb).
  - intros ->. apply Prim2SF_inj. rewrite Hq, Prim2SF_one.
    rewrite Ec in Em. injection Em as <- <-.
    assert (Hnd : num / den = 2 ^ 53).
    { unfold num, den. rewrite Z.mul_comm. apply Z.div_mul. lia. }
    assert (Hk1 : k = 1) by (unfold k; rewrite Hnd; reflexivity).
    assert (Hm2e : m2 = 2 ^ 52).
    { unfold m2. rewrite Hk1. unfold num, den. change (2 ^ 1) with 2.
      replace (Z.pos mc * 2 ^ 53) with (2 ^ 52 * (Z.pos mc * 2)) by (rewrite E53; ring).
      apply rne_exact. lia. }
    pose proof (Prim2SF_valid (frequency mx mx)) as Hvb. rewrite Hq in Hvb.
    apply valid_finite in Hvb as (He3 & Hd3 & Hcan).
    rewrite Hm2e, Hk1 in Hv.
    replace (ec - ec - 53 + 1 + 1074) with 1022 in Hv by lia.
    (* a valid float of value 2^52 * 2^1022 is 1.0 *)
    pose proof (digits2_pos_bounds m3) as [H3lo H3hi].
    assert (He : e3 = -52).
    { destruct Hcan as [Hn|Hs].
      - rewrite Hn in H3lo, H3hi. change (2 ^ (53 - 1)) with (2 ^ 52) in H3lo.
        destruct (Z.lt_trichotomy e3 (-52)) as [H|[H|H]]; [|exact H|]; exfalso.
        + assert (2 ^ (e3 + 1074) * 2 <= 2 ^ 1022).
          { replace (2 ^ 1022) with (2 ^ (e3 + 1074) * 2 ^ (- 52 - e3))
              by (rewrite <- Z.pow_add_r by lia; f_equal; lia).
            apply Z.mul_le_mono_nonneg_l; [apply Z.lt_le_incl, pow2_pos; lia|].
            change 2 with (2 ^ 1) at 1. apply Z.pow_le_mono_r; lia. }
          assert (0 < 2 ^ (e3 + 1074)) by (apply pow2_pos; lia). nia.
        + assert (2 ^ 1022 * 2 <= 2 ^ (e3 + 1074)).
          { replace (2 ^ (e3 + 1074)) with (2 ^ 1022 * 2 ^ (e3 + 52))
              by (rewrite <- Z.pow_add_r by lia; f_equal; lia).
            apply Z.mul_le_mono_nonneg_l; [apply Z.lt_le_incl, pow2_pos; lia|].
            change 2 with (2 ^ 1) at 1. apply Z.pow_le_mono_r; lia. }
          assert (0 < 2 ^ 1022) by (apply pow2_pos; lia). nia.
      - exfalso. subst e3. change (2 ^ (-1074 + 1074)) with 1 in Hv.
        assert (2 ^ Z.pos (digits2_pos m3) <= 2 ^ 53) by (apply Z.pow_le_mono_r; lia).
        assert (2 ^ 53 < 2 ^ 52 * 2 ^ 1022)
          by (rewrite <- Z.pow_add_r by lia; apply Z.pow_lt_mono_r; lia).
        lia. }
    subst e3. change (-52 + 1074) with 1022 in Hv.
    assert (0 < 2 ^ 1022) by (apply pow2_pos; lia).
    assert (Z.pos m3 = 2 ^ 52) by nia.
    f_equal. change (2 ^ 52) with (Z.pos 4503599627370496) in H0. congruence.
Qed.

(** ** The tokens *)

Lemma lower_char_idem (c : char) : lower_char (lower_char c) = lower_char c.
Proof. destruct c as [[] [] [] [] [] [] [] []]; reflexivity. Qed.

Lemma scan_hits_chars (p : pattern) : forall rest before skip m c,
  In m (hits (scan p before rest skip)) -> In c m -> In c rest.
Proof.
  induction rest as [|x rest IH]; intros before skip m c Hm Hc; [destruct Hm|].
  cbn [scan] in Hm. destruct skip as [|k].
  - destruct (p before (x :: rest)) as [[|k]|] eqn:Ep; cbn [hits] in Hm.
    + right. eapply IH; eauto.
    + destruct Hm as [<-|Hm].
      * apply list_elem_of_In. apply list_elem_of_In in Hc.
        eapply elem_of_sublist; [exact Hc | apply sublist_take].
      * right. eapply IH; eauto.
    + right. eapply IH; eauto.
  - right. eapply IH; eauto.
Qed.

Lemma words_of_lower (sentence w : str) :
  In w (AdvancedPDFCompressor.words_of sentence) -> lower w = w.
Proof.
  unfold AdvancedPDFCompressor.words_of, re_findall, finditer. intros Hw.
  unfold lower at 1. rewrite <- (map_id w) at 2. apply map_ext_in.
  intros c Hc. pose proof (scan_hits_chars _ _ _ _ _ _ Hw Hc) as Hin.
  unfold lower in Hin. apply in_map_iff in Hin as (c0 & <- & _).
  apply lower_char_idem.
Qed.

Lemma surviving_props (sentences : list str) (w : str) :
  w ∈ surviving sentences ->
  lower w = w /\ (w ∉ AdvancedPDFCompressor.stop_words) /\ (2 < length w)%nat.
Proof.
  unfold surviving. intros Hw. apply list_elem_of_In, filter_In in Hw as [Hin Hk].
  apply in_concat in Hin as (ws & Hws & Hin).
  apply in_map_iff in Hws as (s & <- & _).
  split; [eapply words_of_lower; eauto|].
  unfold AdvancedPDFCompressor.keep_word in Hk.
  apply andb_prop in Hk as [Hs Hl]. apply Z.ltb_lt in Hl.
  split; [|lia].
  apply negb_true_iff, bool_decide_eq_false in Hs. exact Hs.
Qed.

Lemma occurrences_le_length (w : str) (words : list str) :
  occurrences w words <= Z.of_nat (length words).
Proof.
  unfold occurrences. apply inj_le.
  induction words as [|x words IH]; cbn [List.filter length]; [lia|].
  destruct (bool_decide (x = w)); cbn [length]; lia.
Qed.

Lemma in_unit_interval (f : float) :
  good f -> 0 < sval (Prim2SF f) <= 2 ^ 1074 ->
  (0 <? f)%float = true /\ (f <=? 1)%float = true.
Proof.
  intros Hg Hs. split.
  - apply positive_sval. split; [exact Hg | lia].
  - rewrite good_leb by (try exact Hg; reflexivity).
    rewrite Prim2SF_one.
    change (sval (S754_finite false 4503599627370496 (-52))) with (2 ^ 1074). lia.
Qed.

(** ** Word tokens and digits, against the patterns *)

Lemma runs_from_word_prefix (w : str) : forall cur r,
  forallb isword w = true -> runs_from cur (w ++ r) = runs_from (rev w ++ cur) r.
Proof.
  induction w as [|c w IH]; intros cur r Hw; [reflexivity|].
  cbn [forallb] in Hw. apply andb_prop in Hw as [Hc Hw].
  cbn [app runs_from rev]. rewrite Hc, IH by exact Hw.
  rewrite <- app_assoc. reflexivity.
Qed.

Lemma run_stops (f : char -> bool) (s : str) :
  match drop (run f s) s with
  | c :: _ => f c = false
  | [] => True
  end.
Proof.
  induction s as [|c s IH]; [exact I|].
  cbn [run]. destruct (f c) eqn:E; [exact IH | exact E].
Qed.

Lemma runs_from_stop (cur r : str) :
  match r with c :: _ => isword c = false | [] => True end ->
  runs_from cur r = flush cur ++ runs_from [] r.
Proof.
  destruct r as [|c r]; cbn [runs_from].
  - intros _. rewrite app_nil_r. reflexivity.
  - intros ->. reflexivity.
Qed.

Lemma findall_words (n : nat) : forall rest before,
  (length rest <= n)%nat -> at_boundary before rest ->
  hits (scan pat_word before rest O) = runs_from [] rest.
Proof.
  induction n as [|n IH]; intros rest before Hlen Hb.
  - destruct rest; [reflexivity | cbn in Hlen; lia].
  - destruct rest as [|c rest]; [reflexivity|].
    cbn [length] in Hlen. cbn [scan runs_from].
    destruct (isword c) eqn:Ec.
    + assert (Hp : pat_word before (c :: rest) = Some (S (run isword rest))).
      { unfold pat_word. destruct before as [|b before]; cbn [run]; rewrite Ec.
        - reflexivity.
        - cbn [at_boundary] in Hb. destruct (isword b); [|reflexivity].
          specialize (Hb eq_refl). congruence. }
      rewrite Hp. cbn [hits].
      pose proof (run_split isword rest) as Hrest.
      pose proof (run_take_all isword rest) as Hw.
      pose proof (run_length_take isword rest) as Hrun.
      pose proof (run_stops isword rest) as Hstop.
      assert (Hr : (length (drop (run isword rest) rest) <= n)%nat).
      { rewrite length_drop. lia. }
      rewrite <- Hrun.
      set (w := take (run isword rest) rest) in *.
      set (r := drop (run isword rest) rest) in *.
      clearbody w r. subst rest.
      rewrite scan_skip, runs_from_word_prefix by exact Hw.
      cbn [take]. rewrite take_app_length.
      rewrite (IH r (rev w ++ c :: before) Hr).
      * rewrite (runs_from_stop (rev w ++ [c]) r Hstop).
        assert (E : flush (rev w ++ [c]) = [c :: w]).
        { unfold flush. destruct (rev w ++ [c]) eqn:E; [destruct (rev w); discriminate|].
          rewrite <- E, rev_app_distr, rev_involutive. reflexivity. }
        rewrite E. reflexivity.
      * unfold at_boundary. destruct (rev w ++ c :: before); [exact I|].
        destruct r; [exact I|]. intros _. exact Hstop.
    + assert (Hp : match pat_word before (c :: rest) with
                   | Some (S _) => False | _ => True end).
      { unfold pat_word. destruct before as [|b before]; cbn [run]; rewrite Ec.
        - exact I.
        - destruct (isword b); exact I. }
      assert (E : scan pat_word before (c :: rest) 0
                  = Lit c :: scan pat_word (c :: before) rest 0).
      { cbn [scan]. destruct (pat_word before (c :: rest)) as [[|k]|];
          [reflexivity | destruct Hp | reflexivity]. }
      cbn [scan] in E. rewrite E. cbn [hits flush app].
      apply IH; [lia|].
      unfold at_boundary. destruct rest; [exact I|]. rewrite Ec. discriminate.
Qed.

Lemma words_of_runs (sentence : str) :
  AdvancedPDFCompressor.words_of sentence = word_runs (lower sentence).
Proof.
  unfold AdvancedPDFCompressor.words_of, re_findall, finditer, word_runs.
  apply (findall_words (length (lower sentence))); [lia | exact I].
Qed.

Lemma search_digit (sentence : str) :
  re_search pat_digit sentence = has_digit sentence.
Proof.
  unfold re_search, finditer, has_digit.
  generalize (@nil ascii). induction sentence as [|c s IH]; intros before; [reflexivity|].
  cbn [scan pat_digit existsb]. destruct (isdecimal c); [reflexivity|].
  cbn [hits orb]. apply IH.
Qed.

(** ** The frequency table against the tokens of the document *)

Lemma isupper_lower_char (c : char) : isupper_char (lower_char c) = false.
Proof. destruct c as [[] [] [] [] [] [] [] []]; vm_compute; reflexivity. Qed.

Lemma token_lowercase (s w : str) :
  In w (word_runs (lower s)) -> is_lowercase w = true.
Proof.
  rewrite <- words_of_runs. intros Hw. unfold is_lowercase.
  apply forallb_forall. intros c Hc.
  assert (In c (lower s)) as Hin.
  { unfold AdvancedPDFCompressor.words_of, re_findall, finditer in Hw.
    exact (scan_hits_chars _ _ _ _ _ _ Hw Hc). }
  unfold lower in Hin. apply in_map_iff in Hin as (c' & <- & _).
  rewrite isupper_lower_char. reflexivity.
Qed.

Lemma surviving_tokens (sentences : list str) :
  surviving sentences
    = List.filter AdvancedPDFCompressor.keep_word (document_tokens sentences).
Proof.
  unfold surviving, document_tokens. do 2 f_equal.
  apply map_ext. intros s. apply words_of_runs.
Qed.

Lemma keep_word_spec (w : str) :
  AdvancedPDFCompressor.keep_word w = true <->
  (w ∉ AdvancedPDFCompressor.stop_words) /\ (2 < length w)%nat.
Proof.
  unfold AdvancedPDFCompressor.keep_word.
  rewrite andb_true_iff, negb_true_iff, bool_decide_eq_false, Z.ltb_lt.
  split; intros [H1 H2]; (split; [exact H1 | lia]).
Qed.

Lemma occurrences_filter (f : str -> bool) (w : str) (l : list str) :
  f w = true -> occurrences w (List.filter f l) = occurrences w l.
Proof.
  intros Hw. unfold occurrences. f_equal.
  induction l as [|x l IH]; [reflexivity|]. cbn [List.filter].
  destruct (bool_decide_reflect (x = w)) as [->|Hx].
  - rewrite Hw. cbn [List.filter]. rewrite bool_decide_eq_true_2 by reflexivity.
    cbn [length]. rewrite IH. reflexivity.
  - destruct (f x); [cbn [List.filter]; rewrite bool_decide_eq_false_2 by exact Hx|];
      exact IH.
Qed.

Lemma surviving_key (sentences : list str) (w : str) :
  w ∈ surviving sentences <->
  w ∈ document_tokens sentences /\
  (w ∉ AdvancedPDFCompressor.stop_words) /\ (2 < length w)%nat.
Proof.
  rewrite surviving_tokens, <- keep_word_spec.
  rewrite !list_elem_of_In, filter_In. reflexivity.
Qed.

(** C6. The table returned by the scorer has as its keys exactly the
    word tokens of the lowercased sentences that are no stop word and
    longer than two characters; every key is lowercase and is mapped to
    its number of occurrences among all tokens of the document divided by
    the maximum such number over the keys.  Every stored frequency lies
    in (0, 1], a key that reaches the maximum has frequency exactly 1.0,
    and when there is no key the divisor is 1 and the table is empty.  No
    division raises. *)
Theorem word_frequency_table (sentences : list str) :
  let tokens := document_tokens sentences in
  let count := fun w => occurrences w tokens in
  let key := fun w =>
    w ∈ tokens /\ (w ∉ AdvancedPDFCompressor.stop_words) /\ (2 < length w)%nat in
  Z.of_nat (length tokens) < 2 ^ 53 ->
  exists mx table,
    AdvancedPDFCompressor.word_frequencies sentences = Ok table /\
    (forall w, is_Some (table !! w) <-> key w) /\
    (forall w, key w ->
       table !! w = Some (frequency mx (count w)) /\ is_lowercase w = true) /\
    (((forall w, ~ key w) /\ mx = 1 /\ table = ∅) \/
     ((exists w, key w /\ count w = mx) /\ forall w, key w -> count w <= mx)) /\
    (forall w f, table !! w = Some f ->
       (0 <? f)%float = true /\ (f <=? 1)%float = true) /\
    (forall w, key w -> count w = mx -> table !! w = Some 1%float).
Proof.
  intros tokens count key Hlen.
  set (words := surviving sentences).
  assert (Hkey : forall w, w ∈ words <-> key w) by (intros w; apply surviving_key).
  assert (Hcount : forall w, key w -> occurrences w words = count w).
  { intros w (_ & Hk). unfold words. rewrite surviving_tokens.
    apply occurrences_filter, keep_word_spec, Hk. }
  assert (Hwlen : Z.of_nat (length words) < 2 ^ 53).
  { unfold words. rewrite surviving_tokens.
    pose proof (List.filter_length_le AdvancedPDFCompressor.keep_word tokens).
    fold tokens. lia. }
  destruct (word_frequencies_ok sentences) as (mx & Hmax & Hok). fold words in Hmax, Hok.
  exists mx, (frequency mx <$> AdvancedPDFCompressor.Counter words).
  assert (Hlookup : forall w,
            (frequency mx <$> AdvancedPDFCompressor.Counter words) !! w =
            if bool_decide (w ∈ words)
            then Some (frequency mx (occurrences w words)) else None).
  { intros w. rewrite lookup_fmap, Counter_lookup.
    destruct (bool_decide (w ∈ words)); reflexivity. }
  assert (Hmx : 1 <= mx < 2 ^ 53).
  { split; [apply is_max_count_pos in Hmax; exact Hmax|].
    destruct Hmax as [[_ ->]|[(w & _ & <-) _]]; [reflexivity|].
    pose proof (occurrences_le_length w words). lia. }
  assert (Hfreq : forall w, w ∈ words ->
            good (frequency mx (occurrences w words)) /\
            0 < sval (Prim2SF (frequency mx (occurrences w words))) <= 2 ^ 1074 /\
            (occurrences w words = mx -> frequency mx (occurrences w words) = 1%float)).
  { intros w Hw. apply frequency_props; [|lia].
    split; [apply occurrences_pos, Hw|].
    destruct Hmax as [[E _]|[_ Hall]]; [|apply Hall].
    rewrite E in Hw. inversion Hw. }
  split; [exact Hok|]. split; [|split; [|split; [|split]]].
  - intros w. rewrite Hlookup, <- Hkey.
    destruct (bool_decide_reflect (w ∈ words)) as [Hw|Hw].
    + split; [intros _; exact Hw | intros _; eexists; reflexivity].
    + split; [intros [x Hx]; discriminate Hx | contradiction].
  - intros w Hk. pose proof (proj2 (Hkey w) Hk) as Hw. split.
    + rewrite Hlookup, bool_decide_eq_true_2 by exact Hw.
      rewrite (Hcount w Hk). reflexivity.
    + destruct Hk as (Ht & _). unfold tokens, document_tokens in Ht.
      apply list_elem_of_In, in_concat in Ht as (l & Hl & Hwl).
      apply in_map_iff in Hl as (s & <- & _). exact (token_lowercase s w Hwl).
  - destruct Hmax as [[E ->]|[(w & Hw & Hocc) Hall]].
    + left. split; [|split; [reflexivity | rewrite E; reflexivity]].
      intros w Hk. apply Hkey in Hk. rewrite E in Hk. inversion Hk.
    + right. split.
      * exists w. pose proof (proj1 (Hkey w) Hw) as Hk.
        split; [exact Hk|]. rewrite <- (Hcount w Hk). exact Hocc.
      * intros w' Hk'. rewrite <- (Hcount w' Hk'). apply Hall.
  - intros w f Hf. rewrite Hlookup in Hf.
    destruct (bool_decide_reflect (w ∈ words)) as [Hw|Hw]; [|discriminate].
    injection Hf as <-. destruct (Hfreq w Hw) as (Hg & Hs & _).
    apply in_unit_interval; assumption.
  - intros w Hk Hocc. pose proof (proj2 (Hkey w) Hk) as Hw.
    rewrite Hlookup, bool_decide_eq_true_2 by exact Hw.
    f_equal. apply (Hfreq w Hw). rewrite (Hcount w Hk). exact Hocc.
Qed.

Lemma word_frequency_table_witness :
  exists mx table,
    AdvancedPDFCompressor.word_frequencies
      (map lit ["The cat sat."; "2024 was a good year."; "The cat sat."]%string) = Ok table /\
    mx = 2 /\
    table !! lit "cat" = Some 1%float /\
    table !! lit "year" = Some 0.5%float /\
    table !! lit "the" = None /\
    table !! lit "The" = None.
Proof.
  destruct (word_frequency_table
              (map lit ["The cat sat."; "2024 was a good year."; "The cat sat."]%string))
    as (mx & table & Hok & Hkeys & Hval & Hmax & _).
  - vm_compute. reflexivity.
  - cbv zeta in Hkeys, Hval, Hmax.
    set (tokens := document_tokens
           (map lit ["The cat sat."; "2024 was a good year."; "The cat sat."]%string)) in *.
    assert (Et : tokens = map lit ["the"; "cat"; "sat"; "2024"; "was"; "a"; "good"; "year";
                                   "the"; "cat"; "sat"]%string)
      by (vm_compute; reflexivity).
    assert (Hcat : lit "cat" ∈ tokens /\
                   (lit "cat" ∉ AdvancedPDFCompressor.stop_words) /\ (2 < length (lit "cat"))%nat).
    { split; [rewrite Et; apply list_elem_of_In; vm_compute; tauto|].
      split; [|vm_compute; lia].
      apply keep_word_spec. vm_compute. reflexivity. }
    assert (Hyear : lit "year" ∈ tokens /\
                    (lit "year" ∉ AdvancedPDFCompressor.stop_words) /\
                    (2 < length (lit "year"))%nat).
    { split; [rewrite Et; apply list_elem_of_In; vm_compute; tauto|].
      split; [|vm_compute; lia].
      apply keep_word_spec. vm_compute. reflexivity. }
    assert (Hmx : mx = 2).
    { destruct Hmax as [(Hnone & _)|[(w & (Hw & _) & <-) Hall]];
        [exfalso; exact (Hnone _ Hcat)|].
      apply Z.le_antisymm.
      - rewrite Et in Hw |- *. cbn [map] in Hw.
        repeat (apply elem_of_cons in Hw as [->|Hw]; [vm_compute; discriminate|]).
        inversion Hw.
      - apply (Hall (lit "cat") Hcat). }
    exists mx, table. split; [exact Hok|]. split; [exact Hmx|].
    split; [|split; [|split]].
    + rewrite (proj1 (Hval _ Hcat)), Hmx, Et. vm_compute. reflexivity.
    + rewrite (proj1 (Hval _ Hyear)), Hmx, Et. vm_compute. reflexivity.
    + destruct (table !! lit "the") as [f|] eqn:E; [|reflexivity].
      exfalso. assert (is_Some (table !! lit "the")) as Hs by (rewrite E; eauto).
      apply Hkeys in Hs as (_ & Hstop & _). apply Hstop.
      apply list_elem_of_In. vm_compute. tauto.
    + destruct (table !! lit "The") as [f|] eqn:E; [|reflexivity].
      exfalso. assert (is_Some (table !! lit "The")) as Hs by (rewrite E; eauto).
      apply Hkeys in Hs as (Hin & _). rewrite Et in Hin. cbn [map] in Hin.
      repeat (apply elem_of_cons in Hin as [Hin|Hin]; [vm_compute in Hin; discriminate Hin|]).
      inversion Hin.
Defined.

(** ** Scores *)

Lemma word_frequencies_good (sentences : list str) :
  Z.of_nat (length (surviving sentences)) < 2 ^ 53 ->
  exists table,
    AdvancedPDFCompressor.word_frequencies sentences = Ok table /\
    forall w f, table !! w = Some f -> good f.
Proof.
  intros Hlen. set (words := surviving sentences) in *.
  destruct (word_frequencies_ok sentences) as (mx & Hmax & Hok). fold words in Hmax, Hok.
  eexists. split; [exact Hok|].
  intros w f. rewrite lookup_fmap, Counter_lookup.
  destruct (bool_decide_reflect (w ∈ words)) as [Hw|Hw]; [|discriminate].
  cbn. intros [= <-].
  apply frequency_props.
  - split; [apply occurrences_pos, Hw|].
    destruct Hmax as [[E _]|[_ Hall]]; [|apply Hall].
    rewrite E in Hw. inversion Hw.
  - destruct Hmax as [[_ ->]|[(w' & _ & <-) _]]; [reflexivity|].
    pose proof (occurrences_le_length w' words). lia.
Qed.

Section Scores.
Variable table : gmap str float.
Hypothesis table_good : forall w f, table !! w = Some f -> good f.

Lemma fold_skip_absent (ws : list str) : forall acc,
  good acc ->
  foldl (fun score word =>
           match table !! word with
           | Some f => (score + f)%float
           | None => score
           end) acc ws
  = foldl (fun acc w => (acc + default 0 (table !! w))%float) acc ws /\
  good (foldl (fun acc w => (acc + default 0 (table !! w))%float) acc ws).
Proof.
  induction ws as [|w ws IH]; intros acc Hacc; cbn [foldl]; [auto|].
  destruct (table !! w) as [f|] eqn:E.
  - cbn. apply IH, good_add; [exact Hacc | eapply table_good; eauto].
  - cbn. rewrite add_zero_r by exact Hacc. apply IH, Hacc.
Qed.

Lemma sentence_score_spec (n i : nat) (sentence : str) :
  AdvancedPDFCompressor.sentence_score table n i sentence
    = score_spec table n i sentence.
Proof.
  unfold AdvancedPDFCompressor.sentence_score, score_spec, base_score.
  rewrite words_of_runs, search_digit.
  rewrite (proj1 (fold_skip_absent _ 0%float good_zero)). reflexivity.
Qed.

Lemma score_spec_good (n i : nat) (sentence : str) :
  good (score_spec table n i sentence).
Proof.
  unfold score_spec, base_score.
  pose proof (proj2 (fold_skip_absent (word_runs (lower sentence)) 0%float good_zero)) as Hb.
  set (base := foldl _ _ _) in *.
  assert (H12 : good (base * 0x1.3333333333333p+0)).
  { eapply good_mul_finite; [|exact Hb]. reflexivity. }
  destruct (_ || _); destruct (has_digit sentence);
    try assumption; (eapply good_mul_finite; [reflexivity | assumption]).
Qed.

End Scores.

Lemma scores_lookup (sentences : list str) :
  Z.of_nat (length (surviving sentences)) < 2 ^ 53 ->
  exists table scores,
    AdvancedPDFCompressor.word_frequencies sentences = Ok table /\
    AdvancedPDFCompressor.calculate_sentence_scores sentences = Ok scores /\
    length scores = length sentences /\
    (forall i s, sentences !! i = Some s ->
       scores !! i = Some (score_spec table (length sentences) i s)) /\
    (forall i, good (AdvancedPDFCompressor.get scores i)).
Proof.
  intros Hlen. destruct (word_frequencies_good sentences Hlen) as (table & Hok & Hgood).
  exists table, (imap (AdvancedPDFCompressor.sentence_score table (length sentences)) sentences).
  split; [exact Hok|].
  unfold AdvancedPDFCompressor.calculate_sentence_scores. rewrite Hok.
  split; [reflexivity|]. split; [apply length_imap|].
  assert (Hl : forall i s, sentences !! i = Some s ->
            imap (AdvancedPDFCompressor.sentence_score table (length sentences)) sentences !! i
            = Some (score_spec table (length sentences) i s)).
  { intros i s Hs. rewrite list_lookup_imap, Hs. cbn.
    rewrite sentence_score_spec by exact Hgood. reflexivity. }
  split; [exact Hl|].
  intros i. unfold AdvancedPDFCompressor.get.
  destruct (sentences !! i) as [s|] eqn:Es.
  - rewrite (nth_lookup_Some _ _ _ _ (Hl i s Es)). apply score_spec_good, Hgood.
  - rewrite nth_overflow; [apply good_zero|].
    rewrite length_imap. apply lookup_ge_None. exact Es.
Qed.

(** C4. The score that the ranker stores for the sentence at index [i]
    of [n] is the sum, over the word tokens of the lowercased sentence,
    of the table's value for the token (0 when absent), multiplied by 1.2
    when [i < 3] or [i >= n - 3], then by 1.1 when the sentence contains
    a decimal digit: the function [score_spec] of the table, the position
    and the text of the sentence. *)
Theorem sentence_scores_formula (sentences : list str) :
  Z.of_nat (length (surviving sentences)) < 2 ^ 53 ->
  exists table scores,
    AdvancedPDFCompressor.word_frequencies sentences = Ok table /\
    AdvancedPDFCompressor.calculate_sentence_scores sentences = Ok scores /\
    length scores = length sentences /\
    forall i s, sentences !! i = Some s ->
      scores !! i = Some (score_spec table (length sentences) i s).
Proof.
  intros Hlen.
  destruct (scores_lookup sentences Hlen) as (table & scores & H1 & H2 & H3 & H4 & _).
  exists table, scores. repeat split; assumption.
Qed.

Lemma sentence_scores_formula_witness :
  exists table scores,
    AdvancedPDFCompressor.calculate_sentence_scores
      (map lit ["The cat sat."; "2024 was a good year."; "The cat sat."]%string) = Ok scores /\
    scores !! 1%nat = Some (score_spec table 3 1 (lit "2024 was a good year.")).
Proof.
  destruct (sentence_scores_formula
              (map lit ["The cat sat."; "2024 was a good year."; "The cat sat."]%string))
    as (table & scores & _ & Hs & _ & Hl).
  - vm_compute. reflexivity.
  - exists table, scores. split; [exact Hs|]. apply Hl. reflexivity.
Defined.

(** ** Ranking *)

Lemma float_lt_irrefl (x : float) : float_lt x x = false.
Proof.
  unfold float_lt. rewrite FloatAxioms.ltb_spec. unfold SFltb.
  destruct (Prim2SF x) as [s|s| |s m e]; cbn [SFcompare]; try reflexivity;
    destruct s; try reflexivity;
    change (PosDef.Pos.compare_cont Eq m m) with (Pos.compare m m);
    rewrite Z.compare_refl, Pos.compare_refl; reflexivity.
Qed.

Lemma before_seq (i j n : nat) : (i < j < n)%nat -> before i j (seq 0 n).
Proof.
  intros Hij. unfold before.
  replace n with (i + (1 + ((j - i - 1) + (1 + (n - j - 1)))))%nat by lia.
  rewrite !seq_app. cbn [seq].
  apply sublist_inserts_l, sublist_skip, sublist_inserts_l.
  replace (0 + i + 1 + (j - i - 1))%nat with j by lia.
  apply sublist_skip, sublist_nil_l.
Qed.

(** With no repetition, a cut of the list that takes the later of two
    elements takes the earlier one too. *)
Lemma before_take {A} (a b : A) (l : list A) (k : nat) :
  NoDup l -> before a b l -> b ∈ take k l -> a ∈ take k l.
Proof.
  intros Hnd Hab Hb. unfold before in Hab.
  rewrite <- (take_drop k l) in Hab, Hnd.
  apply sublist_app_r in Hab as (l1 & l2 & E & H1 & H2).
  apply NoDup_app in Hnd as (_ & Hdisj & _).
  destruct l1 as [|x l1].
  - cbn in E. subst l2. exfalso. apply (Hdisj b Hb).
    eapply elem_of_sublist; [|exact H2]. right. left.
  - injection E as <- E. eapply elem_of_sublist; [|exact H1]. left.
Qed.

(** C3. The selector ranks the indices by score, highest first: no index
    in the ranked list has a score strictly below that of an index after
    it, and what [top_indices] returns is, up to its final sorting, a cut
    of that list of at least one index (for a ratio in (0, 1] it does
    return, and not the empty list).  Two sentences with identical scores
    stay in the order of their indices in the ranked list, so whenever the
    selector keeps the one with the higher index it keeps the one with
    the lower index as well, and it never keeps the higher one alone. *)
Theorem ranking_breaks_ties_by_index (sentences : list str) :
  Z.of_nat (length (surviving sentences)) < 2 ^ 53 ->
  exists scores,
    AdvancedPDFCompressor.calculate_sentence_scores sentences = Ok scores /\
    AdvancedPDFCompressor.ranked scores ≡ₚ seq 0 (length sentences) /\
    StronglySorted
      (fun a b => float_lt (AdvancedPDFCompressor.get scores a)
                           (AdvancedPDFCompressor.get scores b) = false)
      (AdvancedPDFCompressor.ranked scores) /\
    (forall ratio idx,
       AdvancedPDFCompressor.top_indices sentences ratio = Ok idx ->
       exists num, (1 <= num)%nat /\
                   idx ≡ₚ take num (AdvancedPDFCompressor.ranked scores)) /\
    (forall ratio,
       sentences <> [] -> Z.of_nat (length sentences) < 2 ^ 53 ->
       (0 <? ratio)%float = true -> (ratio <=? 1)%float = true ->
       exists idx, AdvancedPDFCompressor.top_indices sentences ratio = Ok idx /\
                   idx <> []) /\
    forall i j, (i < j < length sentences)%nat ->
      AdvancedPDFCompressor.get scores i = AdvancedPDFCompressor.get scores j ->
      before i j (AdvancedPDFCompressor.ranked scores) /\
      (forall num, j ∈ take num (AdvancedPDFCompressor.ranked scores) ->
                   i ∈ take num (AdvancedPDFCompressor.ranked scores)) /\
      (forall ratio idx,
         AdvancedPDFCompressor.top_indices sentences ratio = Ok idx ->
         (j ∈ idx -> i ∈ idx) /\ idx <> [j]).
Proof.
  intros Hlen.
  destruct (scores_lookup sentences Hlen) as (table & scores & _ & Hs & Hl & _ & Hgood).
  exists scores. split; [exact Hs|]. split; [rewrite ranked_perm, Hl; reflexivity|].
  set (key := AdvancedPDFCompressor.get scores) in *.
  assert (Hlt : forall a b, float_lt (key a) (key b)
                            = (sval (Prim2SF (key a)) <? sval (Prim2SF (key b)))).
  { intros a b. apply good_ltb; apply Hgood. }
  assert (Hsel : forall ratio idx,
            AdvancedPDFCompressor.top_indices sentences ratio = Ok idx ->
            exists num, (1 <= num)%nat /\
                        idx ≡ₚ take num (AdvancedPDFCompressor.ranked scores)).
  { intros ratio idx Hidx.
    destruct (top_indices_unfold sentences ratio) as (scores' & Hs' & _ & Htop).
    rewrite Hs in Hs'. injection Hs' as <-. rewrite Hidx in Htop.
    destruct (int_of_float _) as [k|e]; [|discriminate]. injection Htop as ->.
    exists (Z.to_nat (Z.max 1 k)). split; [lia | apply sort_indices_perm]. }
  split; [|split; [exact Hsel|split]].
  - unfold AdvancedPDFCompressor.ranked, sorted_by_key_reverse. fold key.
    apply (stable_sort_sorted (fun a b => float_lt (key b) (key a)) (fun _ => True)).
    + intros a b _ _. rewrite !Hlt. lia.
    + intros a b c _ _ _. rewrite !Hlt. lia.
    + apply Forall_forall. trivial.
  - intros ratio Hne Hn Hpos Hle.
    destruct (top_indices_ratio sentences ratio Hne Hn Hpos Hle) as (_ & _ & idx & Hidx & Hlen').
    exists idx. split; [exact Hidx|]. intros ->. cbn [length] in Hlen'. lia.
  - intros i j Hij Heq.
    assert (Hb : before i j (AdvancedPDFCompressor.ranked scores)).
    { unfold AdvancedPDFCompressor.ranked, sorted_by_key_reverse. fold key.
      apply stable_sort_before.
      - apply before_seq. rewrite Hl. exact Hij.
      - rewrite Heq. apply float_lt_irrefl. }
    assert (Hcut : forall num, j ∈ take num (AdvancedPDFCompressor.ranked scores) ->
                               i ∈ take num (AdvancedPDFCompressor.ranked scores))
      by (intros num; apply before_take; [apply ranked_NoDup | exact Hb]).
    split; [exact Hb|]. split; [exact Hcut|].
    intros ratio idx Hidx. destruct (Hsel ratio idx Hidx) as (num & _ & Hperm).
    assert (Himp : j ∈ idx -> i ∈ idx).
    { rewrite Hperm. apply Hcut. }
    split; [exact Himp|]. intros ->.
    assert (Hi : i ∈ [j]) by (apply Himp; left).
    apply list_elem_of_singleton in Hi. lia.
Qed.

Lemma ranking_breaks_ties_by_index_witness :
  exists scores idx,
    AdvancedPDFCompressor.calculate_sentence_scores
      (map lit ["The cat sat."; "2024 was a good year."; "The cat sat."]%string) = Ok scores /\
    AdvancedPDFCompressor.get scores 0 = AdvancedPDFCompressor.get scores 2 /\
    AdvancedPDFCompressor.ranked scores = [0; 2; 1]%nat /\
    AdvancedPDFCompressor.top_indices
      (map lit ["The cat sat."; "2024 was a good year."; "The cat sat."]%string) 0.5 = Ok idx /\
    idx = [0%nat] /\ idx <> [2%nat].
Proof.
  destruct (ranking_breaks_ties_by_index
              (map lit ["The cat sat."; "2024 was a good year."; "The cat sat."]%string))
    as (scores & Hs & _ & _ & _ & _ & Htie).
  - vm_compute. reflexivity.
  - assert (E : scores = [0x1.3333333333333p+1; 0x1.fae147ae147aep+0;
                          0x1.3333333333333p+1]%float).
    { vm_compute in Hs. injection Hs as <-. reflexivity. }
    assert (Heq : AdvancedPDFCompressor.get scores 0 = AdvancedPDFCompressor.get scores 2)
      by (rewrite E; reflexivity).
    assert (Hidx : AdvancedPDFCompressor.top_indices
              (map lit ["The cat sat."; "2024 was a good year."; "The cat sat."]%string) 0.5
              = Ok [0%nat]) by (vm_compute; reflexivity).
    destruct (Htie 0%nat 2%nat ltac:(cbn; lia) Heq) as (_ & _ & Hsel).
    exists scores, [0%nat]. split; [exact Hs|]. split; [exact Heq|].
    split; [rewrite E; vm_compute; reflexivity|]. split; [exact Hidx|].
    split; [reflexivity|]. exact (proj2 (Hsel 0.5%float [0%nat] Hidx)).
Defined.

(** * Further properties of the code *)

(** ** Scans with a pattern that does not look behind *)

Section Forward.
Variable p : pattern.
Variable repl : str -> str.
Hypothesis p_forward : forall b1 b2 r, p b1 r = p b2 r.

Lemma scan_forward (rest : str) : forall b1 b2 k,
  scan p b1 rest k = scan p b2 rest k.
Proof.
  induction rest as [|c rest IH]; intros b1 b2 k; [reflexivity|].
  destruct k as [|k]; cbn [scan]; [|apply IH].
  rewrite (p_forward b1 b2).
  destruct (p b2 (c :: rest)) as [[|j]|]; f_equal; apply IH.
Qed.

Lemma scan_skip_drop (rest : str) : forall b k,
  scan p b rest k = scan p [] (drop k rest) O.
Proof.
  induction rest as [|c rest IH]; intros b k.
  - destruct k; reflexivity.
  - destruct k as [|k].
    + apply scan_forward.
    + cbn [scan drop]. apply IH.
Qed.

Lemma scan_cons (c : char) (rest : str) :
  scan p [] (c :: rest) O =
    match p [] (c :: rest) with
    | Some (S k) => Hit (take (S k) (c :: rest)) :: scan p [] (drop k rest) O
    | _ => Lit c :: scan p [] rest O
    end.
Proof.
  cbn [scan].
  destruct (p [] (c :: rest)) as [[|k]|]; f_equal;
    first [apply scan_skip_drop | apply scan_forward].
Qed.

Lemma re_sub_cons (c : char) (rest : str) :
  re_sub p repl (c :: rest) =
    match p [] (c :: rest) with
    | Some (S k) => repl (take (S k) (c :: rest)) ++ re_sub p repl (drop k rest)
    | _ => c :: re_sub p repl rest
    end.
Proof.
  unfold re_sub, finditer. rewrite scan_cons.
  destruct (p [] (c :: rest)) as [[|k]|]; reflexivity.
Qed.

Lemma re_split_cons (c : char) (rest : str) :
  re_split p (c :: rest) =
    match p [] (c :: rest) with
    | Some (S k) => [] :: re_split p (drop k rest)
    | _ => cons_head c (re_split p rest)
    end.
Proof.
  unfold re_split, finditer. rewrite scan_cons.
  destruct (p [] (c :: rest)) as [[|k]|]; reflexivity.
Qed.

(** Induction over the text and the result of [re.sub] together. *)
Lemma re_sub_ind (P : str -> str -> Prop) :
  P [] [] ->
  (forall c rest k,
     p [] (c :: rest) = Some (S k) ->
     P (drop k rest) (re_sub p repl (drop k rest)) ->
     P (c :: rest) (repl (take (S k) (c :: rest)) ++ re_sub p repl (drop k rest))) ->
  (forall c rest,
     (forall k, p [] (c :: rest) <> Some (S k)) ->
     P rest (re_sub p repl rest) ->
     P (c :: rest) (c :: re_sub p repl rest)) ->
  forall text, P text (re_sub p repl text).
Proof.
  intros Hnil Hhit Hlit text.
  remember (length text) as n eqn:Hn.
  revert text Hn. induction n as [n IH] using lt_wf_ind. intros text Hn.
  destruct text as [|c rest]; [exact Hnil|].
  rewrite re_sub_cons.
  destruct (p [] (c :: rest)) as [[|k]|] eqn:E.
  - apply Hlit; [intros k; congruence|].
    apply (IH (length rest)); [subst n; cbn; lia | reflexivity].
  - apply Hhit; [exact E|].
    apply (IH (length (drop k rest))); [|reflexivity].
    subst n. rewrite length_drop. cbn. lia.
  - apply Hlit; [intros k; congruence|].
    apply (IH (length rest)); [subst n; cbn; lia | reflexivity].
Qed.

(** A pattern that finds nothing leaves the text as it is. *)
Lemma re_sub_no_hit (f : char -> bool) (text : str) :
  (forall c rest k, p [] (c :: rest) = Some (S k) -> f c = true) ->
  Forall (fun c => f c = false) text ->
  re_sub p repl text = text.
Proof.
  intros Hp Hall. induction Hall as [|c rest Hc Hall IH]; [reflexivity|].
  rewrite re_sub_cons.
  destruct (p [] (c :: rest)) as [[|k]|] eqn:E; try (f_equal; exact IH).
  apply Hp in E. congruence.
Qed.

End Forward.

(** ** The two substitutions of the clean-up *)

Lemma char_eqb_eq (c d : char) : char_eqb c d = true <-> c = d.
Proof. apply Ascii.eqb_eq. Qed.

Lemma char_eqb_refl (c : char) : char_eqb c c = true.
Proof. apply Ascii.eqb_refl. Qed.

Lemma pat_spaces_forward (b1 b2 r : str) : pat_spaces b1 r = pat_spaces b2 r.
Proof. reflexivity. Qed.

Lemma pat_char_run_forward (b1 b2 r : str) : pat_char_run b1 r = pat_char_run b2 r.
Proof. reflexivity. Qed.

Lemma pat_page_number_forward (b1 b2 r : str) :
  pat_page_number b1 r = pat_page_number b2 r.
Proof. reflexivity. Qed.

Lemma pat_literal_forward (old b1 b2 r : str) :
  pat_literal old b1 r = pat_literal old b2 r.
Proof. reflexivity. Qed.

Lemma run_drop_zero (f : char -> bool) (s : str) : run f (drop (run f s) s) = O.
Proof.
  pose proof (run_stops f s) as H.
  destruct (drop (run f s) s) as [|c r]; [reflexivity|].
  cbn [run]. rewrite H. reflexivity.
Qed.

Lemma run_zero_head (f : char -> bool) (s : str) (c : char) :
  run f s = O -> head s = Some c -> f c = false.
Proof.
  destruct s as [|d s]; [discriminate|]. cbn [run head].
  destruct (f d) eqn:E; [discriminate|]. intros _ [= <-]. exact E.
Qed.

Lemma pat_spaces_hit (b : str) (c : char) (rest : str) (k : nat) :
  pat_spaces b (c :: rest) = Some (S k) -> isspace c = true /\ k = run isspace rest.
Proof.
  unfold pat_spaces. cbn [run]. destruct (isspace c); [|discriminate].
  cbn [some_positive]. intros [= <-]. split; reflexivity.
Qed.

Lemma pat_spaces_miss (b : str) (c : char) (rest : str) :
  (forall k, pat_spaces b (c :: rest) <> Some (S k)) -> isspace c = false.
Proof.
  unfold pat_spaces. cbn [run]. destruct (isspace c); [|reflexivity].
  cbn [some_positive]. intros H. exfalso. exact (H _ eq_refl).
Qed.

Lemma pat_char_run_hit (b : str) (c : char) (rest : str) (k : nat) :
  pat_char_run b (c :: rest) = Some (S k) ->
  char_eqb c newline = false /\ k = run (char_eqb c) rest /\ (4 <= k)%nat.
Proof.
  unfold pat_char_run. destruct (char_eqb c newline); [discriminate|].
  destruct (4 <=? run (char_eqb c) rest)%nat eqn:E; [|discriminate].
  intros [= <-]. apply Nat.leb_le in E. auto.
Qed.

Lemma pat_char_run_miss (b : str) (c : char) (rest : str) :
  (forall k, pat_char_run b (c :: rest) <> Some (S k)) ->
  negb (char_eqb c newline) && (4 <=? run (char_eqb c) rest)%nat = false.
Proof.
  unfold pat_char_run. destruct (char_eqb c newline); [reflexivity|].
  destruct (4 <=? run (char_eqb c) rest)%nat; [|reflexivity].
  intros H. exfalso. exact (H _ eq_refl).
Qed.

(** The head of the text that follows a white-space run, or a run of one
    character. *)
Lemma head_after_run (f : char -> bool) (s : str) (d : char) :
  head (drop (run f s) s) = Some d -> f d = false.
Proof. apply run_zero_head, run_drop_zero. Qed.

Lemma single_spaced_cons (c : char) (s : str) :
  single_spaced (c :: s) = true ->
  single_spaced s = true /\
  (isspace c = true ->
     c = space /\ match s with d :: _ => isspace d = false | [] => True end).
Proof.
  cbn [single_spaced]. intros H. apply andb_prop in H as [H1 H2].
  split; [exact H2|]. intros Hc. rewrite Hc in H1.
  apply andb_prop in H1 as [H1 H3]. apply char_eqb_eq in H1.
  split; [exact H1|]. destruct s as [|d s']; [exact I|].
  apply negb_true_iff in H3. exact H3.
Qed.

Lemma single_spaced_app_r (a b : str) :
  single_spaced (a ++ b) = true -> single_spaced b = true.
Proof.
  induction a as [|c a IH]; [auto|]. cbn [app]. intros H.
  apply single_spaced_cons in H as [H _]. auto.
Qed.

Lemma single_spaced_app_l (a b : str) :
  single_spaced (a ++ b) = true -> single_spaced a = true.
Proof.
  induction a as [|c a IH]; [reflexivity|]. cbn [app]. intros H.
  apply single_spaced_cons in H as [H1 H2].
  cbn [single_spaced]. rewrite (IH H1), andb_true_r.
  destruct (isspace c) eqn:Ec; [|reflexivity].
  destruct (H2 eq_refl) as [-> H3]. cbn [char_eqb]. rewrite char_eqb_refl. cbn [andb].
  destruct a as [|d a']; [reflexivity|]. cbn [app] in H3. rewrite H3. reflexivity.
Qed.

Lemma single_spaced_drop (k : nat) (s : str) :
  single_spaced s = true -> single_spaced (drop k s) = true.
Proof.
  intros H. rewrite <- (take_drop k s) in H. exact (single_spaced_app_r _ _ H).
Qed.

Lemma single_spaced_only_spaces (s : str) (c : char) :
  single_spaced s = true -> In c s -> isspace c = true -> c = space.
Proof.
  induction s as [|d s IH]; [intros _ []|].
  intros H [->|Hin] Hc; apply single_spaced_cons in H as [H1 H2].
  - exact (proj1 (H2 Hc)).
  - exact (IH H1 Hin Hc).
Qed.

Lemma single_spaced_no_newline (s : str) :
  single_spaced s = true -> Forall (fun c => char_eqb c newline = false) s.
Proof.
  intros H. apply List.Forall_forall. intros c Hin.
  destruct (char_eqb c newline) eqn:E; [|reflexivity].
  apply char_eqb_eq in E. subst c.
  pose proof (single_spaced_only_spaces s newline H Hin eq_refl). discriminate.
Qed.

(** [re.sub(r'\s+', ' ', text)] leaves white space only as single
    spaces, and a text that is like this already is not changed. *)
Lemma spaces_shape (text : str) :
  let out := re_sub pat_spaces (fun _ => [space]) text in
  single_spaced out = true /\
  match text with
  | c :: _ => head out = Some (if isspace c then space else c)
  | [] => out = []
  end.
Proof.
  cbv zeta. apply (re_sub_ind pat_spaces (fun _ => [space]) pat_spaces_forward).
  - split; reflexivity.
  - intros c rest k E [IH1 IH2]. apply pat_spaces_hit in E as [Hc ->].
    rewrite Hc. split; [|reflexivity].
    cbn [app single_spaced]. rewrite IH1, andb_true_r.
    change (isspace space) with true. cbv iota. rewrite char_eqb_refl. cbn [andb].
    pose proof (head_after_run isspace rest) as Hd.
    destruct (drop (run isspace rest) rest) as [|d r].
    + rewrite IH2. reflexivity.
    + specialize (Hd d eq_refl). rewrite Hd in IH2.
      destruct (re_sub pat_spaces (fun _ => [space]) (d :: r)) as [|e o];
        [discriminate|]. injection IH2 as ->. rewrite Hd. reflexivity.
  - intros c rest Hmiss [IH1 IH2]. apply pat_spaces_miss in Hmiss.
    rewrite Hmiss. split; [|reflexivity].
    cbn [single_spaced]. rewrite Hmiss, IH1. reflexivity.
Qed.

Lemma spaces_fixed (s : str) :
  single_spaced s = true -> re_sub pat_spaces (fun _ => [space]) s = s.
Proof.
  induction s as [|c s IH]; [reflexivity|]. intros H.
  apply single_spaced_cons in H as [H1 H2].
  rewrite (re_sub_cons _ _ pat_spaces_forward).
  unfold pat_spaces at 1. cbn [run].
  destruct (isspace c) eqn:Ec.
  - destruct (H2 eq_refl) as [-> H3].
    assert (run isspace s = O) as ->.
    { destruct s as [|d s']; [reflexivity|]. cbn [run]. rewrite H3. reflexivity. }
    cbn [some_positive]. rewrite drop_0, (IH H1). reflexivity.
  - cbn [some_positive]. rewrite (IH H1). reflexivity.
Qed.

(** [re.sub(r'(.)\1{4,}', r'\1\1', text)] leaves no character other than
    the newline five times in a row, and keeps single spaces single. *)
Lemma char_run_shape (text : str) :
  let out := re_sub pat_char_run twice_first text in
  head out = head text /\
  (forall x, (run (char_eqb x) out <= run (char_eqb x) text)%nat) /\
  long_run out = false /\
  (single_spaced text = true -> single_spaced out = true).
Proof.
  cbv zeta. apply (re_sub_ind pat_char_run twice_first pat_char_run_forward).
  - repeat split; auto.
  - intros c rest k E (IH1 & IH2 & IH3 & IH4).
    apply pat_char_run_hit in E as (Hnl & -> & Hk).
    set (k := run (char_eqb c) rest) in *.
    set (out := re_sub pat_char_run twice_first (drop k rest)) in *.
    assert (run (char_eqb c) out = O) as Hout.
    { pose proof (IH2 c) as H. unfold k in H. rewrite run_drop_zero in H. lia. }
    cbn [take twice_first app].
    split; [reflexivity|]. split; [|split].
    + intros x. cbn [run]. destruct (char_eqb x c) eqn:Exc; [|lia].
      apply char_eqb_eq in Exc. subst x. fold k. rewrite Hout. lia.
    + cbn [long_run run]. rewrite char_eqb_refl, Hout, IH3, Hnl. reflexivity.
    + intros Hs. apply single_spaced_cons in Hs as [Hs1 Hs2].
      assert (isspace c = false) as Hc.
      { destruct (isspace c) eqn:Ec; [|reflexivity].
        destruct (Hs2 eq_refl) as [_ H3].
        destruct rest as [|d r]; [cbn in Hk; lia|].
        unfold k in Hk. cbn [run] in Hk.
        destruct (char_eqb c d) eqn:Ecd; [|lia].
        apply char_eqb_eq in Ecd. subst d. congruence. }
      cbn [single_spaced]. rewrite Hc. cbn [andb].
      apply IH4, single_spaced_drop, Hs1.
  - intros c rest Hmiss (IH1 & IH2 & IH3 & IH4).
    apply pat_char_run_miss in Hmiss.
    set (out := re_sub pat_char_run twice_first rest) in *.
    split; [reflexivity|]. split; [|split].
    + intros x. cbn [run]. destruct (char_eqb x c); [|lia].
      specialize (IH2 x). lia.
    + cbn [long_run]. rewrite IH3, orb_false_r.
      destruct (char_eqb c newline); [reflexivity|]. cbn [negb andb] in *.
      apply Nat.leb_gt in Hmiss. apply Nat.leb_gt. specialize (IH2 c). lia.
    + intros Hs. apply single_spaced_cons in Hs as [Hs1 Hs2].
      cbn [single_spaced]. rewrite (IH4 Hs1), andb_true_r.
      destruct (isspace c) eqn:Ec; [|reflexivity].
      destruct (Hs2 eq_refl) as [-> H3]. rewrite char_eqb_refl. cbn [andb].
      destruct out as [|e o]; [reflexivity|].
      destruct rest as [|d r]; [discriminate|].
      cbn [head] in IH1. injection IH1 as ->. rewrite H3. reflexivity.
Qed.

Lemma char_run_fixed (s : str) :
  long_run s = false -> re_sub pat_char_run twice_first s = s.
Proof.
  induction s as [|c s IH]; [reflexivity|]. cbn [long_run]. intros H.
  apply orb_false_elim in H as [H1 H2].
  rewrite (re_sub_cons _ _ pat_char_run_forward).
  unfold pat_char_run at 1.
  destruct (char_eqb c newline); [rewrite (IH H2); reflexivity|].
  cbn [negb andb] in H1. rewrite H1, (IH H2). reflexivity.
Qed.

Lemma page_number_fixed (s : str) :
  Forall (fun c => char_eqb c newline = false) s ->
  re_sub pat_page_number (fun _ => [newline]) s = s.
Proof.
  apply (re_sub_no_hit _ _ pat_page_number_forward (fun c => char_eqb c newline)).
  intros c rest k. unfold pat_page_number.
  destruct (char_eqb c newline); [reflexivity | discriminate].
Qed.

(** ** Trimming *)

Lemma rstrip_prefix (s : str) :
  exists w, s = rstrip s ++ w /\ forallb isspace w = true.
Proof.
  destruct (drop_while_suffix isspace (rev s)) as (pre & E & Hpre).
  exists (rev pre). split.
  - unfold rstrip. rewrite <- rev_app_distr, <- E, rev_involutive. reflexivity.
  - rewrite forallb_forall in *. intros c Hc. apply Hpre, in_rev, Hc.
Qed.

Lemma strip_infix (s : str) :
  exists w1 w2, s = w1 ++ strip s ++ w2 /\
                forallb isspace w1 = true /\ forallb isspace w2 = true.
Proof.
  destruct (drop_while_suffix isspace s) as (w1 & E1 & H1).
  destruct (rstrip_prefix (lstrip s)) as (w2 & E2 & H2).
  exists w1, w2. unfold strip. unfold lstrip in E2 at 1. rewrite <- E2. auto.
Qed.

Lemma strip_length (s : str) : (length (strip s) <= length s)%nat.
Proof.
  destruct (strip_infix s) as (w1 & w2 & E & _).
  rewrite E at 2. rewrite !length_app. lia.
Qed.

Lemma strip_fixed (s : str) :
  (forall c, head s = Some c -> isspace c = false) ->
  (forall c, last s = Some c -> isspace c = false) ->
  strip s = s.
Proof.
  intros Hh Hl. unfold strip.
  assert (lstrip s = s) as ->.
  { destruct s as [|c s]; [reflexivity|]. unfold lstrip. cbn [drop_while].
    rewrite (Hh c eq_refl). reflexivity. }
  unfold rstrip.
  assert (drop_while isspace (rev s) = rev s) as ->; [|apply rev_involutive].
  pose proof (last_rev (rev s)) as E. rewrite rev_involutive in E.
  destruct (rev s) as [|c r]; [reflexivity|]. cbn [drop_while].
  rewrite (Hl c E). reflexivity.
Qed.

Lemma strip_idem (s : str) : strip (strip s) = strip s.
Proof. apply strip_fixed; [apply strip_no_leading | apply strip_no_trailing]. Qed.

Lemma single_spaced_strip (s : str) :
  single_spaced s = true -> single_spaced (strip s) = true.
Proof.
  destruct (strip_infix s) as (w1 & w2 & E & _). intros H. rewrite E in H.
  apply single_spaced_app_r, single_spaced_app_l in H. exact H.
Qed.

Lemma run_app_le (f : char -> bool) (a b : str) : (run f a <= run f (a ++ b))%nat.
Proof.
  induction a as [|c a IH]; cbn [run app]; [lia|]. destruct (f c); lia.
Qed.

Lemma long_run_app (a b : str) :
  long_run (a ++ b) = false -> long_run a = false /\ long_run b = false.
Proof.
  induction a as [|c a IH]; [auto|]. cbn [app long_run]. intros H.
  apply orb_false_elim in H as [H1 H2]. destruct (IH H2) as [Ha Hb].
  split; [|exact Hb]. rewrite Ha, orb_false_r.
  destruct (char_eqb c newline); [reflexivity|]. cbn [negb andb] in *.
  apply Nat.leb_gt in H1. apply Nat.leb_gt.
  pose proof (run_app_le (char_eqb c) a b). lia.
Qed.

Lemma long_run_strip (s : str) : long_run s = false -> long_run (strip s) = false.
Proof.
  destruct (strip_infix s) as (w1 & w2 & E & _). intros H. rewrite E in H.
  apply long_run_app in H as [_ H]. apply long_run_app in H as [H _]. exact H.
Qed.

Lemma no_newline_strip (s : str) :
  Forall (fun c => char_eqb c newline = false) s ->
  Forall (fun c => char_eqb c newline = false) (strip s).
Proof.
  destruct (strip_infix s) as (w1 & w2 & E & _). intros H. rewrite E in H.
  apply Forall_app in H as [_ H]. apply Forall_app in H as [H _]. exact H.
Qed.

(** ** The clean-up of both compressors *)

Lemma clean_shape (text : str) :
  single_spaced (AdvancedPDFCompressor.clean text) = true /\
  long_run (AdvancedPDFCompressor.clean text) = false.
Proof.
  unfold AdvancedPDFCompressor.clean.
  destruct (spaces_shape text) as [H1 _]. cbv zeta in H1.
  destruct (char_run_shape (re_sub pat_spaces (fun _ => [space]) text))
    as (_ & _ & H3 & H4).
  split; [exact (H4 H1) | exact H3].
Qed.

Lemma clean_text_strip_clean (text : str) :
  PDFCompressor.clean_text text = strip (AdvancedPDFCompressor.clean text).
Proof.
  unfold PDFCompressor.clean_text. fold (AdvancedPDFCompressor.clean text).
  rewrite page_number_fixed; [reflexivity|].
  apply single_spaced_no_newline, clean_shape.
Qed.

Lemma clean_fixed (s : str) :
  single_spaced s = true -> long_run s = false -> AdvancedPDFCompressor.clean s = s.
Proof.
  intros H1 H2. unfold AdvancedPDFCompressor.clean.
  rewrite (spaces_fixed s H1). apply char_run_fixed, H2.
Qed.

(** X1. [clean_text] leaves white space only as single spaces between
    other characters: every white-space character of the result is a
    space that is followed by a character that is not white space, the
    result neither starts nor ends with white space, it holds no newline,
    and no character stands five times in a row in it. *)
Theorem clean_text_shape (text : str) :
  let out := PDFCompressor.clean_text text in
  single_spaced out = true /\
  (forall c, head out = Some c -> isspace c = false) /\
  (forall c, last out = Some c -> isspace c = false) /\
  ~ In newline out /\
  long_run out = false.
Proof.
  cbv zeta. rewrite clean_text_strip_clean.
  destruct (clean_shape text) as [H1 H2].
  split; [apply single_spaced_strip, H1|].
  split; [apply strip_no_leading|]. split; [apply strip_no_trailing|].
  split; [|apply long_run_strip, H2].
  intros Hin.
  pose proof (no_newline_strip _ (single_spaced_no_newline _ H1)) as Hn.
  rewrite List.Forall_forall in Hn. specialize (Hn _ Hin). discriminate.
Qed.

(** X2. Cleaning a cleaned text changes nothing: [clean_text] is
    idempotent. *)
Theorem clean_text_idempotent (text : str) :
  PDFCompressor.clean_text (PDFCompressor.clean_text text)
    = PDFCompressor.clean_text text.
Proof.
  rewrite (clean_text_strip_clean (PDFCompressor.clean_text text)).
  rewrite (clean_text_strip_clean text).
  destruct (clean_shape text) as [H1 H2].
  rewrite clean_fixed;
    [apply strip_idem | apply single_spaced_strip, H1 | apply long_run_strip, H2].
Qed.

(** X3. The substitution of line 45 (page numbers between newlines) never
    changes the text: the substitution of line 41 has turned every
    newline into a space.  So [clean_text] is the clean-up of the
    summarizing compressor (lines 124-125 there) followed by [strip]. *)
Theorem page_number_step_is_void (text : str) :
  let spaced := re_sub pat_spaces (fun _ => [space]) text in
  let collapsed := re_sub pat_char_run twice_first spaced in
  ~ In newline spaced /\
  re_sub pat_page_number (fun _ => [newline]) collapsed = collapsed /\
  PDFCompressor.clean_text text = strip (AdvancedPDFCompressor.clean text).
Proof.
  cbv zeta. destruct (spaces_shape text) as [H1 _]. cbv zeta in H1.
  destruct (clean_shape text) as [H2 H3].
  split; [|split].
  - intros Hin. pose proof (single_spaced_no_newline _ H1) as Hn.
    rewrite List.Forall_forall in Hn. specialize (Hn _ Hin). discriminate.
  - apply page_number_fixed, single_spaced_no_newline. exact H2.
  - apply clean_text_strip_clean.
Qed.

(** X4. The clean-up of the summarizing compressor (lines 124-125)
    leaves white space only as single spaces and no character five times
    in a row, never makes the text longer, and applied a second time
    changes nothing. *)
Theorem advanced_clean_idempotent (text : str) :
  let out := AdvancedPDFCompressor.clean text in
  single_spaced out = true /\
  long_run out = false /\
  (length out <= length text)%nat /\
  AdvancedPDFCompressor.clean out = out.
Proof.
  cbv zeta. destruct (clean_shape text) as [H1 H2].
  split; [exact H1|]. split; [exact H2|]. split; [apply clean_length|].
  apply clean_fixed; assumption.
Qed.

(** ** Lines: [split] and [join] on the newline *)

Lemma split_nil : split [newline] [] = [[]].
Proof. reflexivity. Qed.

Lemma split_cons (c : char) (rest : str) :
  split [newline] (c :: rest) =
    if char_eqb newline c then [] :: split [newline] rest
    else cons_head c (split [newline] rest).
Proof.
  unfold split. rewrite (re_split_cons _ (pat_literal_forward [newline])).
  unfold pat_literal at 1. cbn [starts_with length].
  destruct (char_eqb newline c); cbn [andb]; [rewrite drop_0|]; reflexivity.
Qed.

Lemma split_not_nil (text : str) : split [newline] text <> [].
Proof.
  destruct text as [|c rest]; [discriminate|]. rewrite split_cons.
  destruct (char_eqb newline c); [discriminate|].
  destruct (split [newline] rest); discriminate.
Qed.

Lemma join_cons (sep p : str) (ps : list str) :
  ps <> [] -> join sep (p :: ps) = p ++ sep ++ join sep ps.
Proof. destruct ps; [congruence | reflexivity]. Qed.

Lemma join_cons_head (sep : str) (c : char) (ps : list str) :
  ps <> [] -> join sep (cons_head c ps) = c :: join sep ps.
Proof.
  destruct ps as [|p ps]; [congruence|]. intros _. cbn [cons_head].
  destruct ps; reflexivity.
Qed.

(** Joining the lines of a text gives the text back. *)
Lemma join_split (text : str) : join [newline] (split [newline] text) = text.
Proof.
  induction text as [|c rest IH]; [reflexivity|]. rewrite split_cons.
  destruct (char_eqb newline c) eqn:E.
  - apply char_eqb_eq in E. subst c.
    rewrite join_cons by apply split_not_nil. rewrite IH. reflexivity.
  - rewrite join_cons_head by apply split_not_nil. rewrite IH. reflexivity.
Qed.

Lemma split_one_line (l : str) :
  Forall (fun c => char_eqb c newline = false) l -> split [newline] l = [l].
Proof.
  induction 1 as [|c l Hc _ IH]; [reflexivity|]. rewrite split_cons.
  assert (char_eqb newline c = false) as ->.
  { destruct (char_eqb newline c) eqn:E; [|reflexivity].
    apply char_eqb_eq in E. subst c. rewrite char_eqb_refl in Hc. discriminate. }
  rewrite IH. reflexivity.
Qed.

Lemma split_line_app (l rest : str) :
  Forall (fun c => char_eqb c newline = false) l ->
  split [newline] (l ++ newline :: rest) = l :: split [newline] rest.
Proof.
  induction 1 as [|c l Hc _ IH]; cbn [app].
  - rewrite split_cons, char_eqb_refl. reflexivity.
  - rewrite split_cons.
    assert (char_eqb newline c = false) as ->.
    { destruct (char_eqb newline c) eqn:E; [|reflexivity].
      apply char_eqb_eq in E. subst c. rewrite char_eqb_refl in Hc. discriminate. }
    rewrite IH. reflexivity.
Qed.

(** Splitting joined lines gives the lines back. *)
Lemma split_join (ls : list str) :
  ls <> [] ->
  Forall (Forall (fun c => char_eqb c newline = false)) ls ->
  split [newline] (join [newline] ls) = ls.
Proof.
  induction ls as [|l ls IH]; [congruence|]. intros _ Hall.
  apply Forall_cons in Hall as [Hl Hls].
  destruct ls as [|l' ls']; [apply split_one_line, Hl|].
  rewrite join_cons by discriminate. cbn [app].
  rewrite split_line_app by exact Hl. rewrite IH; [reflexivity|discriminate|exact Hls].
Qed.

Lemma split_lines_no_newline (text : str) :
  Forall (Forall (fun c => char_eqb c newline = false)) (split [newline] text).
Proof.
  induction text as [|c rest IH]; [repeat constructor|]. rewrite split_cons.
  destruct (char_eqb newline c) eqn:E; [constructor; [constructor|exact IH]|].
  pose proof (split_not_nil rest) as Hne.
  destruct (split [newline] rest) as [|f fs]; [congruence|].
  apply Forall_cons in IH as [Hf Hfs]. cbn [cons_head].
  constructor; [|exact Hfs]. constructor; [|exact Hf].
  destruct (char_eqb c newline) eqn:E'; [|reflexivity].
  apply char_eqb_eq in E'. subst c. rewrite char_eqb_refl in E. discriminate.
Qed.

Lemma join_length_sublist (sep : str) (l1 l2 : list str) :
  l1 `sublist_of` l2 -> (length (join sep l1) <= length (join sep l2))%nat.
Proof.
  induction 1 as [|x l1 l2 Hs IH|x l1 l2 Hs IH]; [cbn; lia| |].
  - destruct l1 as [|y l1].
    + destruct l2 as [|z l2]; [lia|].
      rewrite (join_cons sep x (z :: l2)) by discriminate.
      cbn [join]. rewrite !length_app. lia.
    + destruct l2 as [|z l2]; [pose proof (proj1 (sublist_nil_r _) Hs) as E; discriminate E|].
      rewrite (join_cons sep x (y :: l1)), (join_cons sep x (z :: l2)) by discriminate.
      rewrite !length_app. lia.
  - destruct l2 as [|z l2].
    + pose proof (proj1 (sublist_nil_r _) Hs) as E. subst l1. cbn. lia.
    + rewrite join_cons by discriminate. rewrite !length_app. lia.
Qed.

Lemma join_length_strip (sep : str) (ls : list str) :
  (length (join sep (map strip ls)) <= length (join sep ls))%nat.
Proof.
  induction ls as [|l ls IH]; [cbn; lia|].
  destruct ls as [|l' ls']; [apply strip_length|].
  cbn [map] in *.
  rewrite (join_cons sep (strip l) (strip l' :: map strip ls')),
          (join_cons sep l (l' :: ls')) by discriminate.
  rewrite !length_app. pose proof (strip_length l). lia.
Qed.

Lemma filter_sublist {A} (f : A -> bool) (l : list A) : List.filter f l `sublist_of` l.
Proof.
  induction l as [|a l IH]; [constructor|]. cbn [List.filter].
  destruct (f a); [apply sublist_skip | apply sublist_cons]; exact IH.
Qed.

(** ** [remove_redundancy] *)

Lemma remove_redundancy_unfold (text : str) :
  PDFCompressor.remove_redundancy text =
    join [newline]
      (foldl PDFCompressor.keep_line (∅, []) (split [newline] text)).2.
Proof.
  unfold PDFCompressor.remove_redundancy.
  destruct (foldl PDFCompressor.keep_line (∅, []) (split [newline] text)).
  reflexivity.
Qed.

Lemma keep_line_unfold (seen : gset str) (uniq : list str) (line : str) :
  PDFCompressor.keep_line (seen, uniq) line =
    if nonempty (strip line) then
      if bool_decide (line_key (strip line) ∈ seen) then (seen, uniq)
      else ({[ line_key (strip line) ]} ∪ seen, uniq ++ [strip line])
    else (seen, uniq).
Proof. reflexivity. Qed.

Lemma keep_lines_inv (lines : list str) : forall (seen : gset str) (uniq : list str),
  (forall k, k ∈ seen <-> k ∈ map line_key uniq) ->
  NoDup (map line_key uniq) ->
  let candidates := List.filter nonempty (map strip lines) in
  exists added,
    (foldl PDFCompressor.keep_line (seen, uniq) lines).2 = uniq ++ added /\
    NoDup (map line_key (uniq ++ added)) /\
    added `sublist_of` candidates /\
    (forall l, l ∈ candidates -> line_key l ∈ map line_key (uniq ++ added)) /\
    (forall pre l suf, candidates = pre ++ l :: suf ->
       line_key l ∉ map line_key uniq -> line_key l ∉ map line_key pre ->
       l ∈ added).
Proof.
  induction lines as [|line lines IH]; intros seen uniq Hseen Hnd; cbv zeta.
  - exists []. rewrite app_nil_r. cbn [foldl map List.filter].
    split; [reflexivity|]. split; [exact Hnd|]. split; [constructor|].
    split; [intros l Hl; inversion Hl|].
    intros pre l suf E. destruct pre; discriminate E.
  - cbn [foldl map List.filter]. rewrite keep_line_unfold.
    destruct (nonempty (strip line)) eqn:Ene; [|apply IH; assumption].
    destruct (bool_decide (line_key (strip line) ∈ seen)) eqn:Eseen.
    + apply bool_decide_eq_true in Eseen. apply Hseen in Eseen.
      destruct (IH seen uniq Hseen Hnd) as (added & E & Hnd' & Hsub & Hcov & Hfirst).
      exists added. split; [exact E|]. split; [exact Hnd'|].
      split; [apply sublist_cons, Hsub|]. split.
      * intros l Hl. apply elem_of_cons in Hl as [->|Hl]; [|apply Hcov, Hl].
        rewrite map_app. apply elem_of_app. left. exact Eseen.
      * intros pre l suf Ec Hu Hp. destruct pre as [|c pre]; injection Ec as <- Ec.
        -- contradiction.
        -- apply (Hfirst pre l suf Ec Hu). intros Hin. apply Hp.
           cbn [map]. apply elem_of_cons. right. exact Hin.
    + apply bool_decide_eq_false in Eseen.
      assert (line_key (strip line) ∉ map line_key uniq) as Hfresh.
      { intros Hin. apply Eseen, Hseen, Hin. }
      destruct (IH ({[ line_key (strip line) ]} ∪ seen) (uniq ++ [strip line]))
        as (added & E & Hnd' & Hsub & Hcov & Hfirst).
      { intros k. rewrite map_app, elem_of_app, elem_of_union, elem_of_singleton.
        cbn [map]. rewrite list_elem_of_singleton, Hseen. tauto. }
      { rewrite map_app. apply NoDup_app. split; [exact Hnd|]. split.
        - intros k Hk Hk'. cbn [map] in Hk'. apply list_elem_of_singleton in Hk'.
          subst k. contradiction.
        - cbn [map]. apply NoDup_singleton. }
      rewrite <- app_assoc in E, Hnd', Hcov. cbn [app] in E, Hnd', Hcov.
      exists (strip line :: added). split; [exact E|]. split; [exact Hnd'|].
      split; [apply sublist_skip, Hsub|]. split.
      * intros l Hl. apply elem_of_cons in Hl as [->|Hl]; [|apply Hcov, Hl].
        rewrite map_app. apply elem_of_app. right. cbn [map]. apply elem_of_cons.
        left. reflexivity.
      * intros pre l suf Ec Hu Hp. destruct pre as [|c pre]; injection Ec as <- Ec.
        -- apply elem_of_cons. left. reflexivity.
        -- apply elem_of_cons. right. apply (Hfirst pre l suf Ec).
           ++ rewrite map_app. intros Hin. apply elem_of_app in Hin as [Hin|Hin];
                [contradiction|]. cbn [map] in Hin.
              apply list_elem_of_singleton in Hin. apply Hp. cbn [map].
              apply elem_of_cons. left. exact Hin.
           ++ intros Hin. apply Hp. cbn [map]. apply elem_of_cons. right. exact Hin.
Qed.

(** A second pass over lines that are trimmed, not empty and of
    different keys keeps them all. *)
Lemma keep_lines_fresh (ls : list str) : forall (seen : gset str) (acc : list str),
  Forall (fun l => strip l = l /\ l <> []) ls ->
  NoDup (map line_key ls) ->
  (forall l, l ∈ ls -> line_key l ∉ seen) ->
  (foldl PDFCompressor.keep_line (seen, acc) ls).2 = acc ++ ls.
Proof.
  induction ls as [|l ls IH]; intros seen acc Hall Hnd Hseen.
  - rewrite app_nil_r. reflexivity.
  - apply Forall_cons in Hall as [[Hl Hne] Hall]. cbn [map] in Hnd.
    apply NoDup_cons in Hnd as [Hl' Hnd].
    cbn [foldl]. rewrite keep_line_unfold, Hl.
    destruct l as [|c l0]; [congruence|]. cbn [nonempty].
    rewrite bool_decide_eq_false_2 by (apply Hseen; left).
    rewrite IH; [rewrite <- app_assoc; reflexivity|exact Hall|exact Hnd|].
    intros l1 Hl1 Hin. apply elem_of_union in Hin as [Hin|Hin].
    + apply elem_of_singleton in Hin. apply Hl'. rewrite <- Hin.
      apply list_elem_of_fmap. exists l1. split; [reflexivity|exact Hl1].
    + apply (Hseen l1); [right; exact Hl1 | exact Hin].
Qed.

Lemma candidate_props (lines : list str) (l : str) :
  Forall (Forall (fun c => char_eqb c newline = false)) lines ->
  l ∈ List.filter nonempty (map strip lines) ->
  strip l = l /\ l <> [] /\ Forall (fun c => char_eqb c newline = false) l.
Proof.
  intros Hall Hl. apply list_elem_of_In, filter_In in Hl as [Hl Hne].
  apply in_map_iff in Hl as (l0 & <- & Hl0).
  split; [apply strip_idem|]. split.
  - destruct (strip l0); [discriminate | congruence].
  - apply no_newline_strip. rewrite List.Forall_forall in Hall. apply Hall, Hl0.
Qed.

(** X5. What [remove_redundancy] returns is a list of lines joined by
    newlines: the trimmed, non-empty lines of the text in their order,
    without those whose key (the first 100 characters, lowercased) a line
    before them has.  No two lines kept share a key, every line has its
    key among those kept, and a line whose key no earlier line has is
    kept. *)
Theorem remove_redundancy_keeps_first_of_each_key (text : str) :
  let candidates := List.filter nonempty (map strip (split [newline] text)) in
  exists kept,
    PDFCompressor.remove_redundancy text = join [newline] kept /\
    kept `sublist_of` candidates /\
    NoDup (map line_key kept) /\
    (forall l, l ∈ candidates -> line_key l ∈ map line_key kept) /\
    (forall pre l suf, candidates = pre ++ l :: suf ->
       line_key l ∉ map line_key pre -> l ∈ kept).
Proof.
  cbv zeta. rewrite remove_redundancy_unfold.
  destruct (keep_lines_inv (split [newline] text) ∅ [])
    as (kept & E & Hnd & Hsub & Hcov & Hfirst).
  { intros k. cbn [map]. split; intros H; [set_solver | inversion H]. }
  { constructor. }
  cbn [app] in *. exists kept. rewrite E. split; [reflexivity|].
  split; [exact Hsub|]. split; [exact Hnd|]. split; [exact Hcov|].
  intros pre l suf Ec Hp. apply (Hfirst pre l suf Ec); [|exact Hp].
  cbn [map]. intros H. inversion H.
Qed.

Lemma remove_redundancy_kept (text : str) :
  exists kept,
    PDFCompressor.remove_redundancy text = join [newline] kept /\
    (foldl PDFCompressor.keep_line (∅, []) (split [newline] text)).2 = kept /\
    kept `sublist_of` List.filter nonempty (map strip (split [newline] text)) /\
    NoDup (map line_key kept) /\
    Forall (fun l => strip l = l /\ l <> [] /\
                     Forall (fun c => char_eqb c newline = false) l) kept.
Proof.
  rewrite remove_redundancy_unfold.
  destruct (keep_lines_inv (split [newline] text) ∅ [])
    as (kept & E & Hnd & Hsub & _).
  { intros k. cbn [map]. split; intros H; [set_solver | inversion H]. }
  { constructor. }
  cbn [app] in *. exists kept. rewrite E. split; [reflexivity|].
  split; [reflexivity|]. split; [exact Hsub|]. split; [exact Hnd|].
  apply Forall_forall. intros l Hl.
  apply (candidate_props (split [newline] text)); [apply split_lines_no_newline|].
  eapply elem_of_sublist; [exact Hl | exact Hsub].
Qed.

(** X6. Removing redundancy twice is removing it once. *)
Theorem remove_redundancy_idempotent (text : str) :
  PDFCompressor.remove_redundancy (PDFCompressor.remove_redundancy text)
    = PDFCompressor.remove_redundancy text.
Proof.
  destruct (remove_redundancy_kept text) as (kept & E & _ & _ & Hnd & Hall).
  rewrite E. rewrite remove_redundancy_unfold.
  destruct kept as [|l kept']; [reflexivity|].
  rewrite split_join; [|discriminate|].
  - rewrite (keep_lines_fresh (l :: kept') ∅ []); [reflexivity| |exact Hnd|].
    + eapply Forall_impl; [exact Hall|]. intros x (H1 & H2 & _). auto.
    + intros x _. set_solver.
  - eapply Forall_impl; [exact Hall|]. intros x (_ & _ & H3). exact H3.
Qed.

(** X7. [remove_redundancy] never returns a longer text than it was
    given. *)
Theorem remove_redundancy_length (text : str) :
  (length (PDFCompressor.remove_redundancy text) <= length text)%nat.
Proof.
  destruct (remove_redundancy_kept text) as (kept & E & _ & Hsub & _).
  rewrite E. rewrite <- (join_split text) at 1.
  etransitivity; [apply join_length_sublist, Hsub|].
  etransitivity; [apply join_length_sublist, filter_sublist|].
  apply join_length_strip.
Qed.

(** On one line, [remove_redundancy] is [strip]. *)
Lemma remove_redundancy_one_line (s : str) :
  Forall (fun c => char_eqb c newline = false) s ->
  PDFCompressor.remove_redundancy s = strip s.
Proof.
  intros H. rewrite remove_redundancy_unfold, (split_one_line s H).
  cbn [foldl]. rewrite keep_line_unfold.
  destruct (strip s) as [|c r] eqn:E; [reflexivity|]. cbn [nonempty].
  rewrite bool_decide_eq_false_2 by set_solver. reflexivity.
Qed.

(** ** [compress_abbreviations] *)

Lemma starts_with_length (old s : str) :
  starts_with old s = true -> (length old <= length s)%nat.
Proof.
  revert s. induction old as [|a old IH]; intros s; [cbn; lia|].
  destruct s as [|b s]; [discriminate|]. cbn [starts_with length].
  intros H. apply andb_prop in H as [_ H]. apply IH in H. lia.
Qed.

Lemma replace_length (old new text : str) :
  (length new <= length old)%nat ->
  (length (replace old new text) <= length text)%nat.
Proof.
  intros Hlen. apply re_sub_length. intros before rest k. unfold pat_literal.
  destruct (starts_with old rest) eqn:E; [|discriminate]. intros [= Hk].
  apply starts_with_length in E. rewrite length_take. lia.
Qed.

Lemma replace_no_hit (old new text : str) (a : char) :
  head old = Some a -> Forall (fun c => char_eqb a c = false) text ->
  replace old new text = text.
Proof.
  intros Ha. apply (re_sub_no_hit _ _ (pat_literal_forward old) (char_eqb a)).
  intros c rest k. unfold pat_literal.
  destruct old as [|a' old']; [discriminate|]. injection Ha as ->.
  cbn [starts_with]. destruct (char_eqb a c); [reflexivity|discriminate].
Qed.

Lemma replacements_props :
  Forall (fun '(old, new) => (length new <= length old)%nat /\
                             head old = Some space /\ ~ In newline new)
         PDFCompressor.replacements.
Proof.
  unfold PDFCompressor.replacements. cbn [map].
  repeat constructor; try (cbn; lia);
    cbn; intros H; repeat (destruct H as [H|H]; [discriminate H|]); exact H.
Qed.

Lemma compress_abbreviations_length (text : str) :
  (length (PDFCompressor.compress_abbreviations text) <= length text)%nat.
Proof.
  unfold PDFCompressor.compress_abbreviations. revert text.
  induction replacements_props as [|[old new] pairs (Hlen & _) _ IH]; intros text;
    [reflexivity|].
  cbn [foldl]. etransitivity; [apply IH|]. apply replace_length, Hlen.
Qed.

(** X8. No abbreviation is longer than the phrase it stands for, so
    [compress_abbreviations] never returns a longer text than it was
    given; and since every phrase starts with a space, a text without a
    space comes back unchanged. *)
Theorem compress_abbreviations_shrinks (text : str) :
  (length (PDFCompressor.compress_abbreviations text) <= length text)%nat /\
  (Forall (fun c => char_eqb space c = false) text ->
   PDFCompressor.compress_abbreviations text = text).
Proof.
  split; [apply compress_abbreviations_length|].
  unfold PDFCompressor.compress_abbreviations. revert text.
  induction replacements_props as [|[old new] pairs (_ & Hhd & _) _ IH]; intros text Hsp;
    [reflexivity|].
  cbn [foldl]. rewrite (replace_no_hit old new text space Hhd Hsp). apply IH, Hsp.
Qed.

(** ** The truncating compressor as a whole *)

Lemma clean_text_no_newline (text : str) :
  Forall (fun c => char_eqb c newline = false) (PDFCompressor.clean_text text).
Proof.
  rewrite clean_text_strip_clean.
  apply no_newline_strip, single_spaced_no_newline, clean_shape.
Qed.

Lemma remove_redundancy_clean_text (text : str) :
  PDFCompressor.remove_redundancy (PDFCompressor.clean_text text)
    = PDFCompressor.clean_text text.
Proof.
  rewrite (remove_redundancy_one_line _ (clean_text_no_newline text)).
  rewrite clean_text_strip_clean. apply strip_idem.
Qed.

(** X9. In [compress], the deduplication step finds nothing to do: what
    [clean_text] returns is one trimmed line, and [remove_redundancy]
    gives it back unchanged. *)
Theorem dedup_is_void_after_clean (text : str) :
  split [newline] (PDFCompressor.clean_text text) = [PDFCompressor.clean_text text] /\
  PDFCompressor.remove_redundancy (PDFCompressor.clean_text text)
    = PDFCompressor.clean_text text.
Proof.
  split; [apply split_one_line, clean_text_no_newline|].
  apply remove_redundancy_clean_text.
Qed.

Lemma clean_text_length (text : str) :
  (length (PDFCompressor.clean_text text) <= length text)%nat.
Proof.
  rewrite clean_text_strip_clean.
  pose proof (strip_length (AdvancedPDFCompressor.clean text)).
  pose proof (clean_length text). lia.
Qed.

Lemma slice_to_length {A} (l : list A) (k : Z) : (length (slice_to l k) <= length l)%nat.
Proof. unfold slice_to. destruct (0 <=? k); rewrite length_take; lia. Qed.

Lemma slice_to_in {A} (l : list A) (k : Z) (a : A) : In a (slice_to l k) -> In a l.
Proof.
  unfold slice_to. intros H.
  destruct (0 <=? k); apply list_elem_of_In in H; apply list_elem_of_In;
    (eapply elem_of_sublist; [exact H | apply sublist_take]).
Qed.

(** The characters of [text.replace(old, new)] are characters of the
    text or of [new]. *)
Lemma replace_chars (old new text : str) (a : char) :
  In a (replace old new text) -> In a text \/ In a new.
Proof.
  unfold replace.
  apply (re_sub_ind (pat_literal old) (fun _ => new) (pat_literal_forward old)
           (fun text out => In a out -> In a text \/ In a new)).
  - intros [].
  - intros c rest k _ IH Hin. apply in_app_or in Hin as [Hin|Hin]; [right; exact Hin|].
    destruct (IH Hin) as [H|H]; [|right; exact H].
    left. right. apply list_elem_of_In. apply list_elem_of_In in H.
    eapply elem_of_sublist; [exact H | apply sublist_drop].
  - intros c rest _ IH [->|Hin]; [left; left; reflexivity|].
    destruct (IH Hin) as [H|H]; [left; right; exact H | right; exact H].
Qed.

Lemma compress_abbreviations_no_newline (text : str) :
  ~ In newline text -> ~ In newline (PDFCompressor.compress_abbreviations text).
Proof.
  unfold PDFCompressor.compress_abbreviations. revert text.
  induction replacements_props as [|[old new] pairs (_ & _ & Hnew) _ IH]; intros text Hn;
    [exact Hn|].
  cbn [foldl]. apply IH. intros Hin. apply replace_chars in Hin as [H|H]; auto.
Qed.

Lemma estimate_mono (a b : str) :
  (length a <= length b)%nat ->
  PDFCompressor.estimate_tokens a <= PDFCompressor.estimate_tokens b.
Proof.
  intros H. unfold PDFCompressor.estimate_tokens. apply Z.div_le_mono; lia.
Qed.

Lemma simple_compress_cases (mt : Z) (text : str) :
  let abbreviated := PDFCompressor.compress_abbreviations (PDFCompressor.clean_text text) in
  let out := if mt <? PDFCompressor.estimate_tokens abbreviated
             then slice_to abbreviated (mt * 4) else abbreviated in
  PDFCompressor.compress (PDFCompressor.init mt) text =
    (if (length text <? 4)%nat then Raise ZeroDivisionError
     else Ok (Report (PDFCompressor.estimate_tokens text)
                     (PDFCompressor.estimate_tokens out) out)).
Proof.
  intros abbreviated out.
  pose proof (simple_compress_unfold mt text) as Hc. cbv zeta in Hc.
  rewrite remove_redundancy_clean_text in Hc. fold abbreviated in Hc. fold out in Hc.
  rewrite Hc. unfold truediv.
  destruct (Nat.ltb_spec (length text) 4) as [Hlt|Hge].
  - assert (PDFCompressor.estimate_tokens text = 0) as ->; [|reflexivity].
    unfold PDFCompressor.estimate_tokens. apply Z.div_small. lia.
  - assert ((PDFCompressor.estimate_tokens text =? 0) = false) as ->; [|reflexivity].
    apply Z.eqb_neq. unfold PDFCompressor.estimate_tokens.
    pose proof (Z.div_le_mono 4 (Z.of_nat (length text)) 4).
    assert (4 / 4 = 1) by reflexivity. lia.
Qed.

(** X10. What the truncating [compress] returns.  It raises
    [ZeroDivisionError] exactly on the texts of fewer than four characters
    (line 148 divides by the original estimate) and raises nothing else,
    whatever the budget.  When it returns, the text is the abbreviated
    clean-up of the input, cut to [max_chars] when its estimate exceeds
    the budget; it holds no newline, it is not longer than the input and
    its estimate is not above the original estimate. *)
Theorem simple_compress_result (mt : Z) (text : str) :
  let abbreviated := PDFCompressor.compress_abbreviations (PDFCompressor.clean_text text) in
  let out := if mt <? PDFCompressor.estimate_tokens abbreviated
             then slice_to abbreviated (mt * 4) else abbreviated in
  PDFCompressor.compress (PDFCompressor.init mt) text =
    (if (length text <? 4)%nat then Raise ZeroDivisionError
     else Ok (Report (PDFCompressor.estimate_tokens text)
                     (PDFCompressor.estimate_tokens out) out)) /\
  ~ In newline out /\
  (length out <= length text)%nat /\
  PDFCompressor.estimate_tokens out <= PDFCompressor.estimate_tokens text.
Proof.
  intros abbreviated out.
  assert (length abbreviated <= length text)%nat as Hlen.
  { unfold abbreviated.
    pose proof (compress_abbreviations_length (PDFCompressor.clean_text text)).
    pose proof (clean_text_length text). lia. }
  assert (~ In newline abbreviated) as Hnl.
  { apply compress_abbreviations_no_newline. intros Hin.
    pose proof (clean_text_no_newline text) as Hn.
    rewrite List.Forall_forall in Hn. specialize (Hn _ Hin). discriminate. }
  assert (length out <= length text)%nat as Hout.
  { unfold out. destruct (mt <? _); [|exact Hlen].
    pose proof (slice_to_length abbreviated (mt * 4)). lia. }
  split; [apply simple_compress_cases|].
  split; [|split; [exact Hout | apply estimate_mono, Hout]].
  unfold out. destruct (mt <? _); [|exact Hnl].
  intros Hin. apply Hnl, (slice_to_in _ _ _ Hin).
Qed.

(** ** The structure of the segmentation *)

(** The fragments after the first start with the white space at which the
    text was cut. *)
Lemma cut_later_start (text : str) : forall prev g gs,
  cut_after_terminal prev text = g :: gs ->
  Forall (fun f => match f with c :: _ => isspace c = true | [] => False end) gs.
Proof.
  induction text as [|c rest IH]; intros prev g gs; cbn [cut_after_terminal].
  - intros [= <- <-]. constructor.
  - destruct (cut_nonempty (Some c) rest) as (h & t & E). rewrite E.
    cbn [cons_head]. pose proof (IH _ _ _ E) as Ht.
    destruct (split_point prev c) eqn:Es; intros [= <- <-]; [|exact Ht].
    constructor; [|exact Ht]. destruct prev as [p|]; [|discriminate].
    cbn [split_point] in Es. apply andb_prop in Es as [_ Es]. exact Es.
Qed.

(** Every fragment but the last ends with the terminal after which the
    text was cut; only a first fragment that starts at a cut is empty. *)
Lemma cut_ends (text : str) : forall prev g gs,
  cut_after_terminal prev text = g :: gs ->
  (gs <> [] ->
     ends_sentence g = true \/
     (g = [] /\ exists p, prev = Some p /\ is_terminal p = true)) /\
  (forall pre f suf, gs = pre ++ f :: suf -> suf <> [] -> ends_sentence f = true).
Proof.
  induction text as [|c rest IH]; intros prev g gs; cbn [cut_after_terminal].
  - intros [= <- <-]. split; [congruence|]. intros [|? ?] ? ? E; discriminate E.
  - destruct (cut_nonempty (Some c) rest) as (h & t & E). rewrite E.
    cbn [cons_head]. destruct (IH _ _ _ E) as [IH1 IH2].
    assert (t <> [] -> ends_sentence (c :: h) = true) as Hch.
    { intros Ht. destruct (IH1 Ht) as [He|(-> & p & [= <-] & Hp)].
      - unfold ends_sentence in *. destruct h as [|d h']; [discriminate He|].
        rewrite last_cons. destruct (last (d :: h')); [exact He | discriminate He].
      - exact Hp. }
    destruct (split_point prev c) eqn:Es; intros [= <- <-].
    + split.
      * intros _. right. split; [reflexivity|].
        destruct prev as [p|]; [|discriminate]. exists p. split; [reflexivity|].
        cbn [split_point] in Es. apply andb_prop in Es as [Es _]. exact Es.
      * intros pre f suf Ec Hsuf. destruct pre as [|x pre]; injection Ec as <- Ec.
        -- subst t. exact (Hch Hsuf).
        -- exact (IH2 pre f suf Ec Hsuf).
    + split; [intros Ht; left; exact (Hch Ht) | exact IH2].
Qed.

(** No fragment holds a place where the text would have been cut. *)
Lemma cut_no_gap (text : str) : forall prev g gs,
  cut_after_terminal prev text = g :: gs ->
  (forall d, head text = Some d -> split_point prev d = true -> g = []) /\
  (forall d, head g = Some d -> head text = Some d) /\
  Forall (fun f => has_gap f = false) (g :: gs).
Proof.
  induction text as [|c rest IH]; intros prev g gs; cbn [cut_after_terminal].
  - intros [= <- <-]. split; [discriminate|]. split; [discriminate|].
    repeat constructor.
  - destruct (cut_nonempty (Some c) rest) as (h & t & E). rewrite E.
    cbn [cons_head]. destruct (IH _ _ _ E) as (IH1 & IH2 & IH3).
    apply Forall_cons in IH3 as [Hh Ht].
    assert (has_gap (c :: h) = false) as Hch.
    { destruct h as [|d h']; [reflexivity|].
      cbn [has_gap] in *. rewrite Hh, orb_false_r.
      pose proof (IH2 d eq_refl) as Hd.
      destruct (is_terminal c && isspace d) eqn:Eg; [|reflexivity].
      pose proof (IH1 d Hd Eg). discriminate. }
    destruct (split_point prev c) eqn:Es; intros [= <- <-].
    + split; [reflexivity|]. split; [discriminate|].
      constructor; [reflexivity|]. constructor; assumption.
    + split; [intros d [= <-]; congruence|]. split; [intros d [= <-]; reflexivity|].
      constructor; assumption.
Qed.

Lemma has_gap_app (a b : str) :
  has_gap (a ++ b) = false -> has_gap a = false /\ has_gap b = false.
Proof.
  induction a as [|c a IH]; [auto|]. cbn [app]. intros H.
  destruct a as [|d a'].
  - split; [reflexivity|]. destruct b as [|e b']; [reflexivity|].
    cbn [app has_gap] in H. apply orb_false_elim in H as [_ H]. exact H.
  - cbn [app has_gap] in H. apply orb_false_elim in H as [H1 H2].
    destruct (IH H2) as [Ha Hb]. split; [|exact Hb].
    cbn [has_gap]. cbn [has_gap] in Ha. rewrite H1, Ha. reflexivity.
Qed.

Lemma has_gap_strip (s : str) : has_gap s = false -> has_gap (strip s) = false.
Proof.
  destruct (strip_infix s) as (w1 & w2 & E & _). intros H. rewrite E in H.
  apply has_gap_app in H as [_ H]. apply has_gap_app in H as [H _]. exact H.
Qed.

Lemma last_app_spaces (s w : str) (t : char) :
  forallb isspace w = true -> last (s ++ w) = Some t -> isspace t = false ->
  w = [].
Proof.
  intros Hw Hl Ht. destruct w as [|c w'] using rev_ind; [reflexivity|].
  rewrite app_assoc, last_snoc in Hl. injection Hl as ->.
  rewrite forallb_app in Hw. apply andb_prop in Hw as [_ Hw].
  cbn in Hw. rewrite Ht in Hw. discriminate.
Qed.

(** A text that ends with a terminal still does after trimming. *)
Lemma ends_sentence_strip (s : str) :
  ends_sentence s = true -> ends_sentence (strip s) = true /\ strip s <> [].
Proof.
  unfold ends_sentence. destruct (last s) as [t|] eqn:El; [|discriminate].
  intros Ht. pose proof (terminal_not_space t Ht) as Hns.
  destruct (strip_infix s) as (w1 & w2 & E & H1 & H2).
  rewrite E, app_assoc in El.
  pose proof (last_app_spaces _ _ _ H2 El Hns) as ->. rewrite app_nil_r in El.
  destruct (strip s) as [|c r] eqn:Es using rev_ind.
  - rewrite app_nil_r in El. exfalso.
    destruct w1 as [|c w1'] using rev_ind; [discriminate|].
    rewrite last_snoc in El. injection El as ->.
    rewrite forallb_app in H1. apply andb_prop in H1 as [_ H1].
    cbn in H1. rewrite Hns in H1. discriminate.
  - rewrite app_assoc, last_snoc in El. injection El as ->.
    rewrite last_snoc. split; [exact Ht|]. intros H. destruct r; discriminate H.
Qed.

Lemma strip_filter_ends (fs : list str) :
  (forall pre f suf, fs = pre ++ f :: suf -> suf <> [] -> ends_sentence f = true) ->
  forall pre s suf,
    List.filter nonempty (map strip fs) = pre ++ s :: suf -> suf <> [] ->
    ends_sentence s = true.
Proof.
  induction fs as [|f fs IH]; intros Hends pre s suf E Hsuf.
  - destruct pre; discriminate E.
  - assert (forall pre f' suf, fs = pre ++ f' :: suf -> suf <> [] ->
                               ends_sentence f' = true) as Hends'.
    { intros pre' f' suf' E' Hs'. apply (Hends (f :: pre') f' suf'); [|exact Hs'].
      rewrite E'. reflexivity. }
    destruct fs as [|f2 fs'].
    + cbn [map List.filter] in E. revert E. destruct (nonempty (strip f)); intros E.
      * destruct pre as [|x pre]; injection E as E1 E2; [congruence|].
        destruct pre; discriminate E2.
      * destruct pre; discriminate E.
    + assert (ends_sentence f = true) as Hf
        by (apply (Hends [] f (f2 :: fs')); [reflexivity | discriminate]).
      apply ends_sentence_strip in Hf as [Hf Hne].
      change (map strip (f :: f2 :: fs')) with (strip f :: map strip (f2 :: fs')) in E.
      cbn [List.filter] in E. remember (strip f) as sf eqn:Es.
      destruct sf as [|c r]; [congruence|].
      cbn [nonempty] in E. destruct pre as [|x pre]; injection E as <- E.
      * exact Hf.
      * exact (IH Hends' pre s suf E Hsuf).
Qed.

(** What every sentence of the segmentation is like. *)
Lemma sentence_props (text : str) :
  let ss := AdvancedPDFCompressor.sentence_tokenize text in
  Forall (fun s => strip s = s /\ s <> [] /\ has_gap s = false) ss /\
  (forall pre s suf, ss = pre ++ s :: suf -> suf <> [] -> ends_sentence s = true).
Proof.
  cbv zeta. rewrite sentence_tokenize_spec. unfold segment_spec.
  destruct (cut_nonempty None text) as (g & gs & E). rewrite E.
  destruct (cut_no_gap _ _ _ _ E) as (_ & _ & Hgap).
  destruct (cut_ends _ _ _ _ E) as [He1 He2].
  split.
  - apply List.Forall_forall. intros s Hs. apply filter_In in Hs as [Hs Hne].
    apply in_map_iff in Hs as (f & <- & Hf).
    split; [apply strip_idem|]. split; [destruct (strip f); [discriminate|congruence]|].
    apply has_gap_strip. rewrite List.Forall_forall in Hgap. apply Hgap, Hf.
  - apply strip_filter_ends. intros pre f suf Ec Hsuf.
    destruct pre as [|x pre]; injection Ec as <- Ec.
    + subst gs. destruct (He1 Hsuf) as [H|(_ & p & Hp & _)]; [exact H | discriminate Hp].
    + exact (He2 pre f suf Ec Hsuf).
Qed.

(** ** Sentences joined by spaces *)

Lemma cut_app_no_gap (s' : str) : forall (c : char) (prev : option char) (rest : str),
  has_gap (c :: s') = false -> split_point prev c = false ->
  exists h t,
    cut_after_terminal (last (c :: s')) rest = h :: t /\
    cut_after_terminal prev ((c :: s') ++ rest) = ((c :: s') ++ h) :: t.
Proof.
  induction s' as [|d s'' IH]; intros c prev rest Hgap Hsp.
  - destruct (cut_nonempty (Some c) rest) as (h & t & E).
    exists h, t. split; [exact E|].
    cbn [app cut_after_terminal]. rewrite Hsp, E. reflexivity.
  - cbn [has_gap] in Hgap. apply orb_false_elim in Hgap as [Hcd Hgap].
    destruct (IH d (Some c) rest Hgap Hcd) as (h & t & E1 & E2).
    exists h, t. split; [exact E1|].
    change ((c :: d :: s'') ++ rest) with (c :: ((d :: s'') ++ rest)).
    cbn [cut_after_terminal]. rewrite Hsp, E2. reflexivity.
Qed.

Lemma cut_join (ss' : list str) : forall (s : str) (prev : option char),
  Forall (fun s => strip s = s /\ s <> [] /\ has_gap s = false) (s :: ss') ->
  (forall pre x suf, s :: ss' = pre ++ x :: suf -> suf <> [] -> ends_sentence x = true) ->
  (forall c, split_point prev c = false) ->
  cut_after_terminal prev (join [space] (s :: ss')) = s :: map (cons space) ss'.
Proof.
  induction ss' as [|s2 ss'' IH]; intros s prev Hall Hends Hprev.
  - apply Forall_cons in Hall as [(_ & Hne & Hgap) _].
    destruct s as [|c s']; [congruence|].
    destruct (cut_app_no_gap s' c prev [] Hgap (Hprev c)) as (h & t & E1 & E2).
    cbn [cut_after_terminal] in E1. injection E1 as <- <-.
    rewrite !app_nil_r in E2. exact E2.
  - apply Forall_cons in Hall as [(_ & Hne & Hgap) Hall].
    rewrite join_cons by discriminate.
    assert (ends_sentence s = true) as He
      by (apply (Hends [] s (s2 :: ss'')); [reflexivity | discriminate]).
    destruct s as [|c s']; [congruence|].
    destruct (cut_app_no_gap s' c prev ([space] ++ join [space] (s2 :: ss''))
                Hgap (Hprev c)) as (h & t & E1 & E2).
    rewrite E2. unfold ends_sentence in He.
    destruct (last (c :: s')) as [tm|]; [|discriminate].
    cbn [app cut_after_terminal split_point] in E1. rewrite He in E1.
    change (isspace space) with true in E1. cbn [andb] in E1.
    rewrite (IH s2 (Some space)) in E1.
    + cbn [cons_head] in E1. injection E1 as <- <-. rewrite app_nil_r. reflexivity.
    + exact Hall.
    + intros pre x suf Ec Hsuf. apply (Hends ((c :: s') :: pre) x suf); [|exact Hsuf].
      rewrite Ec. reflexivity.
    + intros c0. reflexivity.
Qed.

(** Sentences that are trimmed, hold no cut and end with a terminal (the
    last one need not) are what the segmentation finds in their join. *)
Lemma tokenize_join (ss : list str) :
  Forall (fun s => strip s = s /\ s <> [] /\ has_gap s = false) ss ->
  (forall pre x suf, ss = pre ++ x :: suf -> suf <> [] -> ends_sentence x = true) ->
  AdvancedPDFCompressor.sentence_tokenize (join [space] ss) = ss.
Proof.
  intros Hall Hends. rewrite sentence_tokenize_spec. unfold segment_spec.
  destruct ss as [|s ss']; [reflexivity|].
  rewrite (cut_join ss' s None Hall Hends) by reflexivity.
  clear Hends. cbn [map]. 
  assert (map strip (map (cons space) ss') = ss') as ->.
  { apply Forall_cons in Hall as [_ Hall]. clear s.
    induction Hall as [|x l (Hx & _) _ IH]; [reflexivity|]. cbn [map].
    rewrite IH. f_equal. rewrite <- Hx at 2.
    apply (strip_spaces [space] x). reflexivity. }
  assert (strip s :: ss' = s :: ss') as ->.
  { apply Forall_cons in Hall as [(Hs & _) _]. rewrite Hs. reflexivity. }
  induction Hall as [|x l (_ & Hx & _) _ IH]; [reflexivity|].
  cbn [List.filter]. destruct x; [congruence|]. cbn [nonempty]. rewrite IH. reflexivity.
Qed.

Lemma join_length_cons (sep p : str) (ps : list str) :
  length (join sep (p :: ps)) =
    (length p + match ps with [] => 0 | _ :: _ => length sep + length (join sep ps) end)%nat.
Proof.
  destruct ps as [|q ps]; [cbn [join]; lia|].
  rewrite join_cons by discriminate. rewrite !length_app. reflexivity.
Qed.

(** The sentences, joined by single spaces, take no more room than the
    fragments they were trimmed from: every fragment after the first
    starts with a white-space character, which pays for the space. *)
Lemma join_later_fragments (gs : list str) :
  Forall (fun f => match f with c :: _ => isspace c = true | [] => False end) gs ->
  let ss := List.filter nonempty (map strip gs) in
  (length (join [space] ss) + match ss with [] => 0 | _ :: _ => 1 end
     <= length (concat gs))%nat.
Proof.
  induction 1 as [|g gs Hg _ IH]; cbv zeta in *; [cbn; lia|].
  destruct g as [|c g']; [contradiction|].
  assert (strip (c :: g') = strip g') as Hs.
  { apply (strip_spaces [c] g'). cbn. rewrite Hg. reflexivity. }
  cbn [map List.filter concat]. rewrite Hs, length_app.
  pose proof (strip_length g') as Hl. cbn [length].
  destruct (strip g') as [|d r] eqn:Es; cbn [nonempty].
  - destruct (List.filter nonempty (map strip gs)); cbn in *; lia.
  - rewrite join_length_cons.
    destruct (List.filter nonempty (map strip gs)); cbn [length] in *; lia.
Qed.

Lemma join_sentences_length (text : str) :
  (length (join [space] (AdvancedPDFCompressor.sentence_tokenize text))
     <= length text)%nat.
Proof.
  rewrite sentence_tokenize_spec. unfold segment_spec.
  destruct (cut_nonempty None text) as (g & gs & E).
  pose proof (cut_concat text None) as Hc. rewrite E in *.
  pose proof (join_later_fragments gs (cut_later_start _ _ _ _ E)) as Hgs.
  cbv zeta in Hgs. rewrite <- Hc. cbn [map List.filter concat].
  rewrite length_app. pose proof (strip_length g) as Hl.
  destruct (strip g) as [|d r]; cbn [nonempty].
  - destruct (List.filter nonempty (map strip gs)); cbn in *; lia.
  - rewrite join_length_cons.
    destruct (List.filter nonempty (map strip gs)); cbn [length] in *; lia.
Qed.

Lemma join_length_count (ss : list str) :
  Forall (fun s => s <> []) ss -> (length ss <= length (join [space] ss))%nat.
Proof.
  induction 1 as [|s ss Hs _ IH]; [cbn; lia|].
  rewrite join_length_cons. destruct s; [congruence|].
  destruct ss; cbn [length] in *; lia.
Qed.

Lemma sentence_count (text : str) :
  (length (AdvancedPDFCompressor.sentence_tokenize text) <= length text)%nat.
Proof.
  etransitivity; [apply join_length_count | apply join_sentences_length].
  eapply Forall_impl; [apply (proj1 (sentence_props text))|].
  intros s (_ & H & _). exact H.
Qed.

(** ** What [extractive_summarize] returns *)

Lemma summarize_cases (text : str) (ratio : float) :
  let sentences := AdvancedPDFCompressor.sentence_tokenize text in
  (sentences = [] /\ AdvancedPDFCompressor.extractive_summarize text ratio = Ok text) \/
  (sentences <> [] /\
   exists scores,
     AdvancedPDFCompressor.calculate_sentence_scores sentences = Ok scores /\
     length scores = length sentences /\
     match int_of_float (float_of_Z (Z.of_nat (length sentences)) * ratio)%float with
     | Ok k =>
         let idx := sort_indices (take (Z.to_nat (Z.max 1 k))
                                       (AdvancedPDFCompressor.ranked scores)) in
         let sel := map (fun i => nth i sentences []) idx in
         AdvancedPDFCompressor.top_indices sentences ratio = Ok idx /\
         AdvancedPDFCompressor.extractive_summarize text ratio = Ok (join [space] sel) /\
         sel `sublist_of` sentences /\ idx <> []
     | Raise e => AdvancedPDFCompressor.extractive_summarize text ratio = Raise e
     end).
Proof.
  intros sentences. unfold AdvancedPDFCompressor.extractive_summarize.
  fold sentences.
  destruct sentences as [|s0 ss] eqn:Es; [left; auto|].
  rewrite <- Es. right.
  assert (Hne : sentences <> []) by (rewrite Es; discriminate).
  split; [exact Hne|].
  destruct (top_indices_unfold sentences ratio) as (scores & Hsc & Hlen & ->).
  exists scores. split; [exact Hsc|]. split; [exact Hlen|].
  destruct (int_of_float _) as [k|e]; [|reflexivity].
  cbn [mbind result_bind].
  destruct (selection_props scores (Z.to_nat (Z.max 1 k))) as (Hs & Hlt & Hn & _).
  cbv zeta in Hs, Hlt, Hn. rewrite Hlen in Hlt.
  cbv zeta. set (idx := sort_indices _) in *.
  split; [reflexivity|].
  rewrite (mapR_ok _ (fun i => nth i sentences [])).
  - split; [reflexivity|]. split.
    + change sentences with (drop 0 sentences) at 2.
      apply increasing_positions_sublist; [exact Hs|].
      eapply Forall_impl; [exact Hlt|]. cbn. intros; lia.
    + intros Hidx. rewrite Hidx in Hn. cbn [length] in Hn.
      rewrite Hlen, Es in Hn. cbn [length] in Hn. lia.
  - eapply Forall_impl; [exact Hlt|]. cbn. intros i Hi. apply index_ok, Hi.
Qed.

Lemma summarize_ok_inv (text : str) (ratio : float) (out : str) :
  AdvancedPDFCompressor.extractive_summarize text ratio = Ok out ->
  let sentences := AdvancedPDFCompressor.sentence_tokenize text in
  (sentences = [] /\ out = text) \/
  (exists sel, sel `sublist_of` sentences /\ sel <> [] /\ out = join [space] sel).
Proof.
  intros Hout. cbv zeta.
  destruct (summarize_cases text ratio) as [[Hs E]|(Hne & scores & _ & _ & H)].
  - left. split; [exact Hs | congruence].
  - right. destruct (int_of_float _) as [k|e]; [|congruence].
    cbv zeta in H. destruct H as (_ & E & Hsub & Hidx).
    eexists. split; [exact Hsub|]. split; [|congruence].
    intros Hsel. apply Hidx. apply map_eq_nil in Hsel. exact Hsel.
Qed.

Lemma sublist_sentence_props (sel ss : list str) :
  sel `sublist_of` ss ->
  Forall (fun s => strip s = s /\ s <> [] /\ has_gap s = false) ss ->
  (forall pre s suf, ss = pre ++ s :: suf -> suf <> [] -> ends_sentence s = true) ->
  Forall (fun s => strip s = s /\ s <> [] /\ has_gap s = false) sel /\
  (forall pre s suf, sel = pre ++ s :: suf -> suf <> [] -> ends_sentence s = true).
Proof.
  intros Hsub Hall Hends. split.
  - apply Forall_forall. intros s Hs. rewrite Forall_forall in Hall.
    apply Hall. eapply elem_of_sublist; [exact Hs | exact Hsub].
  - intros pre s suf E Hsuf. rewrite E in Hsub.
    apply sublist_app_l in Hsub as (k1 & k2 & -> & _ & Hsub).
    apply sublist_cons_l in Hsub as (k3 & k4 & -> & Hsub).
    apply (Hends (k1 ++ k3) s k4); [rewrite <- app_assoc; reflexivity|].
    intros ->. apply sublist_nil_r in Hsub. contradiction.
Qed.

(** X11. Every sentence is trimmed and not empty, holds no place where
    the segmentation would cut (a terminal followed by white space), and
    every sentence but the last ends with one of [.], [!], [?]. *)
Theorem sentences_hold_no_cut (text : str) :
  let ss := AdvancedPDFCompressor.sentence_tokenize text in
  Forall (fun s => strip s = s /\ s <> [] /\ has_gap s = false) ss /\
  (forall pre s suf, ss = pre ++ s :: suf -> suf <> [] -> ends_sentence s = true) /\
  (length ss <= length text)%nat.
Proof.
  cbv zeta. destruct (sentence_props text) as [H1 H2].
  split; [exact H1|]. split; [exact H2 | apply sentence_count].
Qed.

Lemma summarize_retokenize (text : str) (ratio : float) (out : str) :
  AdvancedPDFCompressor.extractive_summarize text ratio = Ok out ->
  AdvancedPDFCompressor.sentence_tokenize out
    `sublist_of` AdvancedPDFCompressor.sentence_tokenize text /\
  (AdvancedPDFCompressor.sentence_tokenize text <> [] ->
   join [space] (AdvancedPDFCompressor.sentence_tokenize out) = out).
Proof.
  intros Hout. apply summarize_ok_inv in Hout. cbv zeta in Hout.
  destruct Hout as [[Hs ->]|(sel & Hsub & Hne & ->)].
  - split; [reflexivity | contradiction].
  - destruct (sentence_props text) as [H1 H2]. cbv zeta in H1, H2.
    destruct (sublist_sentence_props _ _ Hsub H1 H2) as [H3 H4].
    rewrite (tokenize_join sel H3 H4). split; [exact Hsub | reflexivity].
Qed.

(** X12. A summary segments into exactly the sentences it was built
    from: what [sentence_tokenize] finds in the text returned by
    [extractive_summarize] is a subsequence of the sentences of the
    input, and joining it with single spaces gives the summary back. *)
Theorem summary_retokenizes (text : str) (ratio : float) (out : str) :
  AdvancedPDFCompressor.extractive_summarize text ratio = Ok out ->
  AdvancedPDFCompressor.sentence_tokenize out
    `sublist_of` AdvancedPDFCompressor.sentence_tokenize text /\
  (AdvancedPDFCompressor.sentence_tokenize text <> [] ->
   join [space] (AdvancedPDFCompressor.sentence_tokenize out) = out).
Proof. apply summarize_retokenize. Qed.

Lemma summary_retokenizes_witness :
  AdvancedPDFCompressor.sentence_tokenize (lit "Cats purr. Cats sleep.")
    `sublist_of`
  AdvancedPDFCompressor.sentence_tokenize (lit "Cats purr.  Dogs bark!   Cats sleep.").
Proof.
  assert (H : AdvancedPDFCompressor.extractive_summarize
                (lit "Cats purr.  Dogs bark!   Cats sleep.") 0.75
              = Ok (lit "Cats purr. Cats sleep.")) by (vm_compute; reflexivity).
  exact (proj1 (summary_retokenizes _ _ _ H)).
Defined.

Lemma summarize_length (text : str) (ratio : float) (out : str) :
  AdvancedPDFCompressor.extractive_summarize text ratio = Ok out ->
  (length out <= length text)%nat.
Proof.
  intros Hout. apply summarize_ok_inv in Hout. cbv zeta in Hout.
  destruct Hout as [[Hs ->]|(sel & Hsub & Hne & ->)]; [lia|].
  etransitivity; [apply join_length_sublist, Hsub | apply join_sentences_length].
Qed.

(** ** Products and quotients with zero *)

Lemma float_of_Z_zero : float_of_Z 0 = 0%float.
Proof. vm_compute. reflexivity. Qed.

Lemma zero_mul (r : float) (m : positive) (e : Z) :
  Prim2SF r = S754_finite false m e -> (0 * r)%float = 0%float.
Proof.
  intros Er. apply Prim2SF_inj.
  rewrite FloatAxioms.mul_spec, Prim2SF_zero, Er. reflexivity.
Qed.

Lemma mul_zero (x : float) (m : positive) (e : Z) :
  Prim2SF x = S754_finite false m e -> (x * 0)%float = 0%float.
Proof.
  intros Ex. apply Prim2SF_inj.
  rewrite FloatAxioms.mul_spec, Prim2SF_zero, Ex. reflexivity.
Qed.

Lemma zero_div (x : float) (m : positive) (e : Z) :
  Prim2SF x = S754_finite false m e -> (0 / x)%float = 0%float.
Proof.
  intros Ex. apply Prim2SF_inj.
  rewrite FloatAxioms.div_spec, Prim2SF_zero, Ex. reflexivity.
Qed.

Lemma int_of_float_zero : int_of_float 0 = Ok 0.
Proof. unfold int_of_float. rewrite Prim2SF_zero. reflexivity. Qed.

(** The ratio that [compress] hands to the summarizer is 0.0 or lies in
    (0, 1]; with either, the summarizer returns. *)
Lemma summarize_total (text : str) (t n : Z) :
  0 <= t <= n -> 0 < n < 2 ^ 53 -> Z.of_nat (length text) < 2 ^ 53 ->
  exists out,
    AdvancedPDFCompressor.extractive_summarize text (float_of_Z t / float_of_Z n)
      = Ok out.
Proof.
  intros Ht Hn Hlen.
  destruct (summarize_cases text (float_of_Z t / float_of_Z n))
    as [[_ E]|(Hne & scores & _ & _ & H)]; [eauto|].
  set (ss := AdvancedPDFCompressor.sentence_tokenize text) in *.
  assert (0 < Z.of_nat (length ss) < 2 ^ 53) as Hm.
  { pose proof (sentence_count text) as Hc. fold ss in Hc.
    destruct ss; [congruence|]. cbn [length] in *. lia. }
  assert (exists k, int_of_float (float_of_Z (Z.of_nat (length ss))
                                  * (float_of_Z t / float_of_Z n)) = Ok k) as [k Hk].
  { destruct (Z.eq_dec t 0) as [->|Ht0].
    - destruct (float_of_Z_exact n Hn) as (mn & en & En & _).
      destruct (float_of_Z_exact _ Hm) as (mm & em & Em & _).
      rewrite float_of_Z_zero, (zero_div _ _ _ En), (mul_zero _ _ _ Em).
      exists 0. apply int_of_float_zero.
    - destruct (frequency_props n t ltac:(lia) ltac:(lia)) as (Hg & Hs & _).
      destruct (in_unit_interval _ Hg Hs) as [H1 H2].
      destruct (int_of_product _ _ Hm H1 H2) as [E _]. eexists. exact E. }
  rewrite Hk in H. cbv zeta in H. destruct H as (_ & E & _). eauto.
Qed.

(** ** The summarizing compressor as a whole *)

Lemma advanced_estimate_mono (a b : str) :
  (length a <= length b)%nat ->
  AdvancedPDFCompressor.estimate_tokens a <= AdvancedPDFCompressor.estimate_tokens b.
Proof.
  intros H. unfold AdvancedPDFCompressor.estimate_tokens. apply Z.div_le_mono; lia.
Qed.

Lemma advanced_estimate_zero (text : str) :
  AdvancedPDFCompressor.estimate_tokens text = 0 <-> (length text < 4)%nat.
Proof.
  unfold AdvancedPDFCompressor.estimate_tokens. split.
  - intros H. pose proof (Z.mul_succ_div_gt (Z.of_nat (length text)) 4). lia.
  - intros H. apply Z.div_small. lia.
Qed.

Lemma advanced_compress_short (mt : Z) (cr : float) (text : str) :
  (0 <? cr)%float = true -> (cr <=? 1)%float = true ->
  (length text < 4)%nat ->
  AdvancedPDFCompressor.compress (AdvancedPDFCompressor.init mt cr) text
    = Raise ZeroDivisionError.
Proof.
  intros Hpos Hle Hlen. apply advanced_estimate_zero in Hlen.
  unfold AdvancedPDFCompressor.compress.
  cbn [AdvancedPDFCompressor.compression_ratio AdvancedPDFCompressor.max_tokens
       AdvancedPDFCompressor.init].
  rewrite Hlen. destruct (ratio_float cr Hpos Hle) as (m & e & Er & _).
  rewrite float_of_Z_zero, (zero_mul _ _ _ Er), int_of_float_zero.
  cbn [mbind result_bind]. destruct (0 <=? mt); reflexivity.
Qed.

Lemma advanced_compress_long (mt : Z) (cr : float) (text : str) :
  0 <= mt -> (0 <? cr)%float = true -> (cr <=? 1)%float = true ->
  Z.of_nat (length text) < 2 ^ 53 -> (4 <= length text)%nat ->
  let n := AdvancedPDFCompressor.estimate_tokens text in
  exists k out,
    int_of_float (float_of_Z n * cr) = Ok k /\ 0 <= k <= n /\
    (if n <=? mt then out = AdvancedPDFCompressor.clean text
     else AdvancedPDFCompressor.extractive_summarize
            (AdvancedPDFCompressor.clean text)
            (float_of_Z (Z.min mt k) / float_of_Z n) = Ok out) /\
    AdvancedPDFCompressor.compress (AdvancedPDFCompressor.init mt cr) text
      = Ok (Report n (AdvancedPDFCompressor.estimate_tokens out) out) /\
    (length out <= length text)%nat.
Proof.
  intros Hmt Hpos Hle Hlen H4 n.
  assert (0 < n < 2 ^ 53) as Hn.
  { unfold n. split.
    - pose proof (proj1 (advanced_estimate_zero text)).
      assert (0 <= AdvancedPDFCompressor.estimate_tokens text)
        by (apply Z.div_pos; lia). lia.
    - unfold AdvancedPDFCompressor.estimate_tokens.
      pose proof (Z.mul_div_le (Z.of_nat (length text)) 4). lia. }
  destruct (int_of_product n cr Hn Hpos Hle) as [Hk Hkn].
  set (k := round_val (n * 2 ^ 1074 * sval (Prim2SF cr)) / 2 ^ 1074) in *.
  pose proof (clean_length text) as Hclean.
  assert (exists out,
    (if n <=? mt then out = AdvancedPDFCompressor.clean text
     else AdvancedPDFCompressor.extractive_summarize
            (AdvancedPDFCompressor.clean text)
            (float_of_Z (Z.min mt k) / float_of_Z n) = Ok out) /\
    (length out <= length text)%nat) as (out & Hout & Hlo).
  { destruct (Z.leb_spec n mt) as [Hle'|Hgt]; [eauto|].
    destruct (summarize_total (AdvancedPDFCompressor.clean text) (Z.min mt k) n)
      as [out E]; [lia | exact Hn | lia|].
    exists out. split; [exact E|]. apply summarize_length in E. lia. }
  exists k, out. split; [exact Hk|]. split; [exact Hkn|]. split; [exact Hout|].
  split; [|exact Hlo].
  unfold AdvancedPDFCompressor.compress.
  cbn [AdvancedPDFCompressor.compression_ratio AdvancedPDFCompressor.max_tokens
       AdvancedPDFCompressor.init].
  fold n. rewrite Hk. cbn [mbind result_bind].
  destruct (n <=? mt).
  - subst out. cbn [mbind result_bind]. rewrite truediv_nonzero by lia. reflexivity.
  - rewrite truediv_nonzero by lia. cbn [mbind result_bind]. rewrite Hout.
    cbn [mbind result_bind]. rewrite truediv_nonzero by lia. reflexivity.
Qed.

(** X13. The summarizing [compress], for a budget that is not negative,
    a compression ratio in (0, 1] and a text of fewer than 2^53
    characters.  On a text of fewer than four characters it raises
    [ZeroDivisionError] (line 140), and on every other text it returns:
    the cleaned text when the original estimate is within the budget, and
    otherwise what [extractive_summarize] makes of the cleaned text with
    the ratio [min(max_tokens, int(n * ratio)) / n].  Whatever it returns
    is not longer than the input, and its estimate is not above the
    original estimate. *)
Theorem advanced_compress_result (mt : Z) (cr : float) (text : str) :
  0 <= mt -> (0 <? cr)%float = true -> (cr <=? 1)%float = true ->
  Z.of_nat (length text) < 2 ^ 53 ->
  let n := AdvancedPDFCompressor.estimate_tokens text in
  if (length text <? 4)%nat
  then AdvancedPDFCompressor.compress (AdvancedPDFCompressor.init mt cr) text
         = Raise ZeroDivisionError
  else
    exists k out,
      int_of_float (float_of_Z n * cr) = Ok k /\
      (if n <=? mt then out = AdvancedPDFCompressor.clean text
       else AdvancedPDFCompressor.extractive_summarize
              (AdvancedPDFCompressor.clean text)
              (float_of_Z (Z.min mt k) / float_of_Z n) = Ok out) /\
      AdvancedPDFCompressor.compress (AdvancedPDFCompressor.init mt cr) text
        = Ok (Report n (AdvancedPDFCompressor.estimate_tokens out) out) /\
      (length out <= length text)%nat /\
      AdvancedPDFCompressor.estimate_tokens out <= n.
Proof.
  intros Hmt Hpos Hle Hlen n.
  destruct (Nat.ltb_spec (length text) 4) as [Hlt|Hge].
  - apply advanced_compress_short; assumption.
  - destruct (advanced_compress_long mt cr text Hmt Hpos Hle Hlen Hge)
      as (k & out & Hk & _ & Hout & Hc & Hlo).
    exists k, out. split; [exact Hk|]. split; [exact Hout|]. split; [exact Hc|].
    split; [exact Hlo | apply advanced_estimate_mono, Hlo].
Qed.

Lemma advanced_compress_result_witness :
  exists out,
    AdvancedPDFCompressor.compress (AdvancedPDFCompressor.init 3 0.5)
      (lit "The cat sat. 2024 was a good year. The cat sat.")
      = Ok (Report 11 (AdvancedPDFCompressor.estimate_tokens out) out) /\
    (length out <= 47)%nat.
Proof.
  assert (H0 : 0 <= 3) by lia.
  assert (Hl : Z.of_nat (length (lit "The cat sat. 2024 was a good year. The cat sat."))
               < 2 ^ 53) by (vm_compute; reflexivity).
  pose proof (advanced_compress_result 3 0.5
                (lit "The cat sat. 2024 was a good year. The cat sat.")
                H0 eq_refl eq_refl Hl) as H.
  cbv zeta in H.
  change (length (lit "The cat sat. 2024 was a good year. The cat sat.") <? 4)%nat
    with false in H.
  destruct H as (k & out & _ & _ & Hc & Hlo & _).
  exists out. split; [exact Hc | exact Hlo].
Defined.

(** ** The best sentence, and the ratio 1 *)

Lemma ranked_sorted (scores : list float) :
  (forall i, good (AdvancedPDFCompressor.get scores i)) ->
  StronglySorted
    (fun a b => float_lt (AdvancedPDFCompressor.get scores a)
                         (AdvancedPDFCompressor.get scores b) = false)
    (AdvancedPDFCompressor.ranked scores).
Proof.
  intros Hgood. set (key := AdvancedPDFCompressor.get scores) in *.
  assert (Hlt : forall a b, float_lt (key a) (key b)
                            = (sval (Prim2SF (key a)) <? sval (Prim2SF (key b)))).
  { intros a b. apply good_ltb; apply Hgood. }
  unfold AdvancedPDFCompressor.ranked, sorted_by_key_reverse. fold key.
  apply (stable_sort_sorted (fun a b => float_lt (key b) (key a)) (fun _ => True)).
  - intros a b _ _. rewrite !Hlt. lia.
  - intros a b c _ _ _. rewrite !Hlt. lia.
  - apply Forall_forall. trivial.
Qed.

(** X14. Whatever the ratio, the summary holds the best sentence: the
    first index of the ranking is among the indices kept, no sentence
    scores higher than it, and every sentence before it scores strictly
    lower (of the sentences with the highest score it is the earliest). *)
Theorem best_sentence_is_kept (sentences : list str) (ratio : float) (idx : list nat) :
  Z.of_nat (length (surviving sentences)) < 2 ^ 53 ->
  sentences <> [] ->
  AdvancedPDFCompressor.top_indices sentences ratio = Ok idx ->
  exists scores best,
    AdvancedPDFCompressor.calculate_sentence_scores sentences = Ok scores /\
    head (AdvancedPDFCompressor.ranked scores) = Some best /\
    best ∈ idx /\
    (best < length sentences)%nat /\
    (forall j, (j < length sentences)%nat ->
       float_lt (AdvancedPDFCompressor.get scores best)
                (AdvancedPDFCompressor.get scores j) = false) /\
    (forall j, (j < best)%nat ->
       float_lt (AdvancedPDFCompressor.get scores j)
                (AdvancedPDFCompressor.get scores best) = true).
Proof.
  intros Hsurv Hne Hidx.
  destruct (scores_lookup sentences Hsurv) as (table & scores & _ & Hs & Hl & _ & Hgood).
  destruct (top_indices_unfold sentences ratio) as (scores' & Hs' & _ & Htop).
  rewrite Hs in Hs'. injection Hs' as <-.
  rewrite Hidx in Htop.
  destruct (int_of_float _) as [k|e]; [|discriminate]. injection Htop as ->.
  exists scores. pose proof (ranked_perm scores) as Hperm.
  pose proof (ranked_NoDup scores) as Hnd.
  pose proof (ranked_sorted scores Hgood) as Hsorted.
  destruct (AdvancedPDFCompressor.ranked scores) as [|best tl] eqn:Er.
  { apply Permutation_length in Hperm. rewrite length_seq, Hl in Hperm.
    destruct sentences; [congruence | discriminate]. }
  exists best. split; [exact Hs|]. split; [reflexivity|].
  assert (forall j, j ∈ best :: tl <-> (j < length sentences)%nat) as Hmem.
  { intros j. rewrite Hperm, elem_of_seq, Hl. lia. }
  apply StronglySorted_inv in Hsorted as [_ Hhead].
  apply NoDup_cons in Hnd as [Hnotin _].
  split; [|split; [|split]].
  - rewrite sort_indices_perm.
    replace (Z.to_nat (Z.max 1 k)) with (S (Z.to_nat (Z.max 1 k) - 1)) by lia.
    left.
  - apply Hmem. left.
  - intros j Hj. apply Hmem in Hj. apply elem_of_cons in Hj as [->|Hj].
    + apply float_lt_irrefl.
    + rewrite List.Forall_forall in Hhead. apply Hhead, list_elem_of_In, Hj.
  - intros j Hj.
    destruct (float_lt (AdvancedPDFCompressor.get scores j)
                       (AdvancedPDFCompressor.get scores best)) eqn:E; [reflexivity|].
    exfalso.
    assert (before j best (AdvancedPDFCompressor.ranked scores)) as Hb.
    { unfold AdvancedPDFCompressor.ranked, sorted_by_key_reverse.
      apply stable_sort_before; [|exact E].
      apply before_seq. rewrite Hl. split; [exact Hj|]. apply Hmem. left. }
    rewrite Er in Hb. unfold before in Hb.
    apply sublist_cons_r in Hb as [Hb|(l' & [= <- <-] & Hb)]; [|lia].
    apply Hnotin. eapply elem_of_sublist; [|exact Hb]. right. left.
Qed.

Lemma best_sentence_is_kept_witness :
  exists scores best,
    AdvancedPDFCompressor.calculate_sentence_scores
      (map lit ["It is so."; "Cats purr and cats sleep."; "Dogs bark at cats."]%string)
      = Ok scores /\
    head (AdvancedPDFCompressor.ranked scores) = Some best /\
    best ∈ [1%nat].
Proof.
  assert (H1 : Z.of_nat (length (surviving
             (map lit ["It is so."; "Cats purr and cats sleep."; "Dogs bark at cats."]%string)))
               < 2 ^ 53) by (vm_compute; reflexivity).
  assert (H2 : map lit ["It is so."; "Cats purr and cats sleep."; "Dogs bark at cats."]%string
               <> []) by discriminate.
  assert (H3 : AdvancedPDFCompressor.top_indices
                 (map lit ["It is so."; "Cats purr and cats sleep."; "Dogs bark at cats."]%string)
                 0.5 = Ok [1%nat]) by (vm_compute; reflexivity).
  destruct (best_sentence_is_kept _ 0.5 _ H1 H2 H3) as (scores & best & Hs & Hh & Hb & _).
  exists scores, best. auto.
Defined.

Lemma sorted_is_seq (n : nat) : forall (l : list nat) (k : nat),
  StronglySorted lt l -> length l = n ->
  (forall i, i ∈ l <-> (k <= i < k + n)%nat) ->
  l = seq k n.
Proof.
  induction n as [|n IH]; intros l k Hs Hlen Hmem.
  - destruct l; [reflexivity | discriminate].
  - destruct l as [|x l]; [discriminate|]. injection Hlen as Hlen.
    apply StronglySorted_inv in Hs as [Hs Hx]. rewrite List.Forall_forall in Hx.
    assert (x = k) as ->.
    { assert (k <= x)%nat by (apply Hmem; left).
      assert (k ∈ x :: l) as Hk by (apply Hmem; lia).
      apply elem_of_cons in Hk as [->|Hk]; [reflexivity|].
      apply list_elem_of_In, Hx in Hk. lia. }
    cbn [seq]. f_equal. apply IH; [exact Hs | exact Hlen|].
    intros i. split.
    + intros Hi. pose proof (Hx i (proj1 (list_elem_of_In _ _) Hi)).
      assert (i ∈ k :: l) as Hi' by (right; exact Hi). apply Hmem in Hi'. lia.
    + intros Hi. assert (i ∈ k :: l) as Hi' by (apply Hmem; lia).
      apply elem_of_cons in Hi' as [->|Hi']; [lia | exact Hi'].
Qed.

Lemma map_nth_seq (ss : list str) :
  map (fun i => nth i ss []) (seq 0 (length ss)) = ss.
Proof.
  apply (nth_ext _ _ (nth 0 ss []) []).
  - rewrite length_map, length_seq. reflexivity.
  - intros i Hi. rewrite length_map, length_seq in Hi.
    rewrite (map_nth (fun i => nth i ss [])), seq_nth by exact Hi. reflexivity.
Qed.

Lemma int_of_product_one (n : Z) :
  0 < n < 2 ^ 53 -> int_of_float (float_of_Z n * 1) = Ok n.
Proof.
  intros Hn. destruct (int_of_product n 1 Hn eq_refl eq_refl) as [-> _].
  f_equal. rewrite Prim2SF_one. cbn [sval].
  replace (n * 2 ^ 1074 * (4503599627370496 * 2 ^ (-52 + 1074))) with (n * 2 ^ 2148).
  - rewrite (round_val_exact n Hn). apply Z.div_mul. apply Z.pow_nonzero; lia.
  - change 4503599627370496 with (2 ^ 52).
    rewrite <- Z.mul_assoc. apply (f_equal (Z.mul n)). reflexivity.
Qed.

Lemma ratio_one_summary (text : str) :
  Z.of_nat (length text) < 2 ^ 53 ->
  AdvancedPDFCompressor.extractive_summarize text 1
    = Ok (match AdvancedPDFCompressor.sentence_tokenize text with
          | [] => text
          | ss => join [space] ss
          end).
Proof.
  intros Hlen.
  destruct (summarize_cases text 1) as [[Hs E]|(Hne & scores & _ & Hl & H)].
  - rewrite E. cbv zeta in Hs. rewrite Hs. reflexivity.
  - set (ss := AdvancedPDFCompressor.sentence_tokenize text) in *.
    assert (0 < Z.of_nat (length ss) < 2 ^ 53) as Hm.
    { pose proof (sentence_count text) as Hc. fold ss in Hc.
      destruct ss; [congruence|]. cbn [length] in *. lia. }
    rewrite (int_of_product_one _ Hm) in H. cbv zeta in H.
    destruct H as (_ & E & _). rewrite E.
    replace (Z.to_nat (Z.max 1 (Z.of_nat (length ss)))) with (length scores) by lia.
    rewrite take_ge
      by (unfold AdvancedPDFCompressor.ranked, sorted_by_key_reverse;
          rewrite stable_sort_length, length_seq; lia).
    assert (sort_indices (AdvancedPDFCompressor.ranked scores) = seq 0 (length ss)) as ->.
    { apply sorted_is_seq.
      - apply sorted_NoDup_strict; [apply sort_indices_sorted|].
        rewrite sort_indices_perm. apply ranked_NoDup.
      - rewrite sort_indices_perm, ranked_perm, length_seq. exact Hl.
      - intros i. rewrite sort_indices_perm, ranked_perm, elem_of_seq, Hl. lia. }
    rewrite map_nth_seq. destruct ss; [congruence | reflexivity].
Qed.

(** X15. With the ratio 1.0 nothing is left out: the summary is the
    sentences of the text, all of them, joined by single spaces (and the
    text itself when it has no sentence). *)
Theorem ratio_one_keeps_every_sentence (text : str) :
  Z.of_nat (length text) < 2 ^ 53 ->
  AdvancedPDFCompressor.extractive_summarize text 1
    = Ok (match AdvancedPDFCompressor.sentence_tokenize text with
          | [] => text
          | ss => join [space] ss
          end).
Proof. apply ratio_one_summary. Qed.

Lemma ratio_one_keeps_every_sentence_witness :
  AdvancedPDFCompressor.extractive_summarize
    (lit "One two.   Three four!  Five") 1
  = Ok (lit "One two. Three four! Five").
Proof.
  assert (Hl : Z.of_nat (length (lit "One two.   Three four!  Five")) < 2 ^ 53)
    by (vm_compute; reflexivity).
  exact (ratio_one_keeps_every_sentence (lit "One two.   Three four!  Five") Hl).
Defined.

(** ** A sentence without content words *)

Lemma fold_all_absent (table : gmap str float) (ws : list str) (acc : float) :
  Forall (fun w => table !! w = None) ws ->
  foldl (fun score word =>
           match table !! word with
           | Some f => (score + f)%float
           | None => score
           end) acc ws = acc.
Proof.
  induction 1 as [|w ws Hw _ IH]; [reflexivity|]. cbn [foldl]. rewrite Hw. exact IH.
Qed.

(** X16. A sentence whose word tokens are all stop words or shorter than
    three characters has the score 0.0, wherever it stands and whether or
    not it holds a digit: the two bonuses multiply, and find nothing to
    multiply. *)
Theorem contentless_sentence_scores_zero (sentences : list str) (i : nat) (s : str) :
  sentences !! i = Some s ->
  Forall (fun w => AdvancedPDFCompressor.keep_word w = false)
         (AdvancedPDFCompressor.words_of s) ->
  exists scores,
    AdvancedPDFCompressor.calculate_sentence_scores sentences = Ok scores /\
    scores !! i = Some 0%float.
Proof.
  intros Hi Hall.
  destruct (word_frequencies_ok sentences) as (mx & _ & Hok).
  unfold AdvancedPDFCompressor.calculate_sentence_scores. rewrite Hok.
  cbn [mbind result_bind]. eexists. split; [reflexivity|].
  rewrite list_lookup_imap, Hi. cbn [fmap option_fmap option_map]. f_equal.
  unfold AdvancedPDFCompressor.sentence_score.
  rewrite fold_all_absent.
  - destruct (_ || _); destruct (re_search pat_digit s); vm_compute; reflexivity.
  - eapply Forall_impl; [exact Hall|]. intros w Hw. cbn beta in Hw.
    rewrite lookup_fmap, Counter_lookup.
    rewrite bool_decide_eq_false_2; [reflexivity|].
    intros Hin. apply list_elem_of_In, filter_In in Hin as [_ Hk]. congruence.
Qed.

Lemma contentless_sentence_scores_zero_witness :
  exists scores,
    AdvancedPDFCompressor.calculate_sentence_scores
      (map lit ["The cat sat."; "It is 42 to 7, or so."; "The cat sat."]%string)
      = Ok scores /\
    scores !! 1%nat = Some 0%float.
Proof.
  apply (contentless_sentence_scores_zero
           (map lit ["The cat sat."; "It is 42 to 7, or so."; "The cat sat."]%string)
           1 (lit "It is 42 to 7, or so.")).
  - reflexivity.
  - vm_compute. repeat constructor.
Defined.

(** ** The text of the document *)

Lemma extract_text_concat (pages : list str) : forall acc,
  foldl (fun text page => text ++ (page ++ [newline])) acc pages
    = acc ++ concat (map (fun page => page ++ [newline]) pages).
Proof.
  induction pages as [|p pages IH]; intros acc; cbn [foldl map concat].
  - rewrite app_nil_r. reflexivity.
  - rewrite IH, <- app_assoc. reflexivity.
Qed.

Lemma extract_text_length (pages : list str) :
  length (PDFCompressor.extract_text pages)
    = (length (concat pages) + length pages)%nat.
Proof.
  unfold PDFCompressor.extract_text. rewrite extract_text_concat. cbn [app].
  induction pages as [|p pages IH]; [reflexivity|].
  cbn [map concat length]. rewrite !length_app, IH. cbn [length]. lia.
Qed.

(** X17. Both compressors read the document as its pages, each followed
    by a newline.  A document whose pages hold fewer than four characters
    in all, the newlines counted (no page; or up to three pages with
    next to nothing on them), makes both [compress] raise
    [ZeroDivisionError]; on every other document the truncating
    [compress] returns. *)
Theorem nearly_empty_pdf_raises (mt : Z) (cr : float) (pages : list str) :
  (0 <? cr)%float = true -> (cr <=? 1)%float = true ->
  let text := PDFCompressor.extract_text pages in
  AdvancedPDFCompressor.extract_text pages = text /\
  text = concat (map (fun page => page ++ [newline]) pages) /\
  length text = (length (concat pages) + length pages)%nat /\
  ((length (concat pages) + length pages < 4)%nat ->
     PDFCompressor.compress (PDFCompressor.init mt) text = Raise ZeroDivisionError /\
     AdvancedPDFCompressor.compress (AdvancedPDFCompressor.init mt cr) text
       = Raise ZeroDivisionError) /\
  ((4 <= length (concat pages) + length pages)%nat ->
     exists r, PDFCompressor.compress (PDFCompressor.init mt) text = Ok r).
Proof.
  intros Hpos Hle text. split; [reflexivity|].
  split; [unfold text, PDFCompressor.extract_text; rewrite extract_text_concat; reflexivity|].
  pose proof (extract_text_length pages) as Hlen. fold text in Hlen.
  split; [exact Hlen|].
  pose proof (simple_compress_cases mt text) as Hc. cbv zeta in Hc.
  split.
  - intros Hlt. split.
    + rewrite Hc. destruct (Nat.ltb_spec (length text) 4); [reflexivity | lia].
    + apply advanced_compress_short; [exact Hpos | exact Hle | lia].
  - intros Hge. rewrite Hc.
    destruct (Nat.ltb_spec (length text) 4); [lia | eauto].
Qed.

Lemma nearly_empty_pdf_raises_witness :
  PDFCompressor.compress (PDFCompressor.init 100000)
    (PDFCompressor.extract_text [lit ""; lit "7"]) = Raise ZeroDivisionError /\
  AdvancedPDFCompressor.compress (AdvancedPDFCompressor.init 100000 0.5)
    (PDFCompressor.extract_text [lit ""; lit "7"]) = Raise ZeroDivisionError.
Proof.
  pose proof (nearly_empty_pdf_raises 100000 0.5 [lit ""; lit "7"] eq_refl eq_refl) as H.
  cbv zeta in H. destruct H as (_ & _ & _ & H & _).
  apply H. vm_compute. lia.
Defined.

(** ** [chunk_by_sections] *)

Lemma lines_concat (text : str) :
  concat (map (fun l => l ++ [newline]) (split [newline] text)) = text ++ [newline].
Proof.
  induction text as [|c rest IH]; [reflexivity|]. rewrite split_cons.
  destruct (char_eqb newline c) eqn:E.
  - apply char_eqb_eq in E. subst c. cbn [map concat app]. rewrite IH. reflexivity.
  - pose proof (split_not_nil rest) as Hne.
    destruct (split [newline] rest) as [|f fs]; [congruence|].
    cbn [cons_head map concat app] in *. rewrite <- IH. reflexivity.
Qed.

Lemma drop_while_app_all {A} (f : A -> bool) (s w : list A) :
  forallb f w = true ->
  drop_while f (s ++ w) = if forallb f s then [] else drop_while f s ++ w.
Proof.
  intros Hw. induction s as [|a s IH]; cbn [app drop_while forallb].
  - rewrite <- (app_nil_r w). rewrite (drop_while_all f w [] Hw). reflexivity.
  - destruct (f a); [exact IH | reflexivity].
Qed.

Lemma rstrip_spaces (s w : str) :
  forallb isspace w = true -> rstrip (s ++ w) = rstrip s.
Proof.
  intros Hw. unfold rstrip. rewrite rev_app_distr. f_equal.
  apply drop_while_all. rewrite forallb_forall in *. intros c Hc.
  apply Hw, in_rev, Hc.
Qed.

Lemma strip_trailing (s w : str) :
  forallb isspace w = true -> strip (s ++ w) = strip s.
Proof.
  intros Hw. unfold strip, lstrip. rewrite (drop_while_app_all isspace s w Hw).
  destruct (forallb isspace s) eqn:Es.
  - destruct (drop_while_suffix isspace s) as (pre & E & _).
    assert (drop_while isspace s = []) as ->; [|reflexivity].
    clear E pre. induction s as [|a s IH]; [reflexivity|].
    cbn [forallb] in Es. apply andb_prop in Es as [Ha Es].
    cbn [drop_while]. rewrite Ha. exact (IH Es).
  - apply rstrip_spaces, Hw.
Qed.

Lemma chunk_no_header (lines : list str) :
  Forall (fun l => PDFCompressor.is_header l = false) lines ->
  forall secs cur title,
    foldl PDFCompressor.chunk_line (secs, cur, title) lines
      = (secs, cur ++ concat (map (fun l => l ++ [newline]) lines), title).
Proof.
  induction 1 as [|l lines Hl _ IH]; intros secs cur title; cbn [foldl map concat].
  - rewrite app_nil_r. reflexivity.
  - unfold PDFCompressor.chunk_line at 2. rewrite Hl, IH, <- app_assoc. reflexivity.
Qed.

(** X18. A text none of whose lines looks like a header is one section:
    [chunk_by_sections] returns the single pair of the title
    [Introduction] and the trimmed text. *)
Theorem chunk_without_headers (text : str) :
  Forall (fun l => PDFCompressor.is_header l = false) (split [newline] text) ->
  PDFCompressor.chunk_by_sections text = [(lit "Introduction", strip text)].
Proof.
  intros Hall. unfold PDFCompressor.chunk_by_sections.
  rewrite (chunk_no_header _ Hall), lines_concat. cbn [app].
  destruct (text ++ [newline]) as [|c r] eqn:E; [destruct text; discriminate E|].
  cbn [nonempty app]. rewrite <- E. rewrite (strip_trailing text [newline]) by reflexivity.
  reflexivity.
Qed.

Lemma chunk_without_headers_witness :
  PDFCompressor.chunk_by_sections
    (join [newline] [lit "  the first line."; lit "and the second, much like it.  "])
  = [(lit "Introduction",
      join [newline] [lit "the first line."; lit "and the second, much like it."])].
Proof.
  apply (chunk_without_headers
           (join [newline] [lit "  the first line."; lit "and the second, much like it.  "])).
  vm_compute. repeat constructor.
Defined.

Lemma chunk_all_headers (lines : list str) :
  Forall (fun l => PDFCompressor.is_header l = true) lines ->
  forall secs title,
    exists title',
      foldl PDFCompressor.chunk_line (secs, [], title) lines = (secs, [], title').
Proof.
  induction 1 as [|l lines Hl _ IH]; intros secs title; cbn [foldl]; [eauto|].
  unfold PDFCompressor.chunk_line at 2. rewrite Hl. cbn [nonempty]. apply IH.
Qed.

(** X19. A header is only recorded together with the text that follows
    it: a text all of whose lines look like headers gives no section at
    all. *)
Theorem chunk_headers_only (text : str) :
  Forall (fun l => PDFCompressor.is_header l = true) (split [newline] text) ->
  PDFCompressor.chunk_by_sections text = [].
Proof.
  intros Hall. unfold PDFCompressor.chunk_by_sections.
  destruct (chunk_all_headers _ Hall [] (lit "Introduction")) as [title' ->].
  reflexivity.
Qed.

Lemma chunk_headers_only_witness :
  PDFCompressor.chunk_by_sections
    (join [newline] [lit "RESULTS"; lit "2. Methods"; lit "Discussion of the findings"])
  = [].
Proof.
  apply (chunk_headers_only
           (join [newline]
              [lit "RESULTS"; lit "2. Methods"; lit "Discussion of the findings"])).
  vm_compute. repeat constructor.
Defined.

Lemma chunk_inv (lines : list str) (all : list str) :
  forall secs cur title,
    (forall l, l ∈ lines -> l ∈ all) ->
    let P := fun '(t, b) =>
      strip t = t /\ strip b = b /\
      (t = lit "Introduction" \/
       exists l, l ∈ all /\ PDFCompressor.is_header l = true /\ t = strip l) in
    Forall P secs -> (forall b, P (title, strip b)) ->
    let '(secs', cur', title') := foldl PDFCompressor.chunk_line (secs, cur, title) lines in
    Forall P secs' /\ (forall b, P (title', strip b)) /\
    (length secs' <= length secs + length (List.filter PDFCompressor.is_header lines))%nat.
Proof.
  induction lines as [|l lines IH]; intros secs cur title Hin P Hsecs Htitle.
  - cbn [foldl List.filter length]. split; [exact Hsecs|]. split; [exact Htitle | lia].
  - cbn [foldl List.filter]. unfold PDFCompressor.chunk_line at 2.
    assert (forall l', l' ∈ lines -> l' ∈ all) as Hin' by (intros l' H; apply Hin; right; exact H).
    destruct (PDFCompressor.is_header l) eqn:Hl.
    + specialize (IH (if nonempty cur then secs ++ [(title, strip cur)] else secs)
                     [] (strip l) Hin').
      cbv zeta in IH. fold P in IH.
      destruct (foldl PDFCompressor.chunk_line _ lines) as [[secs' cur'] title'].
      destruct IH as (H1 & H2 & H3).
      * destruct (nonempty cur); [|exact Hsecs].
        apply Forall_app. split; [exact Hsecs|]. constructor; [apply Htitle | constructor].
      * intros b. unfold P. split; [apply strip_idem|]. split; [apply strip_idem|].
        right. exists l. split; [apply Hin; left | auto].
      * split; [exact H1|]. split; [exact H2|]. cbn [length].
        destruct (nonempty cur); [rewrite length_app in H3; cbn [length] in H3|]; lia.
    + specialize (IH secs (cur ++ (l ++ [newline])) title Hin').
      cbv zeta in IH. fold P in IH.
      destruct (foldl PDFCompressor.chunk_line _ lines) as [[secs' cur'] title'].
      exact (IH Hsecs Htitle).
Qed.

(** X20. Every section that [chunk_by_sections] returns has a trimmed
    title and a trimmed body; its title is [Introduction] or a trimmed
    header line of the text; and there is at most one section more than
    there are header lines. *)
Theorem chunk_sections_shape (text : str) :
  let lines := split [newline] text in
  Forall (fun '(t, b) =>
            strip t = t /\ strip b = b /\
            (t = lit "Introduction" \/
             exists l, l ∈ lines /\ PDFCompressor.is_header l = true /\ t = strip l))
         (PDFCompressor.chunk_by_sections text) /\
  (length (PDFCompressor.chunk_by_sections text)
     <= S (length (List.filter PDFCompressor.is_header lines)))%nat.
Proof.
  intros lines. unfold PDFCompressor.chunk_by_sections. fold lines.
  pose proof (chunk_inv lines lines [] [] (lit "Introduction") (fun l H => H)) as H.
  cbv zeta in H.
  destruct (foldl PDFCompressor.chunk_line _ lines) as [[secs cur] title].
  destruct H as (H1 & H2 & H3).
  - constructor.
  - intros b. split; [reflexivity|]. split; [apply strip_idem|]. left. reflexivity.
  - cbn [length] in H3. destruct (nonempty cur).
    + split; [|rewrite length_app; cbn [length]; lia].
      apply Forall_app. split; [exact H1|]. constructor; [apply H2 | constructor].
    + split; [exact H1 | lia].
Qed.

(** X21. [extractive_summarize] never returns a text longer than the one
    it was given. *)
Theorem summary_is_not_longer (text : str) (ratio : float) (out : str) :
  AdvancedPDFCompressor.extractive_summarize text ratio = Ok out ->
  (length out <= length text)%nat.
Proof. apply summarize_length. Qed.

Lemma summary_is_not_longer_witness :
  (length (lit "Cats purr. Cats sleep.")
     <= length (lit "Cats purr.  Dogs bark!   Cats sleep."))%nat.
Proof.
  assert (H : AdvancedPDFCompressor.extractive_summarize
                (lit "Cats purr.  Dogs bark!   Cats sleep.") 0.75
              = Ok (lit "Cats purr. Cats sleep.")) by (vm_compute; reflexivity).
  exact (summary_is_not_longer _ _ _ H).
Defined.

(** X22. A summary is a fixed point of summarizing with the ratio 1.0:
    segmenting it, ranking its sentences and joining them all again gives
    the same text. *)
Theorem summary_fixed_at_ratio_one (text : str) (ratio : float) (out : str) :
  Z.of_nat (length text) < 2 ^ 53 ->
  AdvancedPDFCompressor.extractive_summarize text ratio = Ok out ->
  AdvancedPDFCompressor.extractive_summarize out 1 = Ok out.
Proof.
  intros Hlen Hout.
  pose proof (summarize_length _ _ _ Hout) as Hl.
  rewrite ratio_one_summary by lia. f_equal.
  pose proof (summarize_retokenize _ _ _ Hout) as [_ Hjoin].
  apply summarize_ok_inv in Hout. cbv zeta in Hout.
  destruct Hout as [[Hs ->]|(sel & Hsub & Hne & E)].
  - rewrite Hs. reflexivity.
  - assert (AdvancedPDFCompressor.sentence_tokenize text <> []) as Hne'.
    { intros Hnil. rewrite Hnil in Hsub. apply sublist_nil_r in Hsub. contradiction. }
    specialize (Hjoin Hne').
    destruct (AdvancedPDFCompressor.sentence_tokenize out) as [|s ss] eqn:Et;
      [reflexivity | exact Hjoin].
Qed.

Lemma summary_fixed_at_ratio_one_witness :
  AdvancedPDFCompressor.extractive_summarize (lit "Cats purr. Cats sleep.") 1
    = Ok (lit "Cats purr. Cats sleep.").
Proof.
  assert (Hl : Z.of_nat (length (lit "Cats purr.  Dogs bark!   Cats sleep.")) < 2 ^ 53)
    by (vm_compute; reflexivity).
  assert (H : AdvancedPDFCompressor.extractive_summarize
                (lit "Cats purr.  Dogs bark!   Cats sleep.") 0.75
              = Ok (lit "Cats purr. Cats sleep.")) by (vm_compute; reflexivity).
  exact (summary_fixed_at_ratio_one _ _ _ Hl H).
Defined.

(** ** A larger ratio keeps what a smaller one keeps *)

Lemma sorted_subset_sublist (l2 : list nat) : forall l1,
  StronglySorted lt l1 -> StronglySorted lt l2 ->
  (forall i, i ∈ l1 -> i ∈ l2) -> l1 `sublist_of` l2.
Proof.
  induction l2 as [|y l2 IH]; intros l1 H1 H2 Hsub.
  - destruct l1 as [|x l1]; [constructor|].
    pose proof (Hsub x ltac:(left)) as Hx. inversion Hx.
  - destruct l1 as [|x l1]; [apply sublist_nil_l|].
    apply StronglySorted_inv in H2 as [H2 Hy]. rewrite List.Forall_forall in Hy.
    pose proof H1 as H1'.
    apply StronglySorted_inv in H1 as [H1 Hx]. rewrite List.Forall_forall in Hx.
    destruct (Nat.eq_dec x y) as [->|Hxy].
    + apply sublist_skip, IH; [exact H1 | exact H2|].
      intros i Hi. pose proof (Hx i (proj1 (list_elem_of_In _ _) Hi)).
      assert (i ∈ y :: l2) as Hi' by (apply Hsub; right; exact Hi).
      apply elem_of_cons in Hi' as [->|Hi']; [lia | exact Hi'].
    + apply sublist_cons, IH; [exact H1' | exact H2|].
      assert (x ∈ y :: l2) as Hx' by (apply Hsub; left).
      apply elem_of_cons in Hx' as [->|Hx']; [congruence|].
      pose proof (Hy x (proj1 (list_elem_of_In _ _) Hx')) as Hyx.
      intros i Hi. assert (i ∈ y :: l2) as Hi' by (apply Hsub; exact Hi).
      apply elem_of_cons in Hi' as [->|Hi']; [|exact Hi'].
      apply elem_of_cons in Hi as [->|Hi]; [lia|].
      pose proof (Hx y (proj1 (list_elem_of_In _ _) Hi)). lia.
Qed.

Lemma int_of_product_mono (n : Z) (r1 r2 : float) :
  0 < n < 2 ^ 53 ->
  (0 <? r1)%float = true -> (r1 <=? r2)%float = true -> (r2 <=? 1)%float = true ->
  exists k1 k2,
    int_of_float (float_of_Z n * r1) = Ok k1 /\
    int_of_float (float_of_Z n * r2) = Ok k2 /\ 0 <= k1 <= k2.
Proof.
  intros Hn H1 H12 H2.
  destruct (leb_positive r1 r2 H1 H12) as [Hp2 Hs].
  pose proof (leb_one_trans r1 r2 H1 H12 H2) as Hle1.
  destruct (int_of_product n r1 Hn H1 Hle1) as [E1 B1].
  destruct (int_of_product n r2 Hn Hp2 H2) as [E2 B2].
  eexists; eexists. split; [exact E1|]. split; [exact E2|].
  split; [lia|].
  assert (Hp : 0 < 2 ^ 1074) by (apply pow2_pos; lia).
  apply positive_sval in H1 as [_ S1].
  apply Z.div_le_mono; [lia|]. apply round_val_mono.
  - apply Z.mul_nonneg_nonneg; [apply Z.mul_nonneg_nonneg|]; lia.
  - apply Z.mul_le_mono_nonneg_l; [apply Z.mul_nonneg_nonneg; lia | exact Hs].
Qed.

(** X23. Raising the ratio within (0, 1] only adds sentences: the
    indices kept with the smaller ratio are a subsequence of those kept
    with the larger one. *)
Theorem larger_ratio_keeps_more (sentences : list str) (r1 r2 : float) :
  sentences <> [] -> Z.of_nat (length sentences) < 2 ^ 53 ->
  (0 <? r1)%float = true -> (r1 <=? r2)%float = true -> (r2 <=? 1)%float = true ->
  exists idx1 idx2,
    AdvancedPDFCompressor.top_indices sentences r1 = Ok idx1 /\
    AdvancedPDFCompressor.top_indices sentences r2 = Ok idx2 /\
    idx1 `sublist_of` idx2.
Proof.
  intros Hne Hlen H1 H12 H2.
  assert (0 < Z.of_nat (length sentences) < 2 ^ 53) as Hn.
  { destruct sentences; [congruence|]. cbn [length] in *. lia. }
  destruct (int_of_product_mono _ r1 r2 Hn H1 H12 H2) as (k1 & k2 & E1 & E2 & Hk).
  destruct (top_indices_unfold sentences r1) as (scores & Hs & _ & T1).
  destruct (top_indices_unfold sentences r2) as (scores' & Hs' & _ & T2).
  rewrite Hs in Hs'. injection Hs' as <-.
  rewrite E1 in T1. rewrite E2 in T2.
  eexists; eexists. split; [exact T1|]. split; [exact T2|].
  destruct (selection_props scores (Z.to_nat (Z.max 1 k1))) as (S1 & _ & _ & P1).
  destruct (selection_props scores (Z.to_nat (Z.max 1 k2))) as (S2 & _ & _ & P2).
  cbv zeta in S1, S2, P1, P2.
  apply sorted_subset_sublist; [exact S1 | exact S2|].
  intros i Hi. rewrite P1 in Hi. rewrite P2.
  replace (Z.to_nat (Z.max 1 k1))
    with (Nat.min (Z.to_nat (Z.max 1 k1)) (Z.to_nat (Z.max 1 k2))) in Hi by lia.
  rewrite <- take_take in Hi.
  eapply elem_of_sublist; [exact Hi | apply sublist_take].
Qed.

Lemma larger_ratio_keeps_more_witness :
  exists idx1 idx2,
    AdvancedPDFCompressor.top_indices
      (map lit ["The cat sat."; "2024 was a good year."; "The cat sat."]%string)
      0.25 = Ok idx1 /\
    AdvancedPDFCompressor.top_indices
      (map lit ["The cat sat."; "2024 was a good year."; "The cat sat."]%string)
      0.75 = Ok idx2 /\
    idx1 `sublist_of` idx2.
Proof.
  apply (larger_ratio_keeps_more
           (map lit ["The cat sat."; "2024 was a good year."; "The cat sat."]%string)
           0.25 0.75).
  - discriminate.
  - vm_compute. reflexivity.
  - reflexivity.
  - reflexivity.
  - reflexivity.
Defined.

(** ** Spacing after the abbreviations *)

Lemma starts_with_split (old s : str) :
  starts_with old s = true -> s = old ++ drop (length old) s.
Proof.
  revert s. induction old as [|a old IH]; intros s; [intros _; rewrite drop_0; reflexivity|].
  destruct s as [|b s]; [discriminate|]. cbn [starts_with length drop app].
  intros H. apply andb_prop in H as [Hab H]. apply char_eqb_eq in Hab. subst b.
  f_equal. apply IH, H.
Qed.

Lemma single_spaced_after_space (a b : str) (d : char) :
  single_spaced (a ++ b) = true -> last a = Some space -> head b = Some d ->
  isspace d = false.
Proof.
  induction a as [|c a IH]; [discriminate|]. cbn [app]. intros Hs Hl Hd.
  apply single_spaced_cons in Hs as [Hs Hc].
  destruct a as [|c' a'].
  - cbn [last] in Hl. injection Hl as ->. destruct (Hc eq_refl) as [_ H].
    cbn [app] in H. destruct b as [|d' b']; [discriminate|].
    injection Hd as ->. exact H.
  - apply IH; [exact Hs | exact Hl | exact Hd].
Qed.

Lemma replace_single_spaced (old' new text : str) :
  last (space :: old') = Some space -> old' <> [] ->
  (forall tail, single_spaced tail = true ->
                (forall d, head tail = Some d -> isspace d = false) ->
                single_spaced (new ++ tail) = true) ->
  single_spaced text = true ->
  single_spaced (replace (space :: old') new text) = true /\
  (forall c, head text = Some c -> isspace c = false ->
             head (replace (space :: old') new text) = Some c).
Proof.
  intros Hlast Hne Hnew. unfold replace. set (old := space :: old').
  apply (re_sub_ind (pat_literal old) (fun _ => new) (pat_literal_forward old)
           (fun text out =>
              single_spaced text = true ->
              single_spaced out = true /\
              (forall c, head text = Some c -> isspace c = false -> head out = Some c))).
  - intros _. split; [reflexivity | discriminate].
  - intros c rest k E IH Hs. unfold pat_literal in E.
    destruct (starts_with old (c :: rest)) eqn:Est; [|discriminate].
    injection E as Ek. pose proof (starts_with_split _ _ Est) as Esplit.
    change (length old) with (S (length old')) in Esplit.
    rewrite Ek in Esplit. cbn [drop] in Esplit.
    assert (c = space) as ->.
    { unfold old in Est. cbn [starts_with] in Est. apply andb_prop in Est as [Est _].
      apply char_eqb_eq in Est. congruence. }
    rewrite Esplit in Hs.
    pose proof (single_spaced_app_r _ _ Hs) as Hs'.
    destruct (IH Hs') as [IH1 IH2].
    split; [|intros c' [= <-] Hc; discriminate Hc].
    apply Hnew; [exact IH1|]. intros d Hd.
    destruct (drop k rest) as [|e r] eqn:Ed.
    + discriminate Hd.
    + pose proof (single_spaced_after_space old (e :: r) e Hs Hlast eq_refl) as He.
      rewrite (IH2 e eq_refl He) in Hd. injection Hd as <-. exact He.
  - intros c rest _ IH Hs. apply single_spaced_cons in Hs as [Hs Hc].
    destruct (IH Hs) as [IH1 IH2]. split; [|intros c' [= <-] _; reflexivity].
    cbn [single_spaced]. rewrite IH1, andb_true_r.
    destruct (isspace c) eqn:Ec; [|reflexivity].
    destruct (Hc eq_refl) as [-> Hd]. rewrite char_eqb_refl. cbn [andb].
    destruct rest as [|d r]; [reflexivity|].
    pose proof (IH2 d eq_refl Hd) as Hh.
    destruct (re_sub (pat_literal old) (fun _ => new) (d :: r)) as [|e o];
      [discriminate Hh|].
    injection Hh as ->. rewrite Hd. reflexivity.
Qed.

Lemma replacements_spacing :
  Forall (fun '(old, new) =>
            (exists old', old = space :: old' /\ last old = Some space /\ old' <> []) /\
            (forall tail, single_spaced tail = true ->
                          (forall d, head tail = Some d -> isspace d = false) ->
                          single_spaced (new ++ tail) = true))
         PDFCompressor.replacements.
Proof.
  unfold PDFCompressor.replacements. cbn [map].
  repeat constructor;
    try (eexists; split; [reflexivity|]; split; [reflexivity | discriminate]);
    intros tail Hs Hd; cbn [lit String.list_ascii_of_string app single_spaced];
    rewrite Hs; destruct tail as [|d t]; try reflexivity;
    rewrite ?(Hd d eq_refl); reflexivity.
Qed.

Lemma compress_abbreviations_spacing (text : str) :
  single_spaced text = true ->
  (forall c, head text = Some c -> isspace c = false) ->
  single_spaced (PDFCompressor.compress_abbreviations text) = true /\
  (forall c, head (PDFCompressor.compress_abbreviations text) = Some c ->
             isspace c = false).
Proof.
  unfold PDFCompressor.compress_abbreviations. revert text.
  induction replacements_spacing as [|[old new] pairs [(old' & -> & Hl & Hne) Hnew] _ IH];
    intros text Hs Hh; [auto|].
  cbn [foldl].
  destruct (replace_single_spaced old' new text Hl Hne Hnew Hs) as [H1 H2].
  apply IH; [exact H1|]. intros c Hc.
  destruct text as [|c0 r].
  - unfold replace, re_sub in Hc. discriminate Hc.
  - rewrite (H2 c0 eq_refl (Hh c0 eq_refl)) in Hc. injection Hc as <-.
    apply Hh. reflexivity.
Qed.

(** X24. The text that the truncating [compress] returns has white space
    only as single spaces (every white-space character in it is a space,
    followed by a character that is not white space or by the end of the
    text), and does not start with white space. *)
Theorem simple_compress_spacing (mt : Z) (text : str) :
  let abbreviated := PDFCompressor.compress_abbreviations (PDFCompressor.clean_text text) in
  let out := if mt <? PDFCompressor.estimate_tokens abbreviated
             then slice_to abbreviated (mt * 4) else abbreviated in
  (forall r, PDFCompressor.compress (PDFCompressor.init mt) text = Ok r ->
             compressed r = out) /\
  single_spaced out = true /\
  (forall c, head out = Some c -> isspace c = false).
Proof.
  intros abbreviated out. split.
  - intros r Hr. pose proof (simple_compress_cases mt text) as Hc. cbv zeta in Hc.
    rewrite Hc in Hr. destruct (length text <? 4)%nat; [discriminate|].
    injection Hr as <-. reflexivity.
  - destruct (compress_abbreviations_spacing (PDFCompressor.clean_text text))
      as [H1 H2].
    + rewrite clean_text_strip_clean. apply single_spaced_strip, clean_shape.
    + rewrite clean_text_strip_clean. apply strip_no_leading.
    + fold abbreviated in H1, H2. unfold out, slice_to.
      destruct (mt <? _); [|auto].
      destruct (0 <=? mt * 4).
      * split.
        -- rewrite <- (take_drop (Z.to_nat (mt * 4)) abbreviated) in H1.
           exact (single_spaced_app_l _ _ H1).
        -- intros c Hc. apply H2. destruct (Z.to_nat (mt * 4)); [discriminate|].
           destruct abbreviated; [discriminate | exact Hc].
      * split.
        -- rewrite <- (take_drop (Z.to_nat (Z.of_nat (length abbreviated) + mt * 4))
                                 abbreviated) in H1.
           exact (single_spaced_app_l _ _ H1).
        -- intros c Hc. apply H2.
           destruct (Z.to_nat (Z.of_nat (length abbreviated) + mt * 4)); [discriminate|].
           destruct abbreviated; [discriminate | exact Hc].
Qed.
